(** * NYT-LLM-Arena: the two puzzle environments and the per-run step loop

    A shallow embedding of
      - [src/environments/ConnectionsEnv.ts]  (module [ConnectionsEnv]),
      - [src/environments/CrosswordEnv.ts]    (module [CrosswordEnv]),
      - [runSingleEvaluation] of [src/runner/runner.ts] and of the
        per-model worker (module [Runner]), with its usage totals
        (module [Usage]),
      - [getMetrics] of CrosswordEnv.ts (module [CrosswordMetrics]),
      - [chatCompletionWithRetry] and [isRetryableError] of
        [src/client/openrouter.ts] (module [OpenRouterClient]),
      - [normalizeConnectionsPuzzle] of the normalization script
        (module [NormalizeConnections]),
    followed by the theorems about them.

    Modelling conventions.
      - A class instance whose [state] field is [null] before [reset] is a
        record holding an [option] state; a method is a function from the
        instance to the new instance and what the call produced.  A [throw]
        is the [Threw] outcome, and the instance it returns is the one the
        method had mutated up to the throw.
      - JavaScript strings are [string]s of 8-bit characters: [toUpperCase],
        [trim] and the regular expressions are embedded on ASCII text, and
        a character above 127 is left as it is.  The general theorems
        on the grouping game use nothing of [normalize] but that it is
        a function.
      - JavaScript numbers that count or index are [nat]; numbers that are
        decremented or come from configuration are [Z]. *)

From Stdlib Require Import Ascii ZArith Lia.
From stdpp Require Import base decidable option list strings gmap pretty.

Local Open Scope string_scope.
Set Warnings "-clear-no-such-hyp".

(* ===================================================================== *)
(** ** JavaScript string primitives used by the environments *)
(* ===================================================================== *)

Module JsString.

Definition isLower (c : ascii) : bool :=
  let n := nat_of_ascii c in (97 <=? n)%nat && (n <=? 122)%nat.

Definition isUpper (c : ascii) : bool :=
  let n := nat_of_ascii c in (65 <=? n)%nat && (n <=? 90)%nat.

(** White space of [String.prototype.trim] within ASCII:
    TAB, LF, VT, FF, CR and SPACE. *)
Definition isWhiteSpace (c : ascii) : bool :=
  let n := nat_of_ascii c in
  ((9 <=? n)%nat && (n <=? 13)%nat) || (n =? 32)%nat.

Definition toUpperChar (c : ascii) : ascii :=
  if isLower c then ascii_of_nat (nat_of_ascii c - 32) else c.

Fixpoint toUpperCase (s : string) : string :=
  match s with
  | EmptyString => EmptyString
  | String c r => String (toUpperChar c) (toUpperCase r)
  end.

Fixpoint trimStart (s : string) : string :=
  match s with
  | EmptyString => EmptyString
  | String c r => if isWhiteSpace c then trimStart r else s
  end.

Fixpoint trimEnd (s : string) : string :=
  match s with
  | EmptyString => EmptyString
  | String c r =>
      match trimEnd r with
      | EmptyString => if isWhiteSpace c then EmptyString else String c EmptyString
      | r' => String c r'
      end
  end.

Definition trim (s : string) : string := trimEnd (trimStart s).

(** [s.replace(/[^A-Z]/g, empty)]: only the characters A-Z are kept. *)
Fixpoint keepUpperLetters (s : string) : string :=
  match s with
  | EmptyString => EmptyString
  | String c r =>
      if isUpper c then String c (keepUpperLetters r) else keepUpperLetters r
  end.

Fixpoint allUpperLetters (s : string) : bool :=
  match s with
  | EmptyString => true
  | String c r => isUpper c && allUpperLetters r
  end.

(** [/^[A-Z]+$/.test(s)] *)
Definition matchesLettersOnly (s : string) : bool :=
  match s with
  | EmptyString => false
  | _ => allUpperLetters s
  end.

(** [s[i]]: the one-character string at position [i], or [undefined]. *)
Definition charAt (s : string) (i : nat) : option string :=
  (λ c, String c EmptyString) <$> String.get i s.

(** [xs.includes(w)] *)
Definition includes (xs : list string) (w : string) : bool :=
  bool_decide (w ∈ xs).

End JsString.

(** What a call of [step] produces: [throw new Error(err)], or the returned
    [{ observation, feedback }]. *)
Inductive StepOutcome (O F : Type) :=
| Threw (err : string)
| Returned (obs : O) (fb : F).
Arguments Threw {O F} err.
Arguments Returned {O F} obs fb.

(** [string[]] written by index.  An element is [None] where JavaScript
    reads [undefined]: a hole left by a write past the end, or an
    [undefined] that was stored.  Reading past the end is [undefined] too. *)
Module JsArray.

Abbreviation t := (list (option string)).

Definition get (a : t) (i : nat) : option string := mjoin (a !! i).

(** [a[i] = v]: in range it overwrites; past the end the array grows to
    length [i + 1], the new positions before [i] being holes. *)
Definition set (a : t) (i : nat) (v : option string) : t :=
  if decide (i < length a)
  then <[i := v]> a
  else (a ++ replicate (i - length a) None ++ [v])%list.

End JsArray.

(** [Set<number>]: the members in insertion order, without repetition. *)
Module JsSet.

Abbreviation t := (list nat).

Definition has (s : t) (x : nat) : bool := bool_decide (x ∈ s).

Definition add (s : t) (x : nat) : t := if has s x then s else (s ++ [x])%list.

Definition delete (s : t) (x : nat) : t := List.filter (λ y, negb (y =? x)%nat) s.

Definition size (s : t) : nat := length s.

End JsSet.

(* ===================================================================== *)
(** ** ConnectionsEnv.ts *)
(* ===================================================================== *)

Module ConnectionsEnv.
Import JsString.

Inductive Level := yellow | green | blue | purple.

Record ConnectionsGroup := {
  level : Level;
  category : string;
  words : list string;
}.

Record ConnectionsPuzzle := {
  puzzle_id : string;
  puzzle_words : list string;
  groups : list ConnectionsGroup;
}.

(** The schema has two actions; [step] keeps a branch for any other tag. *)
Inductive ConnectionsAction :=
| submit_group (submitted : list string)
| giveUp (* the action [give_up] *)
| other_action (tag : string).

Module Result.
Inductive t := correct | incorrect | invalid_action | gave_up.
Definition tag (r : t) : string :=
  match r with
  | correct => "correct"
  | incorrect => "incorrect"
  | invalid_action => "invalid_action"
  | gave_up => "gave_up"
  end.
End Result.

Module Status.
Inductive t := in_progress | success | fail | gave_up.
Definition tag (s : t) : string :=
  match s with
  | in_progress => "in_progress"
  | success => "success"
  | fail => "fail"
  | gave_up => "gave_up"
  end.
End Status.

Record ConnectionsFeedback := {
  result : Result.t;
  oneAway : option bool;
  message : string;
  foundGroup : option ConnectionsGroup;
  done : bool;
  status : option Status.t;
}.

Record ConnectionsHistoryEntry := {
  stepIndex : nat;
  action : ConnectionsAction;
  feedback : ConnectionsFeedback;
}.

Record ConnectionsEnvState := {
  puzzle : ConnectionsPuzzle;
  remainingWords : list string;
  foundGroups : list ConnectionsGroup;
  mistakesLeft : Z;
  history : list ConnectionsHistoryEntry;
  stateVersion : nat;
  st_done : bool;
  st_status : Status.t;
}.

Record ConnectionsObservation := {
  obs_puzzleId : string;
  obs_stateVersion : nat;
  obs_remainingWords : list string;
  obs_foundGroups : list ConnectionsGroup;
  obs_mistakesLeft : Z;
  obs_history : list ConnectionsHistoryEntry;
  obs_allowedActions : list string;
}.

(** The class instance: [private state: ConnectionsEnvState | null]. *)
Abbreviation Env := (option ConnectionsEnvState).

Definition newEnv : Env := None.

(** [w.toUpperCase().trim()] *)
Definition normalize (w : string) : string := trim (toUpperCase w).

(** [reset]: the presentation order [shuffledWords] is what the random
    comparator made of [puzzle.words]; it is an input here. *)
Definition reset (p : ConnectionsPuzzle) (shuffledWords : list string)
  : ConnectionsEnvState :=
  {| puzzle := p;
     remainingWords := shuffledWords;
     foundGroups := [];
     mistakesLeft := 4;
     history := [];
     stateVersion := 0;
     st_done := false;
     st_status := Status.in_progress |}.

Definition getObservation (s : ConnectionsEnvState) : ConnectionsObservation :=
  {| obs_puzzleId := puzzle_id (puzzle s);
     obs_stateVersion := stateVersion s;
     obs_remainingWords := remainingWords s;
     obs_foundGroups := foundGroups s;
     obs_mistakesLeft := mistakesLeft s;
     obs_history := history s;
     obs_allowedActions := ["submit_group"; "give_up"] |}.

Definition invalid (msg : string) : ConnectionsFeedback :=
  {| result := Result.invalid_action; oneAway := None; message := msg;
     foundGroup := None; done := false; status := None |}.

(** [this.state.done = true; this.state.status = st] *)
Definition finish (s : ConnectionsEnvState) (st : Status.t)
  : ConnectionsEnvState :=
  {| puzzle := puzzle s;
     remainingWords := remainingWords s;
     foundGroups := foundGroups s;
     mistakesLeft := mistakesLeft s;
     history := history s;
     stateVersion := stateVersion s;
     st_done := true;
     st_status := st |}.

Definition handleGiveUp (s : ConnectionsEnvState)
  : ConnectionsEnvState * ConnectionsFeedback :=
  (finish s Status.gave_up,
   {| result := Result.gave_up; oneAway := None;
      message := "You gave up. Game over.";
      foundGroup := None; done := true; status := Some Status.gave_up |}).

(** [group.words.map((w) => w.toUpperCase().trim())] *)
Definition normalizedGroup (g : ConnectionsGroup) : list string :=
  normalize <$> words g.

(** [normalizedSubmitted.filter((w) => normalizedGroup.includes(w))] *)
Definition matches (normalizedSubmitted : list string) (g : ConnectionsGroup)
  : list string :=
  List.filter (includes (normalizedGroup g)) normalizedSubmitted.

(** [new Set(normalizedSubmitted).size] *)
Definition uniqueCount (normalizedSubmitted : list string) : nat :=
  size (list_to_set normalizedSubmitted : gset string).

(** The membership loop: the first submitted word that is not remaining. *)
Fixpoint firstNotRemaining (normalizedRemaining normalizedSubmitted : list string)
  : option string :=
  match normalizedSubmitted with
  | [] => None
  | word :: rest =>
      if includes normalizedRemaining word
      then firstNotRemaining normalizedRemaining rest
      else Some word
  end.

(** The first loop over [puzzle.groups]: the first group with four matches. *)
Fixpoint findMatchingGroup (normalizedSubmitted : list string)
         (gs : list ConnectionsGroup) : option ConnectionsGroup :=
  match gs with
  | [] => None
  | group :: rest =>
      if (length (matches normalizedSubmitted group) =? 4)%nat
      then Some group
      else findMatchingGroup normalizedSubmitted rest
  end.

(** [foundGroups.some((fg) => fg.category === group.category)] *)
Definition alreadyFound (found : list ConnectionsGroup) (group : ConnectionsGroup)
  : bool :=
  existsb (λ fg, String.eqb (category fg) (category group)) found.

(** The second loop over [puzzle.groups]: the one-away flag. *)
Fixpoint computeOneAway (found : list ConnectionsGroup)
         (normalizedSubmitted : list string) (gs : list ConnectionsGroup) : bool :=
  match gs with
  | [] => false
  | group :: rest =>
      if alreadyFound found group
      then computeOneAway found normalizedSubmitted rest
      else if (length (matches normalizedSubmitted group) =? 3)%nat
           then true
           else computeOneAway found normalizedSubmitted rest
  end.

Definition quote : string := String (ascii_of_nat 34) EmptyString.

Definition handleSubmitGroup (s : ConnectionsEnvState) (submittedWords : list string)
  : ConnectionsEnvState * ConnectionsFeedback :=
  let normalizedSubmitted : list string := normalize <$> submittedWords in
  let normalizedRemaining : list string := normalize <$> remainingWords s in
  if negb (length normalizedSubmitted =? 4)%nat then
    (s, invalid "You must submit exactly 4 words.")
  else if negb (uniqueCount normalizedSubmitted =? 4)%nat then
    (s, invalid "All 4 words must be different.")
  else
    match firstNotRemaining normalizedRemaining normalizedSubmitted with
    | Some word =>
        (s, invalid ("Word " +:+ quote +:+ word +:+ quote
                     +:+ " is not in the remaining words."))
    | None =>
        match findMatchingGroup normalizedSubmitted (groups (puzzle s)) with
        | Some group =>
            let found' := (foundGroups s ++ [group])%list in
            let remaining' :=
              List.filter (λ w, negb (includes (normalizedGroup group) (normalize w)))
                          (remainingWords s) in
            let won := (length found' =? 4)%nat in
            ({| puzzle := puzzle s;
                remainingWords := remaining';
                foundGroups := found';
                mistakesLeft := mistakesLeft s;
                history := history s;
                stateVersion := stateVersion s;
                st_done := if won then true else st_done s;
                st_status := if won then Status.success else st_status s |},
             {| result := Result.correct;
                oneAway := None;
                message :=
                  "Correct! Category: " +:+ quote +:+ category group +:+ quote
                  +:+ (if won then ". You found all 4 groups!" else ".");
                foundGroup := Some group;
                done := won;
                status := if won then Some Status.success else None |})
        | None =>
            let isOneAway :=
              computeOneAway (foundGroups s) normalizedSubmitted (groups (puzzle s)) in
            let mistakes' := (mistakesLeft s - 1)%Z in
            let over := (mistakes' <=? 0)%Z in
            ({| puzzle := puzzle s;
                remainingWords := remainingWords s;
                foundGroups := foundGroups s;
                mistakesLeft := mistakes';
                history := history s;
                stateVersion := stateVersion s;
                st_done := if over then true else st_done s;
                st_status := if over then Status.fail else st_status s |},
             {| result := Result.incorrect;
                oneAway := Some isOneAway;
                message :=
                  if over
                  then (if isOneAway
                        then "One away! But no mistakes remaining. Game over."
                        else "Incorrect. No mistakes remaining. Game over.")
                  else (if isOneAway then "One away! " else "Incorrect. ")
                       +:+ pretty mistakes' +:+ " mistakes remaining.";
                foundGroup := None;
                done := over;
                status := if over then Some Status.fail else None |})
        end
    end.

(** [this.state.history.push({...}); this.state.stateVersion++] *)
Definition recordHistory (s : ConnectionsEnvState) (a : ConnectionsAction)
           (fb : ConnectionsFeedback) : ConnectionsEnvState :=
  {| puzzle := puzzle s;
     remainingWords := remainingWords s;
     foundGroups := foundGroups s;
     mistakesLeft := mistakesLeft s;
     history := (history s ++ [{| stepIndex := length (history s);
                                  action := a; feedback := fb |}])%list;
     stateVersion := S (stateVersion s);
     st_done := st_done s;
     st_status := st_status s |}.

Definition step (env : Env) (a : ConnectionsAction)
  : Env * StepOutcome ConnectionsObservation ConnectionsFeedback :=
  match env with
  | None => (env, Threw "Environment not initialized. Call reset() first.")
  | Some s =>
      if st_done s then (env, Threw "Game is already finished.")
      else
        let '(s1, fb) :=
          match a with
          | giveUp => handleGiveUp s
          | submit_group submittedWords => handleSubmitGroup s submittedWords
          | other_action _ => (s, invalid "Unknown action type.")
          end in
        let s2 := recordHistory s1 a fb in
        (Some s2, Returned (getObservation s2) fb)
  end.

Definition isDone (env : Env) : bool :=
  match env with Some s => st_done s | None => false end.

Definition getStatus (env : Env) : Status.t :=
  match env with Some s => st_status s | None => Status.in_progress end.

Definition getMetrics (env : Env) : Z * nat :=
  match env with
  | None => (0%Z, 0%nat)
  | Some s => ((4 - mistakesLeft s)%Z, length (foundGroups s))
  end.

(** The puzzle of [ConnectionsEnv.test.ts]. *)
Definition samplePuzzle : ConnectionsPuzzle :=
  {| puzzle_id := "connections-test";
     puzzle_words :=
       ["HAIL"; "RAIN"; "SLEET"; "SNOW"; "BUCKS"; "HEAT"; "JAZZ"; "NETS";
        "OPTION"; "RETURN"; "SHIFT"; "TAB"; "KAYAK"; "LEVEL"; "MOM"; "RACECAR"];
     groups :=
       [ {| level := yellow; category := "WET WEATHER";
            words := ["HAIL"; "RAIN"; "SLEET"; "SNOW"] |};
         {| level := green; category := "NBA TEAMS";
            words := ["BUCKS"; "HEAT"; "JAZZ"; "NETS"] |};
         {| level := blue; category := "KEYBOARD KEYS";
            words := ["OPTION"; "RETURN"; "SHIFT"; "TAB"] |};
         {| level := purple; category := "PALINDROMES";
            words := ["KAYAK"; "LEVEL"; "MOM"; "RACECAR"] |} ] |}.

Definition sampleStart : ConnectionsEnvState :=
  reset samplePuzzle (puzzle_words samplePuzzle).

End ConnectionsEnv.

(* ===================================================================== *)
(** ** CrosswordEnv.ts *)
(* ===================================================================== *)

Module CrosswordEnv.
Import JsString.

Inductive Direction := across | down.

Definition direction_tag (d : Direction) : string :=
  match d with across => "across" | down => "down" end.

Record CrosswordClue := {
  number : Z;
  clue : string;
  clue_length : Z;
  cells : list nat;
}.

Record CrosswordPuzzle := {
  puzzle_id : string;
  width : nat;
  height : nat;
  grid : list string;
  clues_across : list CrosswordClue;
  clues_down : list CrosswordClue;
  solution_grid : list string;
}.

Inductive CrosswordAction :=
| fill_entry (direction : Direction) (num : Z) (answer : string)
| clear_entry (direction : Direction) (num : Z)
| check_entry (direction : Direction) (num : Z)
| submit_puzzle
| giveUp (* the action [give_up] *)
| other_action (tag : string).

Module Result.
Inductive t := filled | cleared | checked | submitted | invalid_action | gave_up.
Definition tag (r : t) : string :=
  match r with
  | filled => "filled"
  | cleared => "cleared"
  | checked => "checked"
  | submitted => "submitted"
  | invalid_action => "invalid_action"
  | gave_up => "gave_up"
  end.
End Result.

Module Status.
Inductive t :=
  in_progress | success_clean | success_with_reveals | fail | gave_up.
Definition tag (s : t) : string :=
  match s with
  | in_progress => "in_progress"
  | success_clean => "success_clean"
  | success_with_reveals => "success_with_reveals"
  | fail => "fail"
  | gave_up => "gave_up"
  end.
End Status.

Record CrosswordFeedback := {
  result : Result.t;
  message : string;
  wrongCells : option (list nat);
  newlyWrongCells : option (list nat);
  success : option bool;
  successType : option Status.t;
  incorrectCells : option (list nat);
  done : bool;
  status : option Status.t;
}.

Record CrosswordHistoryEntry := {
  stepIndex : nat;
  action : CrosswordAction;
  feedback : CrosswordFeedback;
}.

Record CrosswordEnvConfig := {
  allowChecks : bool;
  allowReveals : bool;
}.

Definition defaultConfig : CrosswordEnvConfig :=
  {| allowChecks := true; allowReveals := false |}.

Record CrosswordEnvState := {
  puzzle : CrosswordPuzzle;
  config : CrosswordEnvConfig;
  fillGrid : JsArray.t;
  checkedWrongCells : JsSet.t;
  revealedCells : JsSet.t;
  history : list CrosswordHistoryEntry;
  stateVersion : nat;
  st_done : bool;
  st_status : Status.t;
  checksPerformed : nat;
}.

(** The class instance: the nullable [state] and the [clueMap]. *)
Record Env := {
  state : option CrosswordEnvState;
  clueMap : gmap string CrosswordClue;
}.

Definition newEnv : Env := {| state := None; clueMap := ∅ |}.

(** The key [`${direction}-${number}`] of [clueMap]. *)
Definition clueKey (d : Direction) (n : Z) : string :=
  direction_tag d +:+ "-" +:+ pretty n.

(** [for (const clue of cs) clueMap.set(`${d}-${clue.number}`, clue)] *)
Definition setClues (d : Direction) (cs : list CrosswordClue)
           (m : gmap string CrosswordClue) : gmap string CrosswordClue :=
  foldl (λ acc c, <[clueKey d (number c) := c]> acc) m cs.

(** The state [reset] builds: blocks copied from the puzzle grid, every
    other cell empty. *)
Definition freshState (p : CrosswordPuzzle) (cfg : CrosswordEnvConfig)
  : CrosswordEnvState :=
  {| puzzle := p;
     config := cfg;
     fillGrid := (λ cell, Some (if String.eqb cell "#" then "#" else "."))
                   <$> grid p;
     checkedWrongCells := [];
     revealedCells := [];
     history := [];
     stateVersion := 0;
     st_done := false;
     st_status := Status.in_progress;
     checksPerformed := 0 |}.

Definition reset (p : CrosswordPuzzle) (cfg : CrosswordEnvConfig) : Env :=
  {| state := Some (freshState p cfg);
     clueMap := setClues down (clues_down p) (setClues across (clues_across p) ∅) |}.

Definition invalid (msg : string) : CrosswordFeedback :=
  {| result := Result.invalid_action; message := msg;
     wrongCells := None; newlyWrongCells := None;
     success := None; successType := None; incorrectCells := None;
     done := false; status := None |}.

Definition noSuchClue (d : Direction) (n : Z) : CrosswordFeedback :=
  invalid ("No " +:+ direction_tag d +:+ " clue with number " +:+ pretty n
           +:+ " exists.").

(** Replace the grid and the known-wrong set, as the two entry loops do. *)
Definition withGrid (s : CrosswordEnvState) (g : JsArray.t) (w : JsSet.t)
  : CrosswordEnvState :=
  {| puzzle := puzzle s; config := config s;
     fillGrid := g; checkedWrongCells := w;
     revealedCells := revealedCells s; history := history s;
     stateVersion := stateVersion s; st_done := st_done s;
     st_status := st_status s; checksPerformed := checksPerformed s |}.

(** [this.state.done = true; this.state.status = st] *)
Definition finish (s : CrosswordEnvState) (st : Status.t) : CrosswordEnvState :=
  {| puzzle := puzzle s; config := config s;
     fillGrid := fillGrid s; checkedWrongCells := checkedWrongCells s;
     revealedCells := revealedCells s; history := history s;
     stateVersion := stateVersion s; st_done := true;
     st_status := st; checksPerformed := checksPerformed s |}.

(** [answer.toUpperCase()] with every character outside A-Z removed. *)
Definition normalizeAnswer (answer : string) : string :=
  keepUpperLetters (toUpperCase answer).

(** The loop [for (let i = 0; i < clue.cells.length; i++)] of
    [handleFillEntry], from index [i] on. *)
Fixpoint fillLoop (cs : list nat) (i : nat) (normalizedAnswer : string)
         (g : JsArray.t) (w : JsSet.t) : JsArray.t * JsSet.t :=
  match cs with
  | [] => (g, w)
  | cellIndex :: rest =>
      fillLoop rest (S i) normalizedAnswer
               (JsArray.set g cellIndex (charAt normalizedAnswer i))
               (JsSet.delete w cellIndex)
  end.

Definition handleFillEntry (m : gmap string CrosswordClue) (s : CrosswordEnvState)
           (d : Direction) (n : Z) (answer : string)
  : CrosswordEnvState * CrosswordFeedback :=
  match m !! clueKey d n with
  | None => (s, noSuchClue d n)
  | Some c =>
      let normalizedAnswer := normalizeAnswer answer in
      let len := Z.of_nat (String.length normalizedAnswer) in
      if negb (len =? clue_length c)%Z then
        (s, invalid ("Answer length (" +:+ pretty len
                     +:+ ") does not match entry length ("
                     +:+ pretty (clue_length c) +:+ ")."))
      else if negb (matchesLettersOnly normalizedAnswer) then
        (s, invalid "Answer must contain only letters A-Z.")
      else
        let '(g, w) := fillLoop (cells c) 0 normalizedAnswer
                                (fillGrid s) (checkedWrongCells s) in
        (withGrid s g w,
         {| result := Result.filled;
            message := "Filled " +:+ direction_tag d +:+ " " +:+ pretty n
                       +:+ " with " +:+ ConnectionsEnv.quote +:+ normalizedAnswer
                       +:+ ConnectionsEnv.quote +:+ ".";
            wrongCells := None; newlyWrongCells := None;
            success := None; successType := None; incorrectCells := None;
            done := false; status := None |})
  end.

(** The loop of [handleClearEntry]; revealed cells are left alone. *)
Fixpoint clearLoop (cs : list nat) (revealed : JsSet.t)
         (g : JsArray.t) (w : JsSet.t) : JsArray.t * JsSet.t :=
  match cs with
  | [] => (g, w)
  | cellIndex :: rest =>
      if JsSet.has revealed cellIndex
      then clearLoop rest revealed g w
      else clearLoop rest revealed
                     (JsArray.set g cellIndex (Some "."))
                     (JsSet.delete w cellIndex)
  end.

Definition handleClearEntry (m : gmap string CrosswordClue) (s : CrosswordEnvState)
           (d : Direction) (n : Z) : CrosswordEnvState * CrosswordFeedback :=
  match m !! clueKey d n with
  | None => (s, noSuchClue d n)
  | Some c =>
      let '(g, w) := clearLoop (cells c) (revealedCells s)
                               (fillGrid s) (checkedWrongCells s) in
      (withGrid s g w,
       {| result := Result.cleared;
          message := "Cleared " +:+ direction_tag d +:+ " " +:+ pretty n +:+ ".";
          wrongCells := None; newlyWrongCells := None;
          success := None; successType := None; incorrectCells := None;
          done := false; status := None |})
  end.

(** The first loop of [handleCheckEntry]: is some cell of the entry ["."]? *)
Fixpoint hasEmptyCell (cs : list nat) (g : JsArray.t) : bool :=
  match cs with
  | [] => false
  | cellIndex :: rest =>
      if bool_decide (JsArray.get g cellIndex = Some ".")
      then true
      else hasEmptyCell rest g
  end.

(** The second loop of [handleCheckEntry]: it threads [wrongCells],
    [newlyWrongCells] and the known-wrong set. *)
Fixpoint checkLoop (cs : list nat) (g : JsArray.t) (sol : list string)
         (wrong newly : list nat) (known : JsSet.t)
  : list nat * list nat * JsSet.t :=
  match cs with
  | [] => (wrong, newly, known)
  | cellIndex :: rest =>
      let filled := JsArray.get g cellIndex in
      let correct := sol !! cellIndex in
      if bool_decide (filled = correct)
      then checkLoop rest g sol wrong newly known
      else if JsSet.has known cellIndex
           then checkLoop rest g sol (wrong ++ [cellIndex])%list newly known
           else checkLoop rest g sol (wrong ++ [cellIndex])%list
                          (newly ++ [cellIndex])%list (JsSet.add known cellIndex)
  end.

Definition handleCheckEntry (m : gmap string CrosswordClue) (s : CrosswordEnvState)
           (d : Direction) (n : Z) : CrosswordEnvState * CrosswordFeedback :=
  if negb (allowChecks (config s)) then
    (s, invalid "Check actions are not allowed in this suite.")
  else
    match m !! clueKey d n with
    | None => (s, noSuchClue d n)
    | Some c =>
        if hasEmptyCell (cells c) (fillGrid s) then
          (s, invalid ("Cannot check " +:+ direction_tag d +:+ " " +:+ pretty n
                       +:+ ": entry is not fully filled."))
        else
          let '(wrong, newly, known) :=
            checkLoop (cells c) (fillGrid s) (solution_grid (puzzle s))
                      [] [] (checkedWrongCells s) in
          ({| puzzle := puzzle s; config := config s;
              fillGrid := fillGrid s; checkedWrongCells := known;
              revealedCells := revealedCells s; history := history s;
              stateVersion := stateVersion s; st_done := st_done s;
              st_status := st_status s;
              checksPerformed := S (checksPerformed s) |},
           match wrong with
           | [] =>
               {| result := Result.checked;
                  message := direction_tag d +:+ " " +:+ pretty n +:+ " is correct!";
                  wrongCells := Some []; newlyWrongCells := Some [];
                  success := None; successType := None; incorrectCells := None;
                  done := false; status := None |}
           | _ =>
               {| result := Result.checked;
                  message := direction_tag d +:+ " " +:+ pretty n +:+ " has "
                             +:+ pretty (length wrong) +:+ " incorrect cell(s).";
                  wrongCells := Some wrong; newlyWrongCells := Some newly;
                  success := None; successType := None; incorrectCells := None;
                  done := false; status := None |}
           end)
    end.

(** The loop of [handleSubmitPuzzle]: [todo] iterations are left, the
    next index is [i]. *)
Fixpoint submitLoop (todo i : nat) (g : JsArray.t) (sol : list string)
         (incorrect : list nat) : list nat :=
  match todo with
  | O => incorrect
  | S todo' =>
      let filled := JsArray.get g i in
      let correct := sol !! i in
      if bool_decide (correct = Some "#")
      then submitLoop todo' (S i) g sol incorrect
      else if bool_decide (filled = correct)
           then submitLoop todo' (S i) g sol incorrect
           else submitLoop todo' (S i) g sol (incorrect ++ [i])%list
  end.

Definition handleSubmitPuzzle (s : CrosswordEnvState)
  : CrosswordEnvState * CrosswordFeedback :=
  let incorrect :=
    submitLoop (length (fillGrid s)) 0 (fillGrid s) (solution_grid (puzzle s)) [] in
  match incorrect with
  | [] =>
      let hasReveals := (0 <? JsSet.size (revealedCells s))%nat in
      let successType_ :=
        if hasReveals then Status.success_with_reveals else Status.success_clean in
      (finish s successType_,
       {| result := Result.submitted;
          message := if hasReveals
                     then "Puzzle complete! (with reveals)"
                     else "Puzzle complete! All answers are correct.";
          wrongCells := None; newlyWrongCells := None;
          success := Some true; successType := Some successType_;
          incorrectCells := None;
          done := true; status := Some successType_ |})
  | _ =>
      (finish s Status.fail,
       {| result := Result.submitted;
          message := "Puzzle incomplete or incorrect. "
                     +:+ pretty (length incorrect)
                     +:+ " cell(s) are wrong or empty.";
          wrongCells := None; newlyWrongCells := None;
          success := Some false; successType := None;
          incorrectCells := Some incorrect;
          done := true; status := Some Status.fail |})
  end.

Definition handleGiveUp (s : CrosswordEnvState)
  : CrosswordEnvState * CrosswordFeedback :=
  (finish s Status.gave_up,
   {| result := Result.gave_up; message := "You gave up. Game over.";
      wrongCells := None; newlyWrongCells := None;
      success := None; successType := None; incorrectCells := None;
      done := true; status := Some Status.gave_up |}).

Record ClueObservation := {
  co_number : Z;
  co_clue : string;
  co_length : Z;
  co_currentFill : string;
}.

Record CrosswordObservation := {
  obs_puzzleId : string;
  obs_stateVersion : nat;
  obs_width : nat;
  obs_height : nat;
  obs_fillGrid : JsArray.t;
  obs_checkedWrongCells : list nat;
  obs_revealedCells : list nat;
  obs_across : list ClueObservation;
  obs_down : list ClueObservation;
  obs_history : list CrosswordHistoryEntry;
  obs_allowedActions : list string;
}.

(** [clue.cells.map((i) => fillGrid[i])] joined without separator;
    [join] prints an [undefined] element as the empty string. *)
Definition currentFill (g : JsArray.t) (c : CrosswordClue) : string :=
  foldr (λ i acc, default EmptyString (JsArray.get g i) +:+ acc)
        EmptyString (cells c).

Definition observeClue (g : JsArray.t) (c : CrosswordClue) : ClueObservation :=
  {| co_number := number c; co_clue := clue c; co_length := clue_length c;
     co_currentFill := currentFill g c |}.

Definition getObservation (s : CrosswordEnvState) : CrosswordObservation :=
  {| obs_puzzleId := puzzle_id (puzzle s);
     obs_stateVersion := stateVersion s;
     obs_width := width (puzzle s);
     obs_height := height (puzzle s);
     obs_fillGrid := fillGrid s;
     obs_checkedWrongCells := checkedWrongCells s;
     obs_revealedCells := revealedCells s;
     obs_across := observeClue (fillGrid s) <$> clues_across (puzzle s);
     obs_down := observeClue (fillGrid s) <$> clues_down (puzzle s);
     obs_history := history s;
     obs_allowedActions :=
       (["fill_entry"; "clear_entry"; "submit_puzzle"; "give_up"]
        ++ (if allowChecks (config s) then ["check_entry"] else []))%list |}.

Definition recordHistory (s : CrosswordEnvState) (a : CrosswordAction)
           (fb : CrosswordFeedback) : CrosswordEnvState :=
  {| puzzle := puzzle s; config := config s;
     fillGrid := fillGrid s; checkedWrongCells := checkedWrongCells s;
     revealedCells := revealedCells s;
     history := (history s ++ [{| stepIndex := length (history s);
                                  action := a; feedback := fb |}])%list;
     stateVersion := S (stateVersion s); st_done := st_done s;
     st_status := st_status s; checksPerformed := checksPerformed s |}.

Definition step (env : Env) (a : CrosswordAction)
  : Env * StepOutcome CrosswordObservation CrosswordFeedback :=
  match state env with
  | None => (env, Threw "Environment not initialized. Call reset() first.")
  | Some s =>
      if st_done s then (env, Threw "Game is already finished.")
      else
        let '(s1, fb) :=
          match a with
          | fill_entry d n answer => handleFillEntry (clueMap env) s d n answer
          | clear_entry d n => handleClearEntry (clueMap env) s d n
          | check_entry d n => handleCheckEntry (clueMap env) s d n
          | submit_puzzle => handleSubmitPuzzle s
          | giveUp => handleGiveUp s
          | other_action _ => (s, invalid "Unknown action type.")
          end in
        let s2 := recordHistory s1 a fb in
        ({| state := Some s2; clueMap := clueMap env |},
         Returned (getObservation s2) fb)
  end.

Definition isDone (env : Env) : bool :=
  match state env with Some s => st_done s | None => false end.

Definition getStatus (env : Env) : Status.t :=
  match state env with Some s => st_status s | None => Status.in_progress end.

(** A 2x2 grid with one block:
<<
      C A
      # T
>>
    1-across CA (cells 0,1) and 2-down AT (cells 1,3). *)
Definition miniPuzzle : CrosswordPuzzle :=
  {| puzzle_id := "xword-mini";
     width := 2; height := 2;
     grid := ["."; "."; "#"; "."];
     clues_across :=
       [{| number := 1; clue := "Taxi, for short"; clue_length := 2; cells := [0; 1] |}];
     clues_down :=
       [{| number := 2; clue := "Located"; clue_length := 2; cells := [1; 3] |}];
     solution_grid := ["C"; "A"; "#"; "T"] |}.

Definition miniStart : Env := reset miniPuzzle defaultConfig.

End CrosswordEnv.

(* ===================================================================== *)
(** ** runSingleEvaluation (runner.ts and the per-model worker)

    The two runners share the step loop line for line; the worker only adds
    event emission, which matters to the loop where a listener throws
    (see [EscapePoint]).  The loop is embedded once, over the interface
    the two environment classes have in common. *)
(* ===================================================================== *)

Module Runner.

(** What the loop calls on [env] after the cast chosen by [task]. *)
Class Environment (E A O F : Type) := {
  env_step : E → A → E * StepOutcome O F;
  env_isDone : E → bool;
  (** [getStatus()], as the string it is at run time *)
  env_getStatus : E → string;
  (** [(result.feedback as any).result] *)
  fb_result : F → string;
}.

#[export] Instance connections_environment :
  Environment ConnectionsEnv.Env ConnectionsEnv.ConnectionsAction
              ConnectionsEnv.ConnectionsObservation
              ConnectionsEnv.ConnectionsFeedback :=
  {| env_step := ConnectionsEnv.step;
     env_isDone := ConnectionsEnv.isDone;
     env_getStatus := λ e, ConnectionsEnv.Status.tag (ConnectionsEnv.getStatus e);
     fb_result := λ fb, ConnectionsEnv.Result.tag (ConnectionsEnv.result fb) |}.

#[export] Instance crossword_environment :
  Environment CrosswordEnv.Env CrosswordEnv.CrosswordAction
              CrosswordEnv.CrosswordObservation
              CrosswordEnv.CrosswordFeedback :=
  {| env_step := CrosswordEnv.step;
     env_isDone := CrosswordEnv.isDone;
     env_getStatus := λ e, CrosswordEnv.Status.tag (CrosswordEnv.getStatus e);
     fb_result := λ fb, CrosswordEnv.Result.tag (CrosswordEnv.result fb) |}.

(** [RunStatusSchema] of schemas/config.ts *)
Inductive RunStatus :=
  success_clean | success_with_reveals | success | fail | timeout | error.

Definition status_tag (s : RunStatus) : string :=
  match s with
  | success_clean => "success_clean"
  | success_with_reveals => "success_with_reveals"
  | success => "success"
  | fail => "fail"
  | timeout => "timeout"
  | error => "error"
  end.

(** The fields of [SuiteConfig] the loop reads. *)
Record SuiteConfig := {
  maxSteps : nat;
  runTimeoutMs : Z;
  maxInvalidActions : Z;
  allowChecks : bool;
  allowReveals : bool;
}.

(** One awaited model call followed by [JSON.parse] and the schema's
    [parse]: the call rejected, the content did not parse, or an action. *)
Inductive AgentReply (A : Type) :=
| ApiError (apiError : string)
| Unparsable (parseError : string)
| Parsed (a : A).
Arguments ApiError {A} apiError.
Arguments Unparsable {A} parseError.
Arguments Parsed {A} a.

(** Where an exception can leave an iteration outside the two inner
    [try] blocks: before the model is called (the listener of the
    [step_start] event, message building), or after the call and the
    parse of its reply and before the environment is stepped (the
    listener of the [step_complete] event, which the per-model worker
    emits; runner.ts emits nothing there). *)
Inductive EscapePoint := BeforeCall | AfterCall.

(** Everything outside the loop that it reads.
    - [elapsedAtStep i] is [Date.now() - runStartTime] at the head of
      iteration [i], [elapsedAfterLoop] the same after the loop;
    - [agent i obs] is the reply to the request built from [obs] at step [i];
    - [escapes i]: an exception leaves iteration [i] outside the two inner
      [try] blocks, and [escapePoint i] says where it is thrown. *)
Record World (A O : Type) := {
  elapsedAtStep : nat → Z;
  elapsedAfterLoop : Z;
  agent : nat → O → AgentReply A;
  escapes : nat → bool;
  escapePoint : nat → EscapePoint;
}.
Arguments elapsedAtStep {A O} _ _.
Arguments elapsedAfterLoop {A O} _.
Arguments agent {A O} _ _ _.
Arguments escapes {A O} _ _.
Arguments escapePoint {A O} _ _.

Record StepRecord (A O F : Type) := {
  stepIndex : nat;
  rec_observation : O;
  parsedAction : option A;
  envFeedback : option F;
  rec_error : option string;
}.
Arguments stepIndex {A O F} _.
Arguments rec_observation {A O F} _.
Arguments parsedAction {A O F} _.
Arguments envFeedback {A O F} _.
Arguments rec_error {A O F} _.

(** The variables of [runSingleEvaluation] that the loop updates. *)
Record LoopState (E A O F : Type) := {
  status : RunStatus;
  invalidActions : Z;
  steps : list (StepRecord A O F);
  env : E;
  observation : O;
}.
Arguments status {E A O F} _.
Arguments invalidActions {E A O F} _.
Arguments steps {E A O F} _.
Arguments env {E A O F} _.
Arguments observation {E A O F} _.

(** How an iteration ends: it falls through to the next one, it [break]s,
    or an exception reaches the outer [catch]. *)
Inductive Flow := Next | Break | Caught.

Record RunSummary (E : Type) := {
  sum_status : RunStatus;
  stepsTaken : nat;
  sum_invalidActions : Z;
  finalEnv : E;
}.
Arguments sum_status {E} _.
Arguments stepsTaken {E} _.
Arguments sum_invalidActions {E} _.
Arguments finalEnv {E} _.

(** The [if (isDone) { ... }] cascade on [envStatus]. *)
Definition mapEnvStatus (envStatus : string) (current : RunStatus) : RunStatus :=
  if String.eqb envStatus "success" then success
  else if String.eqb envStatus "success_clean" then success_clean
  else if String.eqb envStatus "success_with_reveals" then success_with_reveals
  else if String.eqb envStatus "fail" || String.eqb envStatus "gave_up" then fail
  else current.

Definition thrownBeforeCall (p : EscapePoint) : bool :=
  match p with BeforeCall => true | AfterCall => false end.

Section Loop.
Context {E A O F : Type} `{!Environment E A O F}.

Definition setStatus (st : LoopState E A O F) (s : RunStatus) : LoopState E A O F :=
  {| status := s; invalidActions := invalidActions st; steps := steps st;
     env := env st; observation := observation st |}.

(** From [steps.push(stepRecord)] to the end of the iteration. *)
Definition recordAndCheckDone (stepIndex : nat) (st : LoopState E A O F)
           (parsedAction : option A) (envFeedback : option F)
           (error : option string) : LoopState E A O F * Flow :=
  let st1 :=
    {| status := status st; invalidActions := invalidActions st;
       steps := (steps st ++ [{| stepIndex := stepIndex;
                                 rec_observation := observation st;
                                 parsedAction := parsedAction;
                                 envFeedback := envFeedback;
                                 rec_error := error |}])%list;
       env := env st; observation := observation st |} in
  if env_isDone (env st1)
  then (setStatus st1 (mapEnvStatus (env_getStatus (env st1)) (status st1)), Break)
  else (st1, Next).

(** One iteration of the main step loop. *)
Definition stepBody (cfg : SuiteConfig) (w : World A O) (stepIndex : nat)
           (st : LoopState E A O F) : LoopState E A O F * Flow :=
  if (elapsedAtStep w stepIndex >? runTimeoutMs cfg)%Z then
    (setStatus st timeout, Break)
  else if escapes w stepIndex && thrownBeforeCall (escapePoint w stepIndex)
  then (st, Caught)
  else
    (* from here on an exception that escapes is thrown at [step_complete] *)
    match agent w stepIndex (observation st) with
    | ApiError apiError =>
        if escapes w stepIndex then (st, Caught)
        else
        recordAndCheckDone stepIndex st None None
                           (Some ("API error: " +:+ apiError))
    | Unparsable parseError =>
        let counted :=
          {| status := status st; invalidActions := (invalidActions st + 1)%Z;
             steps := steps st; env := env st; observation := observation st |} in
        if escapes w stepIndex then (counted, Caught)
        else
        recordAndCheckDone stepIndex counted
          None None (Some ("Failed to parse action: " +:+ parseError))
    | Parsed a =>
        if escapes w stepIndex then (st, Caught)
        else
        match env_step (env st) a with
        | (env', Returned obs fb) =>
            if String.eqb (fb_result fb) "invalid_action" then
              let invalidActions' := (invalidActions st + 1)%Z in
              if (invalidActions' >=? maxInvalidActions cfg)%Z then
                ({| status := fail; invalidActions := invalidActions';
                    steps := steps st; env := env'; observation := obs |},
                 Break)
              else
                recordAndCheckDone stepIndex
                  {| status := status st; invalidActions := invalidActions';
                     steps := steps st; env := env'; observation := obs |}
                  (Some a) (Some fb) None
            else
              recordAndCheckDone stepIndex
                {| status := status st; invalidActions := invalidActions st;
                   steps := steps st; env := env'; observation := obs |}
                (Some a) (Some fb) None
        | (env', Threw envError) =>
            recordAndCheckDone stepIndex
              {| status := status st; invalidActions := (invalidActions st + 1)%Z;
                 steps := steps st; env := env'; observation := observation st |}
              (Some a) None (Some ("Environment error: " +:+ envError))
        end
    end.

(** [for (let stepIndex = ...; stepIndex < maxSteps; stepIndex++)] with
    [todo = maxSteps - stepIndex] iterations left. *)
Fixpoint loop (cfg : SuiteConfig) (w : World A O) (todo stepIndex : nat)
         (st : LoopState E A O F) : LoopState E A O F * Flow :=
  match todo with
  | 0%nat => (st, Next)
  | S todo' =>
      match stepBody cfg w stepIndex st with
      | (st', Next) => loop cfg w todo' (S stepIndex) st'
      | stop => stop
      end
  end.

Definition initialState (env0 : E) (obs0 : O) : LoopState E A O F :=
  {| status := error; invalidActions := 0; steps := [];
     env := env0; observation := obs0 |}.

(** The [try { loop; timeout check } catch { status = "error" }] block
    and the summary built after it; [env0] is the freshly reset
    environment and [obs0] its first observation. *)
Definition runSingleEvaluation (cfg : SuiteConfig) (w : World A O)
           (env0 : E) (obs0 : O) : RunSummary E :=
  let '(st, flow) := loop cfg w (maxSteps cfg) 0 (initialState env0 obs0) in
  let status' :=
    match flow with
    | Caught => error
    | _ =>
        match status st with
        | error =>
            if (elapsedAfterLoop w >? runTimeoutMs cfg)%Z then timeout else error
        | s => s
        end
    end in
  {| sum_status := status'; stepsTaken := length (steps st);
     sum_invalidActions := invalidActions st; finalEnv := env st |}.

End Loop.

(** [task === "connections"]: a new [ConnectionsEnv], reset on the puzzle. *)
Definition runConnections (cfg : SuiteConfig)
           (w : World ConnectionsEnv.ConnectionsAction
                      ConnectionsEnv.ConnectionsObservation)
           (p : ConnectionsEnv.ConnectionsPuzzle) (shuffledWords : list string)
  : RunSummary ConnectionsEnv.Env :=
  let s0 := ConnectionsEnv.reset p shuffledWords in
  runSingleEvaluation cfg w (Some s0) (ConnectionsEnv.getObservation s0).

(** [task === "crossword"]: a new [CrosswordEnv], reset with the suite's
    [crosswordRules]. *)
Definition runCrossword (cfg : SuiteConfig)
           (w : World CrosswordEnv.CrosswordAction
                      CrosswordEnv.CrosswordObservation)
           (p : CrosswordEnv.CrosswordPuzzle)
  : RunSummary CrosswordEnv.Env :=
  let rules := {| CrosswordEnv.allowChecks := allowChecks cfg;
                  CrosswordEnv.allowReveals := allowReveals cfg |} in
  runSingleEvaluation cfg w (CrosswordEnv.reset p rules)
                      (CrosswordEnv.getObservation (CrosswordEnv.freshState p rules)).

End Runner.

(* ===================================================================== *)
(** ** getMetrics of CrosswordEnv.ts *)
(* ===================================================================== *)

(** [getMetrics] of CrosswordEnv.ts.  The three counters of its loop are
    embedded; [percentCorrectFilled] is computed from two of them in
    floating point (0 when [filledCount] is 0, otherwise
    [correctCount / filledCount * 100] rounded to two decimals) and is
    represented by the counters it is computed from. *)
Module CrosswordMetrics.
Import CrosswordEnv.

Record Counts := {
  correctCount : nat;
  filledCount : nat;
  fillableCount : nat;
}.

(** The loop [for (let i = 0; i < fillGrid.length; i++)]: [todo]
    iterations are left, the next index is [i]. *)
Fixpoint countLoop (todo i : nat) (g : JsArray.t) (sol : list string)
         (c : Counts) : Counts :=
  match todo with
  | 0%nat => c
  | S todo' =>
      if bool_decide (sol !! i = Some "#")
      then countLoop todo' (S i) g sol c
      else
        let fillable := S (fillableCount c) in
        if bool_decide (JsArray.get g i ≠ Some ".")
        then
          let filled := S (filledCount c) in
          if bool_decide (JsArray.get g i = sol !! i)
          then countLoop todo' (S i) g sol
                         {| correctCount := S (correctCount c);
                            filledCount := filled; fillableCount := fillable |}
          else countLoop todo' (S i) g sol
                         {| correctCount := correctCount c;
                            filledCount := filled; fillableCount := fillable |}
        else countLoop todo' (S i) g sol
                       {| correctCount := correctCount c;
                          filledCount := filledCount c;
                          fillableCount := fillable |}
  end.

Record Metrics := {
  checkedCount : nat;
  percentCounts : Counts;
  revealedCount : nat;
}.

Definition noCounts : Counts :=
  {| correctCount := 0; filledCount := 0; fillableCount := 0 |}.

Definition getMetrics (env : Env) : Metrics :=
  match state env with
  | None => {| checkedCount := 0; percentCounts := noCounts; revealedCount := 0 |}
  | Some s =>
      {| checkedCount := checksPerformed s;
         percentCounts := countLoop (length (fillGrid s)) 0 (fillGrid s)
                                    (solution_grid (puzzle s)) noCounts;
         revealedCount := JsSet.size (revealedCells s) |}
  end.

End CrosswordMetrics.

(* ===================================================================== *)
(** ** The usage totals of [runSingleEvaluation]

    [totalPromptTokens], [totalCompletionTokens] and [totalCost] are
    updated once per iteration from [response.usage], right after the
    model call.  Token counts are integers; a cost is a floating-point
    number, kept abstract here with its addition. *)
Module Usage.
Section Totals.
Context {num : Type} (zero : num) (add : num → num → num).

(** [OpenRouterUsage]; [cost] is [number | null]. *)
Record OpenRouterUsage := {
  promptTokens : Z;
  completionTokens : Z;
  totalTokens : Z;
  cost : option num;
}.

Record Totals := {
  totalPromptTokens : Z;
  totalCompletionTokens : Z;
  totalCost : option num;
}.

(** [let totalPromptTokens = 0; let totalCompletionTokens = 0;
     let totalCost: number | null = 0] *)
Definition initialTotals : Totals :=
  {| totalPromptTokens := 0; totalCompletionTokens := 0;
     totalCost := Some zero |}.

(** The [if (response.usage) { ... }] block of one iteration;
    [usage] is [None] for a response without usage (an API error). *)
Definition track (t : Totals) (usage : option OpenRouterUsage) : Totals :=
  match usage with
  | None => t
  | Some u =>
      {| totalPromptTokens := (totalPromptTokens t + promptTokens u)%Z;
         totalCompletionTokens :=
           (totalCompletionTokens t + completionTokens u)%Z;
         totalCost :=
           match cost u, totalCost t with
           | Some stepCost, Some total => Some (add total stepCost)
           | _, _ => None
           end |}
  end.

(** The totals after the iterations whose responses carried [usages]. *)
Definition trackAll (usages : list (option OpenRouterUsage)) : Totals :=
  foldl track initialTotals usages.

(** [usage.totalTokens] of the summary. *)
Definition summaryTotalTokens (t : Totals) : Z :=
  (totalPromptTokens t + totalCompletionTokens t)%Z.

End Totals.
Arguments OpenRouterUsage num : clear implicits.
Arguments Totals num : clear implicits.
End Usage.

(* ===================================================================== *)
(** ** The retry loop of the OpenRouter client (client/openrouter.ts) *)
(* ===================================================================== *)

Module OpenRouterClient.

(** What a call can throw: an [OpenRouterError] with its status code, or
    anything else. *)
Inductive Thrown :=
| OpenRouterError (message : string) (statusCode : Z)
| OtherError (message : string).

(** [static isRetryableError(error)] *)
Definition isRetryableError (error : Thrown) : bool :=
  match error with
  | OpenRouterError _ statusCode =>
      (statusCode =? 429)%Z || (statusCode =? 408)%Z
      || ((statusCode >=? 500)%Z && (statusCode <? 600)%Z)
  | OtherError _ => false
  end.

(** How [chatCompletionWithRetry] ends, and the calls of [chatCompletion]
    it made. *)
Inductive Ended (R : Type) :=
| Resolved (result : R)
| Rejected (error : Thrown).
Arguments Resolved {R} result.
Arguments Rejected {R} error.

Section Retry.
Context {R : Type}.

(** [chatCompletion attempt]: what the call made at [attempt] does. *)
Variable chatCompletion : nat → Ended R.

(** [for (let attempt = ...; attempt <= maxRetries; attempt++)] with
    [todo] iterations left; the sleep between two attempts changes
    nothing that is returned. *)
Fixpoint retryLoop (maxRetries : Z) (todo attempt : nat)
         (lastError : option Thrown) : Ended R * nat :=
  match todo with
  | 0%nat =>
      (Rejected (default (OtherError "Max retries exceeded") lastError),
       attempt)
  | S todo' =>
      match chatCompletion attempt with
      | Resolved result => (Resolved result, S attempt)
      | Rejected error =>
          if negb (isRetryableError error) || (Z.of_nat attempt =? maxRetries)%Z
          then (Rejected error, S attempt)
          else retryLoop maxRetries todo' (S attempt) (Some error)
      end
  end.

(** The outcome and the number of calls of [chatCompletion] made. *)
Definition chatCompletionWithRetry (maxRetries : Z) : Ended R * nat :=
  retryLoop maxRetries (Z.to_nat (maxRetries + 1)) 0 None.

End Retry.
End OpenRouterClient.

(* ===================================================================== *)
(** ** The normalization script of the Connections data *)
(* ===================================================================== *)

(** [normalizeConnectionsPuzzle] of the normalization script, [LEVEL_MAP]
    and the array bounds of [ConnectionsPuzzleSchema] (schemas/puzzles).
    Of the normalized puzzle, the fields the environment reads are kept
    ([id], [words], [groups]). *)
Module NormalizeConnections.
Import ConnectionsEnv.

(** One entry of [answers] in the raw data. *)
Record RawAnswer := {
  raw_level : Z;
  raw_group : string;
  members : list string;
}.

Record RawConnectionsPuzzle := {
  raw_id : Z;
  raw_date : string;
  answers : list RawAnswer;
}.

(** [LEVEL_MAP[level]], [undefined] outside 0..3 *)
Definition LEVEL_MAP (n : Z) : option Level :=
  if (n =? 0)%Z then Some yellow
  else if (n =? 1)%Z then Some green
  else if (n =? 2)%Z then Some blue
  else if (n =? 3)%Z then Some purple
  else None.

(** The callback of [raw.answers.map]: it pushes the members on [words]
    and returns the group. *)
Definition answerToGroup (wordsSoFar : list string) (answer : RawAnswer)
  : list string * ConnectionsGroup :=
  ((wordsSoFar ++ members answer)%list,
   {| level := default yellow (LEVEL_MAP (raw_level answer));
      category := raw_group answer;
      words := members answer |}).

Fixpoint normalizeAnswers (wordsSoFar : list string) (rest : list RawAnswer)
  : list string * list ConnectionsGroup :=
  match rest with
  | [] => (wordsSoFar, [])
  | answer :: rest' =>
      let '(words1, group) := answerToGroup wordsSoFar answer in
      let '(words2, groups) := normalizeAnswers words1 rest' in
      (words2, group :: groups)
  end.

Definition normalizeConnectionsPuzzle (raw : RawConnectionsPuzzle)
  : ConnectionsPuzzle :=
  let '(words, groups) := normalizeAnswers [] (answers raw) in
  {| puzzle_id := "connections-" +:+ raw_date raw;
     puzzle_words := words;
     groups := groups |}.

(** [words: z.array(z.string()).min(4).max(4)] of [ConnectionsGroupSchema];
    [words: ...min(16).max(16)] and [groups: ...min(4).max(4)] of
    [ConnectionsPuzzleSchema]. *)
Definition schemaBounds (p : ConnectionsPuzzle) : bool :=
  (length (puzzle_words p) =? 16)%nat
  && (length (groups p) =? 4)%nat
  && forallb (λ g, (length (words g) =? 4)%nat) (groups p).

(** The raw form of the puzzle of the test file. *)
Definition sampleRaw : RawConnectionsPuzzle :=
  {| raw_id := 1; raw_date := "2023-06-12";
     answers :=
       [ {| raw_level := 0; raw_group := "WET WEATHER";
            members := ["HAIL"; "RAIN"; "SLEET"; "SNOW"] |};
         {| raw_level := 1; raw_group := "NBA TEAMS";
            members := ["BUCKS"; "HEAT"; "JAZZ"; "NETS"] |};
         {| raw_level := 2; raw_group := "KEYBOARD KEYS";
            members := ["OPTION"; "RETURN"; "SHIFT"; "TAB"] |};
         {| raw_level := 3; raw_group := "PALINDROMES";
            members := ["KAYAK"; "LEVEL"; "MOM"; "RACECAR"] |} ] |}.

End NormalizeConnections.

(* ===================================================================== *)
(** * Vocabulary of the statements *)
(* ===================================================================== *)

(** Feeding a list of actions to a [step] function, one call after the
    other, and collecting what each call produced. *)
Fixpoint runActions {E A R : Type} (step : E → A → E * R) (env : E) (acts : list A)
  : E * list R :=
  match acts with
  | [] => (env, [])
  | a :: rest =>
      let '(env1, r) := step env a in
      let '(env2, rs) := runActions step env1 rest in
      (env2, r :: rs)
  end.

Module ConnectionsSpec.
Import JsString ConnectionsEnv.

#[export] Instance Level_eq_dec : EqDecision Level.
Proof. solve_decision. Defined.

#[export] Instance ConnectionsGroup_eq_dec : EqDecision ConnectionsGroup.
Proof. solve_decision. Defined.

(** Exactly 4 words, pairwise distinct and all remaining, once
    normalized. *)
Definition validSubmission (s : ConnectionsEnvState) (submitted : list string)
  : Prop :=
  length submitted = 4%nat
  ∧ NoDup (normalize <$> submitted)
  ∧ ∀ w, w ∈ normalize <$> submitted → w ∈ normalize <$> remainingWords s.

(** The submitted words are the words of [g], in some order and up to
    case and surrounding blanks. *)
Definition coincidesWith (submitted : list string) (g : ConnectionsGroup) : Prop :=
  (normalize <$> submitted) ≡ₚ normalizedGroup g.

(** Exactly three of the four normalized words are words of [g]. *)
Definition exactlyThreeOf (submitted : list string) (g : ConnectionsGroup) : Prop :=
  ∃ a b c d, (normalize <$> submitted) ≡ₚ [a; b; c; d]
             ∧ a ∈ normalizedGroup g ∧ b ∈ normalizedGroup g
             ∧ c ∈ normalizedGroup g ∧ d ∉ normalizedGroup g.

(** The three ways [handleSubmitGroup s submitted] can go, with what each
    leaves in the state and in the feedback. *)
Inductive SubmitCase (s : ConnectionsEnvState) (submitted : list string)
  : ConnectionsEnvState → ConnectionsFeedback → Prop :=
| submit_invalid (msg : string) :
    ¬ validSubmission s submitted →
    SubmitCase s submitted s (invalid msg)
| submit_correct (g : ConnectionsGroup) (s' : ConnectionsEnvState)
                 (fb : ConnectionsFeedback) :
    validSubmission s submitted →
    findMatchingGroup (normalize <$> submitted) (groups (puzzle s)) = Some g →
    result fb = Result.correct →
    foundGroup fb = Some g →
    oneAway fb = None →
    done fb = (length (foundGroups s) + 1 =? 4)%nat →
    status fb = (if done fb then Some Status.success else None) →
    puzzle s' = puzzle s →
    foundGroups s' = (foundGroups s ++ [g])%list →
    remainingWords s' =
      filter (λ w, normalize w ∉ normalizedGroup g) (remainingWords s) →
    mistakesLeft s' = mistakesLeft s →
    history s' = history s →
    stateVersion s' = stateVersion s →
    st_done s' = (if done fb then true else st_done s) →
    st_status s' = (if done fb then Status.success else st_status s) →
    SubmitCase s submitted s' fb
| submit_incorrect (s' : ConnectionsEnvState) (fb : ConnectionsFeedback) :
    validSubmission s submitted →
    findMatchingGroup (normalize <$> submitted) (groups (puzzle s)) = None →
    result fb = Result.incorrect →
    foundGroup fb = None →
    oneAway fb = Some (computeOneAway (foundGroups s) (normalize <$> submitted)
                                      (groups (puzzle s))) →
    done fb = (mistakesLeft s - 1 <=? 0)%Z →
    status fb = (if done fb then Some Status.fail else None) →
    puzzle s' = puzzle s →
    foundGroups s' = foundGroups s →
    remainingWords s' = remainingWords s →
    mistakesLeft s' = (mistakesLeft s - 1)%Z →
    history s' = history s →
    stateVersion s' = stateVersion s →
    st_done s' = (if done fb then true else st_done s) →
    st_status s' = (if done fb then Status.fail else st_status s) →
    SubmitCase s submitted s' fb.

(** A puzzle whose first two groups carry the same category label. *)
Definition twinLabelPuzzle : ConnectionsPuzzle :=
  {| puzzle_id := "connections-twin-label";
     puzzle_words :=
       ["CAT"; "DOG"; "COW"; "PIG"; "BAT"; "EEL"; "FOX"; "OWL";
        "RED"; "BLUE"; "PINK"; "GRAY"; "SAW"; "AXE"; "FILE"; "RAKE"];
     groups :=
       [ {| level := yellow; category := "ANIMALS";
            words := ["CAT"; "DOG"; "COW"; "PIG"] |};
         {| level := green; category := "ANIMALS";
            words := ["BAT"; "EEL"; "FOX"; "OWL"] |};
         {| level := blue; category := "COLORS";
            words := ["RED"; "BLUE"; "PINK"; "GRAY"] |};
         {| level := purple; category := "TOOLS";
            words := ["SAW"; "AXE"; "FILE"; "RAKE"] |} ] |}.

(** The state after the first group of [twinLabelPuzzle] was accepted. *)
Definition twinLabelAfterFirst : ConnectionsEnvState :=
  (handleSubmitGroup (reset twinLabelPuzzle (puzzle_words twinLabelPuzzle))
                     ["CAT"; "DOG"; "COW"; "PIG"]).1.

(** What ties the state to the number [k] of [incorrect] answers given
    since [reset]. *)
Definition mistakesInvariant (s : ConnectionsEnvState) (k : nat) : Prop :=
  mistakesLeft s = (4 - Z.of_nat k)%Z
  ∧ (k ≤ 4)%nat
  ∧ (k = 4%nat → st_done s = true ∧ st_status s = Status.fail)
  ∧ (st_done s = false → (k < 4)%nat).

Definition isIncorrect
           (o : StepOutcome ConnectionsObservation ConnectionsFeedback) : bool :=
  match o with
  | Returned _ fb =>
      match result fb with Result.incorrect => true | _ => false end
  | Threw _ => false
  end.

(** The number of submissions answered [incorrect] in a list of outcomes. *)
Definition incorrectCount
           (os : list (StepOutcome ConnectionsObservation ConnectionsFeedback))
  : nat :=
  length (List.filter isIncorrect os).

End ConnectionsSpec.

Module CrosswordSpec.
Import JsString CrosswordEnv.

(** The cell at [i] is not a block of the solution and its fill differs
    from the solution. *)
Definition mismatchAt (g : JsArray.t) (sol : list string) (i : nat) : Prop :=
  sol !! i ≠ Some "#" ∧ JsArray.get g i ≠ sol !! i.

#[export] Instance mismatchAt_dec g sol i : Decision (mismatchAt g sol i).
Proof. unfold mismatchAt. apply _. Defined.

(** The indices of the mismatched cells of the fill grid, in increasing
    order. *)
Definition mismatchedCells (g : JsArray.t) (sol : list string) : list nat :=
  filter (mismatchAt g sol) (seq 0 (length g)).

(** The fill of cell [i] differs from the solution. *)
Definition wrongAt (g : JsArray.t) (sol : list string) (i : nat) : Prop :=
  JsArray.get g i ≠ sol !! i.

#[export] Instance wrongAt_dec g sol i : Decision (wrongAt g sol i).
Proof. unfold wrongAt. apply _. Defined.

(** When [check_entry] is refused: checks are off, the clue is unknown,
    or a cell of the entry is still ["."]. *)
Definition checkRejected (m : gmap string CrosswordClue) (s : CrosswordEnvState)
           (d : Direction) (n : Z) : Prop :=
  allowChecks (config s) = false
  ∨ m !! clueKey d n = None
  ∨ ∃ c, m !! clueKey d n = Some c
         ∧ ∃ i, i ∈ cells c ∧ JsArray.get (fillGrid s) i = Some ".".

(** The same state over a puzzle with another solution grid. *)
Definition withSolution (s : CrosswordEnvState) (sol : list string)
  : CrosswordEnvState :=
  {| puzzle :=
       {| puzzle_id := puzzle_id (puzzle s); width := width (puzzle s);
          height := height (puzzle s); grid := grid (puzzle s);
          clues_across := clues_across (puzzle s);
          clues_down := clues_down (puzzle s);
          solution_grid := sol |};
     config := config s; fillGrid := fillGrid s;
     checkedWrongCells := checkedWrongCells s;
     revealedCells := revealedCells s; history := history s;
     stateVersion := stateVersion s; st_done := st_done s;
     st_status := st_status s; checksPerformed := checksPerformed s |}.

(** When [fill_entry] is refused: the clue is unknown, or the letters
    kept from the answer are not as many as the entry is long, or no
    letter is kept at all. *)
Definition fillRejected (m : gmap string CrosswordClue)
           (d : Direction) (n : Z) (answer : string) : Prop :=
  m !! clueKey d n = None
  ∨ ∃ c, m !! clueKey d n = Some c
         ∧ (Z.of_nat (String.length (normalizeAnswer answer)) ≠ clue_length c
            ∨ normalizeAnswer answer = EmptyString).

Fixpoint allLetters (s : string) : bool :=
  match s with
  | EmptyString => true
  | String c r => (isUpper c || isLower c) && allLetters r
  end.

(** [s'] differs from [s] at most in the grid and in the known-wrong
    set. *)
Definition sameButGridAndMarks (s s' : CrosswordEnvState) : Prop :=
  puzzle s' = puzzle s ∧ config s' = config s
  ∧ revealedCells s' = revealedCells s ∧ history s' = history s
  ∧ stateVersion s' = stateVersion s ∧ st_done s' = st_done s
  ∧ st_status s' = st_status s ∧ checksPerformed s' = checksPerformed s.

#[export] Instance Direction_eq_dec : EqDecision Direction.
Proof. solve_decision. Defined.

Definition cluesOf (d : Direction) (p : CrosswordPuzzle) : list CrosswordClue :=
  match d with across => clues_across p | down => clues_down p end.

(** The clue of the puzzle for (direction, number): the last one listed
    under that number, as a later [Map.set] replaces an earlier one. *)
Definition findClue (d : Direction) (n : Z) (p : CrosswordPuzzle)
  : option CrosswordClue :=
  last (filter (λ c, number c = n) (cluesOf d p)).

(** The state of [miniPuzzle] right after [reset]. *)
Definition miniState : CrosswordEnvState :=
  {| puzzle := miniPuzzle; config := defaultConfig;
     fillGrid := [Some "."; Some "."; Some "#"; Some "."];
     checkedWrongCells := []; revealedCells := [];
     history := []; stateVersion := 0; st_done := false;
     st_status := Status.in_progress; checksPerformed := 0 |}.

End CrosswordSpec.

Module RunnerSpec.
Import Runner.

(** The loop variables at the head of an iteration that is entered:
    no status was set, the environment is not done, and the chosen
    invariant of the environment holds. *)
Definition ready {E A O F : Type} `{!Environment E A O F} (Inv : E → Prop)
           (st : LoopState E A O F) : Prop :=
  status st = error ∧ env_isDone (env st) = false ∧ Inv (env st).

(** How the iterations [lo .. hi - 1], started on [st0], can have ended. *)
Definition LoopPost {E A O F : Type} `{!Environment E A O F} (Inv : E → Prop)
           (cfg : SuiteConfig) (w : World A O) (lo hi : nat)
           (st0 st' : LoopState E A O F) (flow : Flow) : Prop :=
  match flow with
  | Next =>
      ready Inv st'
      ∧ length (steps st') = (length (steps st0) + (hi - lo))%nat
  | Break =>
      (status st' = timeout ∧ env_isDone (env st') = false
       ∧ ∃ i, (lo ≤ i < hi)%nat ∧ (runTimeoutMs cfg < elapsedAtStep w i)%Z)
      ∨ (status st' = fail
         ∧ (maxInvalidActions cfg ≤ invalidActions st')%Z
         ∧ ∃ e a obs fb, env_isDone e = false
                         ∧ env_step e a = (env st', Returned obs fb)
                         ∧ fb_result fb = "invalid_action")
      ∨ (env_isDone (env st') = true ∧ Inv (env st')
         ∧ status st' = mapEnvStatus (env_getStatus (env st')) error)
  | Caught =>
      env_isDone (env st') = false
      ∧ ∃ i, (lo ≤ i < hi)%nat ∧ escapes w i = true
  end.

(** The invariants of the two environments: a terminal state carries a
    terminal status. *)
Definition connectionsInv (e : ConnectionsEnv.Env) : Prop :=
  match e with
  | Some s =>
      ConnectionsEnv.st_done s = true →
      ConnectionsEnv.st_status s ≠ ConnectionsEnv.Status.in_progress
  | None => True
  end.

Definition crosswordInv (e : CrosswordEnv.Env) : Prop :=
  match CrosswordEnv.state e with
  | Some s =>
      CrosswordEnv.st_done s = true →
      CrosswordEnv.st_status s ≠ CrosswordEnv.Status.in_progress
  | None => True
  end.

(** A clock that never passes the budget and a model whose every reply
    fails to parse. *)
Definition unparsableWorld
  : World ConnectionsEnv.ConnectionsAction ConnectionsEnv.ConnectionsObservation :=
  {| elapsedAtStep := λ _, 0%Z; elapsedAfterLoop := 0%Z;
     agent := λ _ _, Unparsable "Unexpected token";
     escapes := λ _, false; escapePoint := λ _, BeforeCall |}.

(** The same clock and a model that gives up at once. *)
Definition givingUpWorld
  : World ConnectionsEnv.ConnectionsAction ConnectionsEnv.ConnectionsObservation :=
  {| elapsedAtStep := λ _, 0%Z; elapsedAfterLoop := 0%Z;
     agent := λ _ _, Parsed ConnectionsEnv.giveUp;
     escapes := λ _, false; escapePoint := λ _, BeforeCall |}.

(** The same clock and a model whose every call is rejected. *)
Definition unreachableWorld
  : World ConnectionsEnv.ConnectionsAction ConnectionsEnv.ConnectionsObservation :=
  {| elapsedAtStep := λ _, 0%Z; elapsedAfterLoop := 0%Z;
     agent := λ _ _, ApiError "fetch failed";
     escapes := λ _, false; escapePoint := λ _, BeforeCall |}.

Definition smallConfig (cap : Z) : SuiteConfig :=
  {| maxSteps := 3; runTimeoutMs := 180000; maxInvalidActions := cap;
     allowChecks := true; allowReveals := false |}.

End RunnerSpec.

(** ** Vocabulary of the further properties *)

Module ConnectionsRunSpec.
Import JsString ConnectionsEnv ConnectionsSpec.

Definition isCorrect
           (o : StepOutcome ConnectionsObservation ConnectionsFeedback) : bool :=
  match o with
  | Returned _ fb =>
      match result fb with Result.correct => true | _ => false end
  | Threw _ => false
  end.

(** The number of submissions answered [correct] in a list of outcomes. *)
Definition correctCount
           (os : list (StepOutcome ConnectionsObservation ConnectionsFeedback))
  : nat :=
  length (List.filter isCorrect os).

(** The calls that returned, each with the feedback it returned. *)
Fixpoint returnedLog (acts : list ConnectionsAction)
         (os : list (StepOutcome ConnectionsObservation ConnectionsFeedback))
  : list (ConnectionsAction * ConnectionsFeedback) :=
  match acts, os with
  | a :: acts', Returned _ fb :: os' => (a, fb) :: returnedLog acts' os'
  | _ :: acts', Threw _ :: os' => returnedLog acts' os'
  | _, _ => []
  end.

Definition logEntry (i : nat) (e : ConnectionsAction * ConnectionsFeedback)
  : ConnectionsHistoryEntry :=
  {| stepIndex := i; action := e.1; feedback := e.2 |}.

(** [w] is, once normalized, a word of a group of [found]. *)
Definition takenBy (found : list ConnectionsGroup) (w : string) : Prop :=
  Exists (λ g, normalize w ∈ normalizedGroup g) found.

#[export] Instance takenBy_dec found w : Decision (takenBy found w).
Proof. unfold takenBy. apply _. Defined.

(** What ties a state reached from [reset p shuffled] to the numbers [k] of
    [incorrect] and [c] of [correct] answers given since. *)
Definition connectionsRunInvariant (p : ConnectionsPuzzle) (shuffled : list string)
           (s : ConnectionsEnvState) (k c : nat) : Prop :=
  puzzle s = p
  ∧ mistakesLeft s = (4 - Z.of_nat k)%Z
  ∧ length (foundGroups s) = c
  ∧ (∀ g, g ∈ foundGroups s → g ∈ groups p)
  ∧ NoDup (foundGroups s)
  ∧ remainingWords s = filter (λ w, ¬ takenBy (foundGroups s) w) shuffled
  ∧ (st_status s = Status.success ↔ c = 4%nat)
  ∧ (st_status s = Status.fail ↔ k = 4%nat)
  ∧ (st_done s = true ↔ st_status s ≠ Status.in_progress)
  ∧ (st_done s = false → (c < 4)%nat ∧ (k < 4)%nat)
  ∧ (c ≤ 4)%nat ∧ (k ≤ 4)%nat.

(** A puzzle that can be played as presented: every group has four
    words, the normalized words of all the groups are pairwise distinct,
    and every word of a group is among the words presented. *)
Definition playable (p : ConnectionsPuzzle) (shuffled : list string) : Prop :=
  Forall (λ g, length (words g) = 4%nat) (groups p)
  ∧ NoDup (mjoin (normalizedGroup <$> groups p))
  ∧ Forall (λ g, Forall (λ w, w ∈ shuffled) (words g)) (groups p).

#[export] Instance playable_dec p shuffled : Decision (playable p shuffled).
Proof. unfold playable. apply _. Defined.

(** The state while the groups are being submitted one after the other,
    without a mistake. *)
Definition solving (p : ConnectionsPuzzle) (shuffled : list string)
           (s : ConnectionsEnvState) : Prop :=
  puzzle s = p
  ∧ remainingWords s = filter (λ w, ¬ takenBy (foundGroups s) w) shuffled
  ∧ mistakesLeft s = 4%Z
  ∧ (length (foundGroups s) < 4 → st_done s = false)
  ∧ (length (foundGroups s) = 4 →
     st_done s = true ∧ st_status s = Status.success).

End ConnectionsRunSpec.

Module CrosswordRunSpec.
Import JsString CrosswordEnv CrosswordSpec.

Definition isChecked
           (o : StepOutcome CrosswordObservation CrosswordFeedback) : bool :=
  match o with
  | Returned _ fb =>
      match result fb with Result.checked => true | _ => false end
  | Threw _ => false
  end.

(** The number of [check_entry] actions answered [checked] in a list of
    outcomes. *)
Definition checkedAnswers
           (os : list (StepOutcome CrosswordObservation CrosswordFeedback))
  : nat :=
  length (List.filter isChecked os).

(** What ties a state reached from [reset p cfg] to the number [n] of
    [checked] answers given since. *)
Definition crosswordRunInvariant (p : CrosswordPuzzle) (cfg : CrosswordEnvConfig)
           (s : CrosswordEnvState) (n : nat) : Prop :=
  puzzle s = p ∧ config s = cfg
  ∧ revealedCells s = []
  ∧ checksPerformed s = n
  ∧ (st_done s = true ↔ st_status s ≠ Status.in_progress)
  ∧ st_status s ≠ Status.success_with_reveals
  ∧ (st_status s = Status.success_clean ↔
       st_done s = true ∧ st_status s ≠ Status.gave_up
       ∧ mismatchedCells (fillGrid s) (solution_grid p) = [])
  ∧ (st_status s = Status.fail →
       mismatchedCells (fillGrid s) (solution_grid p) ≠ [])
  ∧ (allowChecks cfg = false → n = 0%nat).

(** The predicates the three counters of [getMetrics] count. *)
Definition fillableAt (sol : list string) (i : nat) : Prop :=
  sol !! i ≠ Some "#".

Definition filledAt (g : JsArray.t) (sol : list string) (i : nat) : Prop :=
  fillableAt sol i ∧ JsArray.get g i ≠ Some ".".

Definition correctAt (g : JsArray.t) (sol : list string) (i : nat) : Prop :=
  filledAt g sol i ∧ JsArray.get g i = sol !! i.

#[export] Instance fillableAt_dec sol i : Decision (fillableAt sol i).
Proof. unfold fillableAt. apply _. Defined.

#[export] Instance filledAt_dec g sol i : Decision (filledAt g sol i).
Proof. unfold filledAt. apply _. Defined.

#[export] Instance correctAt_dec g sol i : Decision (correctAt g sol i).
Proof. unfold correctAt. apply _. Defined.

(** What a cell of the fill grid may hold over the puzzle cell [cell]: a
    block stays a block; any other cell is empty or holds one capital
    letter. *)
Definition cellOK (cell : string) (v : option string) : Prop :=
  if String.eqb cell "#" then v = Some "#"
  else v = Some "." ∨ ∃ ch, isUpper ch = true ∧ v = Some (String ch EmptyString).

(** The clue has as many cells as its length says, and each is a cell of
    the puzzle grid that is not a block. *)
Definition wellFormedClue (p : CrosswordPuzzle) (c : CrosswordClue) : Prop :=
  Z.of_nat (length (cells c)) = clue_length c
  ∧ Forall (λ i, is_Some (grid p !! i) ∧ grid p !! i ≠ Some "#") (cells c).

Definition wellFormedClues (p : CrosswordPuzzle) : Prop :=
  Forall (wellFormedClue p) (clues_across p ++ clues_down p).

#[export] Instance wellFormedClue_dec p c : Decision (wellFormedClue p c).
Proof. unfold wellFormedClue. apply _. Defined.

#[export] Instance wellFormedClues_dec p : Decision (wellFormedClues p).
Proof. unfold wellFormedClues. apply _. Defined.

(** A puzzle whose only clue has length 2 and a single cell. *)
Definition shortCluePuzzle : CrosswordPuzzle :=
  {| puzzle_id := "xword-short-clue";
     width := 1; height := 1;
     grid := ["."];
     clues_across :=
       [{| number := 1; clue := "First letter"; clue_length := 2;
           cells := [0%nat] |}];
     clues_down := [];
     solution_grid := ["A"] |}.

End CrosswordRunSpec.

Module RunnerRunSpec.
Import Runner.


(** A clock that never passes the budget, a model whose every reply fails
    to parse, and a listener of [step_complete] that throws. *)
Definition throwingListenerWorld
  : World ConnectionsEnv.ConnectionsAction ConnectionsEnv.ConnectionsObservation :=
  {| elapsedAtStep := λ _, 0%Z; elapsedAfterLoop := 0%Z;
     agent := λ _ _, Unparsable "Unexpected token";
     escapes := λ _, true; escapePoint := λ _, AfterCall |}.

(** The environments a run can be in: those that keep the invariant of
    the states reached from [reset]. *)
Definition connectionsReached (p : ConnectionsEnv.ConnectionsPuzzle)
           (shuffled : list string) (e : ConnectionsEnv.Env) : Prop :=
  ∃ s k c, e = Some s ∧ ConnectionsRunSpec.connectionsRunInvariant p shuffled s k c.

Definition crosswordReached (p : CrosswordEnv.CrosswordPuzzle)
           (cfg : CrosswordEnv.CrosswordEnvConfig) (e : CrosswordEnv.Env) : Prop :=
  ∃ s n, CrosswordEnv.state e = Some s
         ∧ CrosswordRunSpec.crosswordRunInvariant p cfg s n.

End RunnerRunSpec.

Module UsageSpec.
Import Usage.

(** The usages that are present, in order. *)
Definition present {num : Type} (usages : list (option (OpenRouterUsage num)))
  : list (OpenRouterUsage num) :=
  omap id usages.

End UsageSpec.

Module ClientSpec.
Import OpenRouterClient.

(** The call at [attempt] settles the request: it resolved, or it threw
    an error that is not retried. *)
Definition decisive {R : Type} (o : Ended R) : Prop :=
  match o with
  | Resolved _ => True
  | Rejected error => isRetryableError error = false
  end.

#[export] Instance decisive_dec {R : Type} (o : Ended R) : Decision (decisive o).
Proof. destruct o; simpl; apply _. Defined.

(** A client whose every call is answered 503. *)
Definition alwaysUnavailable : nat → Ended string :=
  λ _, Rejected (OpenRouterError "Service Unavailable" 503).

End ClientSpec.

(* ===================================================================== *)
(** * Properties *)
(* ===================================================================== *)

Local Open Scope list_scope.
Local Open Scope nat_scope.

(** ** Lists, sets and strings *)

Section ListFacts.
Context {A : Type} `{Countable A}.

Lemma size_list_to_set_le (l : list A) :
  size (list_to_set l : gset A) ≤ length l.
Proof.
  induction l as [|x l IH].
  - rewrite list_to_set_nil, size_empty. simpl. lia.
  - rewrite list_to_set_cons. simpl length.
    destruct (decide (x ∈ l)) as [Hin|Hnin].
    + assert (({[x]} ∪ list_to_set l : gset A) = list_to_set l) as ->
        by set_solver.
      lia.
    + rewrite size_union; [|set_solver]. rewrite size_singleton. lia.
Qed.

(** [new Set(l).size === l.length] says that [l] has no repetition. *)
Lemma size_list_to_set_NoDup (l : list A) :
  size (list_to_set l : gset A) = length l ↔ NoDup l.
Proof.
  split; [|apply size_list_to_set].
  induction l as [|x l IH]; intros Hsz; [constructor|].
  rewrite list_to_set_cons in Hsz. simpl length in Hsz.
  destruct (decide (x ∈ l)) as [Hin|Hnin].
  - assert (({[x]} ∪ list_to_set l : gset A) = list_to_set l) as Heq
        by set_solver.
    rewrite Heq in Hsz. pose proof (size_list_to_set_le l). lia.
  - rewrite size_union in Hsz; [|set_solver].
    rewrite size_singleton in Hsz.
    constructor; [done|]. apply IH. lia.
Qed.

Lemma List_filter_bool_decide (P : A → Prop) `{!∀ x, Decision (P x)} (l : list A) :
  List.filter (λ x, bool_decide (P x)) l = filter P l.
Proof.
  induction l as [|x l IH]; [done|]. simpl.
  rewrite filter_cons. case_bool_decide; case_decide; by rewrite ?IH.
Qed.

Lemma length_filter_all (P : A → Prop) `{!∀ x, Decision (P x)} (l : list A) :
  length (filter P l) = length l ↔ Forall P l.
Proof.
  induction l as [|x l IH]; [by split; [constructor|]|].
  rewrite filter_cons. pose proof (length_filter P l) as Hle.
  case_decide; simpl; split.
  - intros Hl. constructor; [done|]. apply IH. lia.
  - intros Hall. inversion Hall; subst. f_equal. by apply IH.
  - intros Hl. lia.
  - intros Hall. by inversion Hall.
Qed.

End ListFacts.

Lemma runActions_cons {E A R : Type} (step : E → A → E * R) (env : E)
      (a : A) (rest : list A) :
  runActions step env (a :: rest)
  = let r := step env a in
    let rr := runActions step r.1 rest in
    (rr.1, r.2 :: rr.2).
Proof.
  simpl. destruct (step env a) as [env1 r]. simpl.
  by destruct (runActions step env1 rest).
Qed.

Module ConnectionsFacts.
Import JsString ConnectionsEnv ConnectionsSpec.

Lemma includes_spec (xs : list string) (w : string) :
  includes xs w = true ↔ w ∈ xs.
Proof. unfold includes. by rewrite bool_decide_eq_true. Qed.

Lemma matches_filter (ns : list string) (g : ConnectionsGroup) :
  matches ns g = filter (λ w, w ∈ normalizedGroup g) ns.
Proof. unfold matches, includes. apply List_filter_bool_decide. Qed.

Lemma uniqueCount_NoDup (ns : list string) :
  length ns = 4 → (uniqueCount ns = 4 ↔ NoDup ns).
Proof.
  intros Hlen. unfold uniqueCount. rewrite <- Hlen.
  apply size_list_to_set_NoDup.
Qed.

Lemma firstNotRemaining_None (nr ns : list string) :
  firstNotRemaining nr ns = None ↔ ∀ w, w ∈ ns → w ∈ nr.
Proof.
  induction ns as [|w ns IH]; simpl.
  - split; [|done]. intros _ w Hw. by apply elem_of_nil in Hw.
  - destruct (includes nr w) eqn:Hw.
    + apply includes_spec in Hw. rewrite IH. split.
      * intros Hall x [->|Hx]%elem_of_cons; auto.
      * intros Hall x Hx. apply Hall. by right.
    + split; [done|]. intros Hall.
      assert (includes nr w = true) as Hc
        by (apply includes_spec, Hall; by left).
      congruence.
Qed.

Lemma firstNotRemaining_Some (nr ns : list string) (w : string) :
  firstNotRemaining nr ns = Some w → w ∈ ns ∧ w ∉ nr.
Proof.
  induction ns as [|x ns IH]; simpl; [done|].
  destruct (includes nr x) eqn:Hx.
  - intros [? ?]%IH. split; [by right|done].
  - intros [= <-]. split; [by left|].
    intros Hin%includes_spec. congruence.
Qed.

Lemma findMatchingGroup_Some (ns : list string) (gs : list ConnectionsGroup)
      (g : ConnectionsGroup) :
  findMatchingGroup ns gs = Some g → g ∈ gs ∧ length (matches ns g) = 4.
Proof.
  induction gs as [|x gs IH]; simpl; [done|].
  destruct (Nat.eqb_spec (length (matches ns x)) 4) as [Heq|Hne].
  - intros [= <-]. split; [by left|done].
  - intros [? ?]%IH. split; [by right|done].
Qed.

Lemma findMatchingGroup_None (ns : list string) (gs : list ConnectionsGroup) :
  findMatchingGroup ns gs = None ↔ ∀ g, g ∈ gs → length (matches ns g) ≠ 4.
Proof.
  induction gs as [|x gs IH]; simpl.
  - split; [|done]. intros _ g Hg. by apply elem_of_nil in Hg.
  - destruct (Nat.eqb_spec (length (matches ns x)) 4) as [Heq|Hne].
    + split; [done|]. intros Hall. exfalso. apply (Hall x); [by left|done].
    + rewrite IH. split.
      * intros Hall g [->|Hg]%elem_of_cons; auto.
      * intros Hall g Hg. apply Hall. by right.
Qed.

(** Four matches out of four submitted words: every word is in the group. *)
Lemma matches_four (ns : list string) (g : ConnectionsGroup) :
  length ns = 4 →
  (length (matches ns g) = 4 ↔ ∀ w, w ∈ ns → w ∈ normalizedGroup g).
Proof.
  intros Hlen. rewrite matches_filter, <- Hlen, length_filter_all.
  by rewrite Forall_forall.
Qed.

(** Four distinct words inside a group of four words are the group. *)
Lemma four_in_group_Permutation (ns : list string) (g : ConnectionsGroup) :
  length ns = 4 → NoDup ns → length (words g) = 4 →
  (∀ w, w ∈ ns → w ∈ normalizedGroup g) → ns ≡ₚ normalizedGroup g.
Proof.
  intros Hlen Hnd Hg Hsub.
  apply submseteq_length_Permutation.
  - by apply NoDup_submseteq.
  - unfold normalizedGroup. rewrite length_fmap. lia.
Qed.

Lemma filter_not_includes (ng : list string) (l : list string) :
  List.filter (λ w, negb (includes ng (normalize w))) l
  = filter (λ w, normalize w ∉ ng) l.
Proof.
  induction l as [|x l IH]; [done|]. simpl. rewrite filter_cons.
  unfold includes at 1. case_bool_decide; case_decide; simpl;
    by rewrite ?IH.
Qed.

(** [handleSubmitGroup] always goes one of the three ways. *)
Lemma handleSubmitGroup_cases (s : ConnectionsEnvState) (submitted : list string) :
  SubmitCase s submitted (handleSubmitGroup s submitted).1
                         (handleSubmitGroup s submitted).2.
Proof.
  unfold handleSubmitGroup.
  destruct (Nat.eqb_spec (length (normalize <$> submitted)) 4) as [Hlen|Hlen];
    simpl negb; cbv iota.
  2:{ apply submit_invalid. intros (Hl & _). by rewrite length_fmap in Hlen. }
  destruct (Nat.eqb_spec (uniqueCount (normalize <$> submitted)) 4) as [Huniq|Huniq];
    simpl negb; cbv iota.
  2:{ apply submit_invalid. intros (_ & Hnd & _).
      by apply (proj2 (uniqueCount_NoDup _ Hlen)) in Hnd. }
  apply (uniqueCount_NoDup _ Hlen) in Huniq.
  destruct (firstNotRemaining _ _) as [word|] eqn:Hrem.
  { apply submit_invalid. intros (_ & _ & Hall).
    apply firstNotRemaining_Some in Hrem as [Hin Hnot]. auto. }
  assert (validSubmission s submitted) as Hvalid.
  { split; [by rewrite length_fmap in Hlen|]. split; [done|].
    by apply firstNotRemaining_None. }
  destruct (findMatchingGroup _ _) as [g|] eqn:Hfind.
  - eapply submit_correct with (g := g); simpl; try done.
    + by rewrite length_app.
    + apply filter_not_includes.
  - eapply submit_incorrect; simpl; done.
Qed.

(** Words that all belong to a group already taken out of the remaining
    words cannot make a valid submission. *)
Lemma taken_group_not_valid (s : ConnectionsEnvState) (g : ConnectionsGroup)
      (again : list string) :
  (∀ r, r ∈ remainingWords s → normalize r ∉ normalizedGroup g) →
  (∀ w, w ∈ normalize <$> again → w ∈ normalizedGroup g) →
  ¬ validSubmission s again.
Proof.
  intros Hrem Hin (Hlen & _ & Hall).
  destruct again as [|w again]; [done|].
  assert (normalize w ∈ normalize <$> w :: again) as Hw by (simpl; by left).
  pose proof (Hall _ Hw) as (r & Heq & Hr)%list_elem_of_fmap.
  apply (Hrem r Hr). rewrite <- Heq. by apply Hin.
Qed.

(** On a state that is not done, [step] runs the handler, appends the
    action and its feedback to the history and bumps the state version;
    it touches nothing else. *)
Lemma step_submit_group (s : ConnectionsEnvState) (submitted : list string) :
  st_done s = false →
  step (Some s) (submit_group submitted)
  = (Some (recordHistory (handleSubmitGroup s submitted).1
                         (submit_group submitted)
                         (handleSubmitGroup s submitted).2),
     Returned (getObservation
                 (recordHistory (handleSubmitGroup s submitted).1
                                (submit_group submitted)
                                (handleSubmitGroup s submitted).2))
              (handleSubmitGroup s submitted).2).
Proof.
  intros Hdone. unfold step. rewrite Hdone.
  by destruct (handleSubmitGroup s submitted).
Qed.

(** C1. [handleSubmitGroup] answers [correct] exactly when the submission
    is four words that are, once normalized, pairwise distinct, all
    remaining, and the words of one of the puzzle's groups in some order
    (groups have four words each).  An accepted group goes from the
    remaining words to the found groups and the mistakes are untouched.
    A submission that fails the count, the distinctness or the
    remaining-membership test is answered [invalid_action] and the
    handler leaves the state as it was.  After an acceptance, the same
    four words, in any order and case, are answered [invalid_action].
    On a state that is not done [step] returns that feedback, and all it
    adds to the handler's state is the history entry and the version
    bump. *)
Theorem C1_submit_group_acceptance
        (s : ConnectionsEnvState) (submitted : list string) :
  Forall (λ g, length (words g) = 4) (groups (puzzle s)) →
  let s' := (handleSubmitGroup s submitted).1 in
  let fb := (handleSubmitGroup s submitted).2 in
  (result fb = Result.correct ↔
     validSubmission s submitted
     ∧ ∃ g, g ∈ groups (puzzle s) ∧ coincidesWith submitted g)
  ∧ (result fb = Result.correct →
     ∃ g, g ∈ groups (puzzle s) ∧ coincidesWith submitted g
          ∧ foundGroup fb = Some g
          ∧ foundGroups s' = foundGroups s ++ [g]
          ∧ remainingWords s' =
              filter (λ w, normalize w ∉ normalizedGroup g) (remainingWords s)
          ∧ mistakesLeft s' = mistakesLeft s)
  ∧ (¬ validSubmission s submitted →
     result fb = Result.invalid_action ∧ s' = s)
  ∧ (result fb = Result.correct →
     ∀ again, (normalize <$> again) ≡ₚ (normalize <$> submitted) →
       result (handleSubmitGroup s' again).2 = Result.invalid_action
       ∧ (handleSubmitGroup s' again).1 = s')
  ∧ (st_done s = false →
     step (Some s) (submit_group submitted)
     = (Some (recordHistory s' (submit_group submitted) fb),
        Returned (getObservation (recordHistory s' (submit_group submitted) fb))
                 fb)).
Proof.
  intros Hwf s' fb.
  assert (st_done s = false →
          step (Some s) (submit_group submitted)
          = (Some (recordHistory s' (submit_group submitted) fb),
             Returned (getObservation
                         (recordHistory s' (submit_group submitted) fb)) fb))
    as Hstep by apply step_submit_group.
  pose proof (handleSubmitGroup_cases s submitted) as Hcase.
  fold s' fb in Hcase. clearbody s' fb.
  destruct Hcase as
    [msg Hinv
    |g s' fb Hvalid Hfind Hres Hfg _ _ _ _ Hfound Hrem Hmis _ _ _ _
    |s' fb Hvalid Hfind Hres _ _ _ _ _ _ _ _ _ _ _ _].
  - (* invalid *)
    split; [|split; [|split; [|split; [|exact Hstep]]]]; try done.
    split; [done|]. by intros (Hvalid & _).
  - (* correct *)
    pose proof Hvalid as (Hlen & Hnd & Hall).
    apply findMatchingGroup_Some in Hfind as [Hg Hfour].
    assert (length (normalize <$> submitted) = 4) as Hlen'
      by by rewrite length_fmap.
    pose proof (proj1 (matches_four _ g Hlen') Hfour) as Hsub.
    assert (coincidesWith submitted g) as Hco.
    { apply four_in_group_Permutation; try done.
      rewrite Forall_forall in Hwf. by apply Hwf. }
    split; [|split; [|split; [|split; [|exact Hstep]]]].
    + split; [|done]. intros _. split; [done|]. by exists g.
    + intros _. by exists g.
    + done.
    + intros _ again Hperm.
      pose proof (handleSubmitGroup_cases s' again) as Hagain.
      assert (¬ validSubmission s' again) as Hnot.
      { apply (taken_group_not_valid s' g).
        - intros r. rewrite Hrem. by intros [? _]%list_elem_of_filter.
        - intros w Hw. apply Hsub. by rewrite <- Hperm. }
      by destruct Hagain.
  - (* incorrect *)
    pose proof Hvalid as (Hlen & Hnd & Hall).
    assert (length (normalize <$> submitted) = 4) as Hlen'
      by by rewrite length_fmap.
    split; [|split; [|split; [|split; [|exact Hstep]]]];
      try congruence; try done.
    split; [congruence|].
    intros (_ & g & Hg & Hco). exfalso.
    rewrite findMatchingGroup_None in Hfind.
    apply (Hfind g Hg). apply matches_four; [done|].
    intros w Hw. unfold coincidesWith in Hco. by rewrite <- Hco.
Qed.

Lemma C1_submit_group_acceptance_witness :
  Forall (λ g, length (words g) = 4) (groups (puzzle sampleStart))
  ∧ (result (handleSubmitGroup sampleStart ["hail"; "Rain"; "SLEET"; "snow"]).2
     = Result.correct ↔
       validSubmission sampleStart ["hail"; "Rain"; "SLEET"; "snow"]
       ∧ ∃ g, g ∈ groups (puzzle sampleStart)
              ∧ coincidesWith ["hail"; "Rain"; "SLEET"; "snow"] g).
Proof.
  split; [repeat constructor|].
  exact (proj1 (C1_submit_group_acceptance
                  sampleStart ["hail"; "Rain"; "SLEET"; "snow"]
                  ltac:(repeat constructor))).
Defined.

(** *** The one-away flag *)

Lemma alreadyFound_false (found : list ConnectionsGroup) (g : ConnectionsGroup) :
  alreadyFound found g = false ↔ ∀ fg, fg ∈ found → category fg ≠ category g.
Proof.
  unfold alreadyFound. induction found as [|x found IH]; simpl.
  - split; [|done]. intros _ fg Hfg. by apply elem_of_nil in Hfg.
  - rewrite orb_false_iff, IH, String.eqb_neq. split.
    + intros [Hx Hall] fg [->|Hfg]%elem_of_cons; auto.
    + intros Hall. split; [apply Hall; by left|].
      intros fg Hfg. apply Hall. by right.
Qed.

Lemma computeOneAway_true (found : list ConnectionsGroup) (ns : list string)
      (gs : list ConnectionsGroup) :
  computeOneAway found ns gs = true ↔
  ∃ g, g ∈ gs ∧ alreadyFound found g = false ∧ length (matches ns g) = 3.
Proof.
  induction gs as [|x gs IH]; simpl.
  - split; [done|]. intros (g & Hg & _). by apply elem_of_nil in Hg.
  - destruct (alreadyFound found x) eqn:Hx.
    + rewrite IH. split.
      * intros (g & Hg & ?). exists g. split; [by right|done].
      * intros (g & [->|Hg]%elem_of_cons & Hnf & Hm); [congruence|eauto].
    + destruct (Nat.eqb_spec (length (matches ns x)) 3) as [H3|H3].
      * split; [|done]. intros _. exists x. split; [by left|done].
      * rewrite IH. split.
        -- intros (g & Hg & ?). exists g. split; [by right|done].
        -- intros (g & [->|Hg]%elem_of_cons & Hnf & Hm); [done|eauto].
Qed.

(** Three matches out of four submitted words, said without counting. *)
Lemma matches_three (submitted : list string) (g : ConnectionsGroup) :
  length submitted = 4 →
  (length (matches (normalize <$> submitted) g) = 3 ↔ exactlyThreeOf submitted g).
Proof.
  intros Hlen. rewrite matches_filter. unfold exactlyThreeOf. split.
  - destruct submitted as [|x1 [|x2 [|x3 [|x4 [|]]]]]; try done. clear Hlen.
    rewrite !fmap_cons, fmap_nil.
    set (a := normalize x1). set (b := normalize x2).
    set (c := normalize x3). set (d := normalize x4).
    rewrite !filter_cons, filter_nil.
    destruct (decide (a ∈ normalizedGroup g)) as [Ha|Ha];
      destruct (decide (b ∈ normalizedGroup g)) as [Hb|Hb];
      destruct (decide (c ∈ normalizedGroup g)) as [Hc|Hc];
      destruct (decide (d ∈ normalizedGroup g)) as [Hd|Hd];
      simpl; intros Hcount; try done.
    + exists a, b, c, d. done.
    + exists a, b, d, c. split; [|done]. do 2 f_equiv. apply Permutation_swap.
    + exists a, c, d, b. split; [|done]. f_equiv.
      apply (Permutation_cons_append [c; d] b).
    + exists b, c, d, a. split; [|done].
      apply (Permutation_cons_append [b; c; d] a).
  - intros (a & b & c & d & Hperm & Ha & Hb & Hc & Hd).
    rewrite Hperm, !filter_cons, filter_nil.
    rewrite !decide_True, decide_False by done. done.
Qed.

(** What the second loop computes: on an [incorrect] answer the one-away
    flag is set, and it is [true] exactly when some group of the puzzle
    whose category label is the label of no found group holds exactly
    three of the four normalized submitted words.  A group that is
    found is never the one that raises the flag. *)
Lemma one_away_by_category_label
      (s : ConnectionsEnvState) (submitted : list string) :
  let fb := (handleSubmitGroup s submitted).2 in
  result fb = Result.incorrect →
  ∃ flag, oneAway fb = Some flag
    ∧ (flag = true ↔
         ∃ g, g ∈ groups (puzzle s)
              ∧ (∀ fg, fg ∈ foundGroups s → category fg ≠ category g)
              ∧ exactlyThreeOf submitted g)
    ∧ (flag = true →
         ∃ g, g ∈ groups (puzzle s) ∧ (g ∉ foundGroups s)
              ∧ exactlyThreeOf submitted g).
Proof.
  intros fb. pose proof (handleSubmitGroup_cases s submitted) as Hcase.
  fold fb in Hcase. revert Hcase. generalize (handleSubmitGroup s submitted).1.
  clearbody fb. intros s' Hcase Hres.
  destruct Hcase as
    [msg Hinv
    |g s' fb Hvalid Hfind Hok _ _ _ _ _ _ _ _ _ _ _ _
    |s' fb Hvalid Hfind _ _ Hflag _ _ _ _ _ _ _ _ _ _];
    [done|congruence|].
  destruct Hvalid as (Hlen & _ & _).
  eexists. split; [exact Hflag|].
  assert (computeOneAway (foundGroups s) (normalize <$> submitted)
                         (groups (puzzle s)) = true ↔
          ∃ g, g ∈ groups (puzzle s)
               ∧ (∀ fg, fg ∈ foundGroups s → category fg ≠ category g)
               ∧ exactlyThreeOf submitted g) as Hiff.
  { rewrite computeOneAway_true. split.
    - intros (g & Hg & Hnf & H3). exists g.
      by rewrite <- alreadyFound_false, <- matches_three.
    - intros (g & Hg & Hnf & H3). exists g.
      by rewrite alreadyFound_false, matches_three. }
  split; [done|].
  intros (g & Hg & Hnf & H3)%Hiff. exists g. split; [done|]. split; [|done].
  intros Hin. by apply (Hnf g Hin).
Qed.

(** C3 fails on the code when two groups of the puzzle carry the same
    category label.  With the first ANIMALS group found, three words of
    the second ANIMALS group and one colour are four distinct remaining
    words, no group holds all four, a group that is not found holds
    exactly three of them, and the flag is [false]: the second loop
    skipped the group because a found group has its label. *)
Theorem C3_one_away_twin_labels :
  let s := twinLabelAfterFirst in
  let submitted := ["BAT"; "EEL"; "FOX"; "RED"] in
  validSubmission s submitted
  ∧ result (handleSubmitGroup s submitted).2 = Result.incorrect
  ∧ (∃ g, g ∈ groups (puzzle s) ∧ (g ∉ foundGroups s)
          ∧ exactlyThreeOf submitted g)
  ∧ oneAway (handleSubmitGroup s submitted).2 = Some false.
Proof.
  intros s submitted. split; [|split; [|split]].
  - split; [done|]. split.
    + apply (bool_decide_unpack _). by vm_compute.
    + apply Forall_forall. apply (bool_decide_unpack _). by vm_compute.
  - by vm_compute.
  - exists {| level := green; category := "ANIMALS";
              words := ["BAT"; "EEL"; "FOX"; "OWL"] |}.
    split; [|split].
    + apply (bool_decide_unpack _). by vm_compute.
    + apply (bool_decide_unpack _). by vm_compute.
    + exists "BAT"%string, "EEL"%string, "FOX"%string, "RED"%string.
      split; [by vm_compute|].
      repeat split; apply (bool_decide_unpack _); by vm_compute.
  - by vm_compute.
Qed.

(** Where the category labels of the puzzle are pairwise distinct and the
    found groups are groups of the puzzle, the flag is [true] exactly
    when a group that is not found holds exactly three of the four
    words. *)
Lemma one_away_distinct_labels (s : ConnectionsEnvState) (submitted : list string) :
  NoDup (category <$> groups (puzzle s)) →
  foundGroups s ⊆ groups (puzzle s) →
  result (handleSubmitGroup s submitted).2 = Result.incorrect →
  ∃ flag, oneAway (handleSubmitGroup s submitted).2 = Some flag
    ∧ (flag = true ↔
         ∃ g, g ∈ groups (puzzle s) ∧ (g ∉ foundGroups s)
              ∧ exactlyThreeOf submitted g).
Proof.
  intros Hnd Hsub Hres.
  destruct (one_away_by_category_label s submitted Hres)
    as (flag & Hflag & Hiff & Himp).
  exists flag. split; [done|]. split; [done|].
  intros (g & Hg & Hnf & H3). apply Hiff. exists g. split; [done|].
  split; [|done]. intros fg Hfg Hcat.
  assert (fg = g) as ->; [|done].
  apply Hsub in Hfg.
  apply list_elem_of_lookup in Hfg as [i Hi].
  apply list_elem_of_lookup in Hg as [j Hj].
  assert (i = j) as ->.
  { eapply NoDup_lookup; [exact Hnd| |].
    - by rewrite list_lookup_fmap, Hi.
    - by rewrite list_lookup_fmap, Hj, Hcat. }
  congruence.
Qed.

(** *** Mistakes *)

Ltac inv_auto :=
  unfold mistakesInvariant in *; simpl in *;
  repeat split; intros; subst; try done; try congruence; try lia.

Lemma step_terminal (s : ConnectionsEnvState) (a : ConnectionsAction) :
  st_done s = true → step (Some s) a = (Some s, Threw "Game is already finished.").
Proof. intros Hdone. unfold step. by rewrite Hdone. Qed.

Lemma step_mistakesInvariant (s : ConnectionsEnvState) (k : nat)
      (a : ConnectionsAction) :
  mistakesInvariant s k →
  ∃ s', (step (Some s) a).1 = Some s'
        ∧ mistakesInvariant s' (k + if isIncorrect (step (Some s) a).2 then 1 else 0).
Proof.
  intros Hinv. destruct (st_done s) eqn:Hdone.
  { rewrite step_terminal by done. exists s. simpl. by rewrite Nat.add_0_r. }
  destruct Hinv as (Hm & Hk & Hfour & Hlt). specialize (Hlt Hdone).
  unfold step. rewrite Hdone. destruct a as [submitted| |tag].
  - pose proof (handleSubmitGroup_cases s submitted) as Hcase.
    destruct (handleSubmitGroup s submitted) as [s1 fb]. simpl in Hcase.
    eexists. split; [done|]. simpl.
    destruct Hcase as
      [msg Hinv
      |g s1 fb _ _ Hres _ _ _ _ _ _ _ Hmis _ _ Hd _
      |s1 fb _ _ Hres _ _ Hfb _ _ _ _ Hmis _ _ Hd Hst].
    + simpl. rewrite Nat.add_0_r. unfold invalid in *. inv_auto.
    + rewrite Hres, Nat.add_0_r. inv_auto.
    + rewrite Hres. unfold mistakesInvariant; simpl.
      rewrite Hmis, Hd, Hst, Hfb, Hdone, Hm.
      destruct (Z.leb_spec (4 - Z.of_nat k - 1) 0); inv_auto.
  - eexists. split; [done|]. simpl. rewrite Nat.add_0_r. inv_auto.
  - eexists. split; [done|]. simpl. rewrite Nat.add_0_r. inv_auto.
Qed.

Lemma run_mistakesInvariant (acts : list ConnectionsAction)
      (s : ConnectionsEnvState) (k : nat) :
  mistakesInvariant s k →
  ∃ s', (runActions step (Some s) acts).1 = Some s'
        ∧ mistakesInvariant s' (k + incorrectCount (runActions step (Some s) acts).2).
Proof.
  revert s k. induction acts as [|a acts IH]; intros s k Hinv.
  - exists s. simpl. by rewrite Nat.add_0_r.
  - destruct (step_mistakesInvariant s k a Hinv) as (s1 & Hs1 & Hinv1).
    destruct (IH s1 _ Hinv1) as (s2 & Hs2 & Hinv2).
    rewrite runActions_cons. cbv zeta. rewrite Hs1. cbn [fst snd].
    exists s2. split; [done|].
    unfold incorrectCount in *. cbn [List.filter].
    destruct (isIncorrect (step (Some s) a).2); cbn [length].
    + by replace (k + S (length (List.filter isIncorrect
                                   (runActions step (Some s1) acts).2)))
        with (k + 1 + length (List.filter isIncorrect
                                (runActions step (Some s1) acts).2)) by lia.
    + by rewrite Nat.add_0_r in Hinv2.
Qed.

(** C4. An [incorrect] answer takes exactly one from the mistakes left,
    every other answer leaves them as they are, and when an [incorrect]
    answer brings them to 0 the state is terminal with status [fail] and
    the feedback says [done].  From a reset state (4 mistakes), whatever
    the actions: the mistakes left are 4 minus the number of [incorrect]
    answers, that number never exceeds 4, and once it is 4 the state is
    terminal with status [fail] and every further [step] throws.
    A valid submission is answered [incorrect] exactly when no group of
    the puzzle holds all its words.  On the puzzle of the test file, the
    same wrong guess submitted five times is answered [incorrect] four
    times, the fourth answer says [done] with status [fail], the state
    is then terminal with status [fail] and no mistake left, and the
    fifth call throws. *)
Theorem C4_four_mistakes_end_the_game :
  (∀ (s : ConnectionsEnvState) (submitted : list string),
     let s' := (handleSubmitGroup s submitted).1 in
     let fb := (handleSubmitGroup s submitted).2 in
     (result fb = Result.incorrect →
        mistakesLeft s' = (mistakesLeft s - 1)%Z
        ∧ ((mistakesLeft s' ≤ 0)%Z →
             st_done s' = true ∧ st_status s' = Status.fail
             ∧ done fb = true ∧ status fb = Some Status.fail))
     ∧ (result fb ≠ Result.incorrect → mistakesLeft s' = mistakesLeft s))
  ∧ (∀ (p : ConnectionsPuzzle) (shuffled : list string)
       (acts : list ConnectionsAction),
       let env' := (runActions step (Some (reset p shuffled)) acts).1 in
       let outcomes := (runActions step (Some (reset p shuffled)) acts).2 in
       ∃ s', env' = Some s'
             ∧ mistakesLeft s' = (4 - Z.of_nat (incorrectCount outcomes))%Z
             ∧ incorrectCount outcomes ≤ 4
             ∧ (incorrectCount outcomes = 4 →
                  st_done s' = true ∧ st_status s' = Status.fail
                  ∧ ∀ a, step env' a = (env', Threw "Game is already finished.")))
  ∧ (∀ (s : ConnectionsEnvState) (submitted : list string),
       validSubmission s submitted →
       (result (handleSubmitGroup s submitted).2 = Result.incorrect ↔
          ∀ g, g ∈ groups (puzzle s) →
               ¬ ∀ w, w ∈ normalize <$> submitted → w ∈ normalizedGroup g))
  ∧ (let wrong := submit_group ["HAIL"; "BUCKS"; "OPTION"; "KAYAK"] in
     let r := runActions step (Some sampleStart)
                         [wrong; wrong; wrong; wrong; wrong] in
     isIncorrect <$> r.2 = [true; true; true; true; false]
     ∧ (∃ obs fb, r.2 !! 3 = Some (Returned obs fb)
                  ∧ done fb = true ∧ status fb = Some Status.fail)
     ∧ r.2 !! 4 = Some (Threw "Game is already finished.")
     ∧ ∃ s', r.1 = Some s' ∧ st_done s' = true
             ∧ st_status s' = Status.fail ∧ mistakesLeft s' = 0%Z).
Proof.
  split; [|split; [|split]].
  - intros s submitted s' fb.
    pose proof (handleSubmitGroup_cases s submitted) as Hcase.
    fold s' fb in Hcase. clearbody s' fb.
    destruct Hcase as
      [msg Hinv
      |g s' fb _ _ Hres _ _ _ _ _ _ _ Hmis _ _ _ _
      |s' fb _ _ Hres _ _ Hfb Hst _ _ _ Hmis _ _ Hd Hs].
    + split; [done|done].
    + split; [congruence|done].
    + split; [|congruence]. intros _. split; [done|].
      intros Hle. rewrite Hd, Hs, Hst, Hfb, <- Hmis.
      by destruct (Z.leb_spec (mistakesLeft s') 0); [|lia].
  - intros p shuffled acts env' outcomes.
    destruct (run_mistakesInvariant acts (reset p shuffled) 0)
      as (s' & Hs' & Hm & Hk & Hfour & _).
    { repeat split; simpl; try done; lia. }
    fold env' in Hs'. fold outcomes in Hm, Hk, Hfour. simpl in Hm, Hk, Hfour.
    exists s'. repeat split; try done; try (by apply Hfour).
    intros a. rewrite Hs'. apply step_terminal. by apply Hfour.
  - intros s submitted Hvalid.
    pose proof (handleSubmitGroup_cases s submitted) as Hcase.
    destruct (handleSubmitGroup s submitted) as [s1 fb]. simpl in Hcase |- *.
    assert (length (normalize <$> submitted) = 4) as Hlen.
    { rewrite length_fmap. apply Hvalid. }
    destruct Hcase as
      [msg Hinv
      |g s1 fb _ Hfind Hres _ _ _ _ _ _ _ _ _ _ _ _
      |s1 fb _ Hfind Hres _ _ _ _ _ _ _ _ _ _ _ _].
    + done.
    + rewrite Hres. split; [done|]. intros Hnone. exfalso.
      apply findMatchingGroup_Some in Hfind as [Hg Hfour].
      apply (Hnone g Hg). by apply (proj1 (matches_four _ g Hlen)).
    + rewrite Hres. split; [|done]. intros _ g Hg Hall.
      apply (proj1 (findMatchingGroup_None _ _) Hfind g Hg).
      by apply (proj2 (matches_four _ g Hlen)).
  - vm_compute. split_and!; try reflexivity.
    + eexists. eexists. split_and!; reflexivity.
    + eexists. split_and!; reflexivity.
Qed.

(** The same wrong guess four times from the reset state of the test
    file's puzzle: the state is terminal with status [fail], and no
    mistake is left. *)
Lemma C4_four_mistakes_end_the_game_witness :
  let wrong := submit_group ["HAIL"; "BUCKS"; "OPTION"; "KAYAK"] in
  ∃ s', (runActions step (Some (reset samplePuzzle (puzzle_words samplePuzzle)))
                    [wrong; wrong; wrong; wrong]).1 = Some s'
        ∧ mistakesLeft s' = 0%Z
        ∧ st_done s' = true ∧ st_status s' = Status.fail.
Proof.
  intros wrong.
  destruct (proj1 (proj2 C4_four_mistakes_end_the_game)
              samplePuzzle (puzzle_words samplePuzzle)
              [wrong; wrong; wrong; wrong])
    as (s' & Hs' & Hm & _ & Hfour).
  exists s'. split; [exact Hs'|]. split; [exact Hm|].
  split; apply Hfour; vm_compute; reflexivity.
Defined.

(** *** The scenario of the test file *)

Example scenario_correct_any_case :
  let r := handleSubmitGroup sampleStart ["hail"; "Rain"; "SLEET"; "snow"] in
  result r.2 = Result.correct
  ∧ length (foundGroups r.1) = 1
  ∧ mistakesLeft r.1 = 4%Z.
Proof. by vm_compute. Qed.

Example scenario_incorrect_two_and_two :
  let r := handleSubmitGroup sampleStart ["HAIL"; "RAIN"; "BUCKS"; "HEAT"] in
  result r.2 = Result.incorrect
  ∧ oneAway r.2 = Some false
  ∧ mistakesLeft r.1 = 3%Z.
Proof. by vm_compute. Qed.

Example scenario_one_away :
  let r := handleSubmitGroup sampleStart ["HAIL"; "RAIN"; "SLEET"; "BUCKS"] in
  result r.2 = Result.incorrect ∧ oneAway r.2 = Some true.
Proof. by vm_compute. Qed.

End ConnectionsFacts.

Module CrosswordFacts.
Import JsString CrosswordEnv CrosswordSpec.

(** *** Arrays and sets *)

Lemma JsArray_get_set (a : JsArray.t) (i j : nat) (v : option string) :
  JsArray.get (JsArray.set a i v) j = if decide (i = j) then v else JsArray.get a j.
Proof.
  unfold JsArray.get, JsArray.set.
  destruct (decide (i < length a)) as [Hlt|Hge].
  - destruct (decide (i = j)) as [->|Hne].
    + by rewrite list_lookup_insert_eq.
    + by rewrite list_lookup_insert_ne.
  - destruct (decide (j < length a)) as [Hj|Hj].
    + rewrite lookup_app_l by done. rewrite decide_False by lia. done.
    + rewrite lookup_app_r by lia.
      rewrite (lookup_ge_None_2 a j) by lia. simpl.
      destruct (decide (j - length a < i - length a)) as [Hin|Hout].
      * rewrite lookup_app_l by (by rewrite length_replicate).
        rewrite lookup_replicate_2 by done. simpl.
        rewrite decide_False by lia. done.
      * rewrite lookup_app_r by (rewrite length_replicate; lia).
        rewrite length_replicate.
        destruct (decide (i = j)) as [->|Hne].
        -- by rewrite Nat.sub_diag.
        -- destruct (j - length a - (i - length a)) as [|k] eqn:Hk; [lia|]. done.
Qed.

Lemma JsSet_has_spec (s : JsSet.t) (x : nat) : JsSet.has s x = true ↔ x ∈ s.
Proof. unfold JsSet.has. by rewrite bool_decide_eq_true. Qed.

Lemma JsSet_elem_of_add (s : JsSet.t) (x y : nat) :
  y ∈ JsSet.add s x ↔ y = x ∨ y ∈ s.
Proof.
  unfold JsSet.add. destruct (JsSet.has s x) eqn:Hx.
  - apply JsSet_has_spec in Hx. split; [by right|]. by intros [->|?].
  - rewrite elem_of_app, list_elem_of_singleton. tauto.
Qed.

Lemma JsSet_elem_of_delete (s : JsSet.t) (x y : nat) :
  y ∈ JsSet.delete s x ↔ y ≠ x ∧ y ∈ s.
Proof.
  unfold JsSet.delete. induction s as [|z s IH]; simpl.
  - split; [by intros ?%elem_of_nil|by intros [_ ?%elem_of_nil]].
  - destruct (Nat.eqb_spec z x) as [->|Hne]; simpl.
    + rewrite IH, elem_of_cons. split; [tauto|]. intros [? [?|?]]; done.
    + rewrite !elem_of_cons, IH. split; [|tauto].
      intros [->|[? ?]]; [by split; [|left]|tauto].
Qed.

(** *** The clue map *)

Lemma clueKey_inj (d1 d2 : Direction) (n1 n2 : Z) :
  clueKey d1 n1 = clueKey d2 n2 → d1 = d2 ∧ n1 = n2.
Proof.
  unfold clueKey. destruct d1, d2; simpl; intros Heq; try done.
  - split; [done|]. injection Heq as Heq. by apply (inj pretty).
  - split; [done|]. injection Heq as Heq. by apply (inj pretty).
Qed.

Lemma setClues_lookup (d : Direction) (cs : list CrosswordClue)
      (m : gmap string CrosswordClue) (d' : Direction) (n : Z) :
  setClues d cs m !! clueKey d' n
  = if decide (d = d')
    then match last (filter (λ c, number c = n) cs) with
         | Some c => Some c
         | None => m !! clueKey d' n
         end
    else m !! clueKey d' n.
Proof.
  unfold setClues. revert m. induction cs as [|c cs IH]; intros m; simpl.
  - by destruct (decide (d = d')).
  - rewrite IH, filter_cons. destruct (decide (d = d')) as [<-|Hd].
    + destruct (decide (number c = n)) as [Hn|Hn].
      * rewrite last_cons.
        destruct (last (filter (λ c0, number c0 = n) cs)); [done|].
        by rewrite Hn, lookup_insert_eq.
      * destruct (last (filter (λ c0, number c0 = n) cs)); [done|].
        rewrite lookup_insert_ne; [done|].
        intros [_ ?]%clueKey_inj. done.
    + rewrite lookup_insert_ne; [done|].
      intros [? _]%clueKey_inj. done.
Qed.

(** After [reset] the clue map answers for the puzzle: a key is present
    exactly when the puzzle lists a clue of that direction and number. *)
Lemma reset_clueMap_lookup (p : CrosswordPuzzle) (cfg : CrosswordEnvConfig)
      (d : Direction) (n : Z) :
  clueMap (reset p cfg) !! clueKey d n = findClue d n p.
Proof.
  unfold reset, findClue. simpl. rewrite !setClues_lookup.
  destruct d; simpl.
  - rewrite lookup_empty. by destruct (last _).
  - rewrite lookup_empty. by destruct (last _).
Qed.

Lemma step_clueMap (e : Env) (a : CrosswordAction) :
  clueMap (step e a).1 = clueMap e.
Proof.
  unfold step. destruct (state e) as [s|]; [|done].
  destruct (st_done s); [done|].
  destruct a as [d n answer|d n|d n| | |tag]; simpl.
  - by destruct (handleFillEntry (clueMap e) s d n answer).
  - by destruct (handleClearEntry (clueMap e) s d n).
  - by destruct (handleCheckEntry (clueMap e) s d n).
  - by destruct (handleSubmitPuzzle s).
  - done.
  - done.
Qed.

(** On a state that is not done, [step] runs the handler of the action,
    appends the action and its feedback to the history and bumps the state
    version; it touches nothing else. *)
Lemma step_submit_puzzle (e : Env) (s : CrosswordEnvState) :
  state e = Some s → st_done s = false →
  step e submit_puzzle
  = ({| state := Some (recordHistory (handleSubmitPuzzle s).1 submit_puzzle
                                     (handleSubmitPuzzle s).2);
        clueMap := clueMap e |},
     Returned (getObservation
                 (recordHistory (handleSubmitPuzzle s).1 submit_puzzle
                                (handleSubmitPuzzle s).2))
              (handleSubmitPuzzle s).2).
Proof.
  intros Hstate Hdone. unfold step. rewrite Hstate, Hdone.
  by destruct (handleSubmitPuzzle s).
Qed.

Lemma step_check_entry (e : Env) (s : CrosswordEnvState) (d : Direction) (n : Z) :
  state e = Some s → st_done s = false →
  step e (check_entry d n)
  = ({| state := Some (recordHistory (handleCheckEntry (clueMap e) s d n).1
                                     (check_entry d n)
                                     (handleCheckEntry (clueMap e) s d n).2);
        clueMap := clueMap e |},
     Returned (getObservation
                 (recordHistory (handleCheckEntry (clueMap e) s d n).1
                                (check_entry d n)
                                (handleCheckEntry (clueMap e) s d n).2))
              (handleCheckEntry (clueMap e) s d n).2).
Proof.
  intros Hstate Hdone. unfold step. rewrite Hstate, Hdone.
  by destruct (handleCheckEntry (clueMap e) s d n).
Qed.

Lemma step_fill_entry (e : Env) (s : CrosswordEnvState) (d : Direction) (n : Z)
      (answer : string) :
  state e = Some s → st_done s = false →
  step e (fill_entry d n answer)
  = ({| state := Some (recordHistory (handleFillEntry (clueMap e) s d n answer).1
                                     (fill_entry d n answer)
                                     (handleFillEntry (clueMap e) s d n answer).2);
        clueMap := clueMap e |},
     Returned (getObservation
                 (recordHistory (handleFillEntry (clueMap e) s d n answer).1
                                (fill_entry d n answer)
                                (handleFillEntry (clueMap e) s d n answer).2))
              (handleFillEntry (clueMap e) s d n answer).2).
Proof.
  intros Hstate Hdone. unfold step. rewrite Hstate, Hdone.
  by destruct (handleFillEntry (clueMap e) s d n answer).
Qed.

(** *** submit_puzzle *)

Lemma submitLoop_filter (todo i : nat) (g : JsArray.t) (sol : list string)
      (incorrect : list nat) :
  submitLoop todo i g sol incorrect
  = incorrect ++ filter (mismatchAt g sol) (seq i todo).
Proof.
  revert i incorrect. induction todo as [|todo IH]; intros i incorrect; simpl.
  - by rewrite filter_nil, app_nil_r.
  - rewrite filter_cons. unfold mismatchAt at 2.
    case_bool_decide as Hblock.
    + rewrite IH. rewrite decide_False; [done|]. by intros [? _].
    + case_bool_decide as Hsame.
      * rewrite IH. rewrite decide_False; [done|]. by intros [_ ?].
      * rewrite IH, decide_True by done. by rewrite <- app_assoc.
Qed.

(** C5. [handleSubmitPuzzle] always ends the game.  The mismatched cells
    are the indices below the length of the fill grid whose solution
    cell is not a block and whose fill (an empty ["."] included) differs
    from the solution.  With none, the status is [success_with_reveals]
    if the revealed set is non-empty and [success_clean] if it is
    empty; with at least one, the status is [fail] and the feedback
    carries exactly those indices, in increasing order.  On a state that
    is not done [step] returns that feedback, and all it adds to the
    handler's state is the history entry and the version bump. *)
Theorem C5_submit_puzzle_classification (s : CrosswordEnvState) :
  let s' := (handleSubmitPuzzle s).1 in
  let fb := (handleSubmitPuzzle s).2 in
  let wrong := mismatchedCells (fillGrid s) (solution_grid (puzzle s)) in
  (∀ e, state e = Some s → st_done s = false →
        step e submit_puzzle
        = ({| state := Some (recordHistory s' submit_puzzle fb);
              clueMap := clueMap e |},
           Returned (getObservation (recordHistory s' submit_puzzle fb)) fb))
  ∧ (∀ i, i ∈ wrong ↔
        i < length (fillGrid s)
        ∧ solution_grid (puzzle s) !! i ≠ Some "#"%string
        ∧ JsArray.get (fillGrid s) i ≠ solution_grid (puzzle s) !! i)
  ∧ (wrong = [] ↔
       ∀ i, i < length (fillGrid s) →
            solution_grid (puzzle s) !! i ≠ Some "#"%string →
            JsArray.get (fillGrid s) i = solution_grid (puzzle s) !! i)
  ∧ st_done s' = true ∧ done fb = true ∧ result fb = Result.submitted
  ∧ fillGrid s' = fillGrid s
  ∧ (wrong = [] →
       let ok := if decide (revealedCells s = [])
                 then Status.success_clean else Status.success_with_reveals in
       st_status s' = ok ∧ status fb = Some ok
       ∧ success fb = Some true ∧ incorrectCells fb = None)
  ∧ (wrong ≠ [] →
       st_status s' = Status.fail ∧ status fb = Some Status.fail
       ∧ success fb = Some false ∧ incorrectCells fb = Some wrong).
Proof.
  intros s' fb wrong. split; [intros e; apply step_submit_puzzle|].
  assert (∀ i, i ∈ wrong ↔
               i < length (fillGrid s)
               ∧ solution_grid (puzzle s) !! i ≠ Some "#"%string
               ∧ JsArray.get (fillGrid s) i ≠ solution_grid (puzzle s) !! i)
    as Hmem.
  { intros i. unfold wrong, mismatchedCells, mismatchAt.
    rewrite list_elem_of_filter, elem_of_seq. split.
    - intros [[? ?] [_ ?]]. repeat split; [lia|done|done].
    - intros (? & ? & ?). repeat split; [done|done|lia|lia]. }
  split; [exact Hmem|]. split.
  { split.
    - intros Hnil i Hi Hblock.
      destruct (decide (JsArray.get (fillGrid s) i
                        = solution_grid (puzzle s) !! i)) as [|Hdiff]; [done|].
      assert (i ∈ wrong) as Hin by by apply Hmem.
      rewrite Hnil in Hin. by apply elem_of_nil in Hin.
    - intros Hall. destruct wrong as [|i rest] eqn:Hw; [done|]. exfalso.
      assert (i ∈ i :: rest) as Hin by by left.
      apply Hmem in Hin as (Hi & Hblock & Hdiff). by apply Hdiff, Hall. }
  clear Hmem. unfold s', fb, handleSubmitPuzzle.
  rewrite submitLoop_filter, app_nil_l. fold (mismatchedCells (fillGrid s)
    (solution_grid (puzzle s))). fold wrong.
  destruct wrong as [|i rest]; simpl.
  - split; [done|]. split; [done|]. split; [done|]. split; [done|].
    split; [|done]. intros _. unfold JsSet.size.
    by destruct (revealedCells s) as [|r rs].
  - split; [done|]. split; [done|]. split; [done|]. split; [done|].
    split; [done|]. by intros _.
Qed.

(** *** check_entry *)

Lemma hasEmptyCell_true (cs : list nat) (g : JsArray.t) :
  hasEmptyCell cs g = true ↔ ∃ i, i ∈ cs ∧ JsArray.get g i = Some "."%string.
Proof.
  induction cs as [|c cs IH]; simpl.
  - split; [done|]. by intros (i & ?%elem_of_nil & _).
  - case_bool_decide as Hc.
    + split; [|done]. intros _. exists c. split; [by left|done].
    + rewrite IH. split.
      * intros (i & Hi & ?). exists i. split; [by right|done].
      * intros (i & [->|Hi]%elem_of_cons & ?); [done|eauto].
Qed.

(** What the comparison loop adds to its three accumulators. *)
Lemma checkLoop_spec (cs : list nat) (g : JsArray.t) (sol : list string)
      (wrong newly : list nat) (known : JsSet.t) :
  ∃ (N : list nat) (known' : JsSet.t),
    checkLoop cs g sol wrong newly known
    = (wrong ++ filter (wrongAt g sol) cs, newly ++ N, known')
    ∧ (∀ i, i ∈ N ↔ i ∈ filter (wrongAt g sol) cs ∧ i ∉ known)
    ∧ (∀ i, i ∈ known' ↔ i ∈ known ∨ i ∈ filter (wrongAt g sol) cs).
Proof.
  revert wrong newly known.
  induction cs as [|c cs IH]; intros wrong newly known; simpl.
  - exists [], known. rewrite filter_nil, !app_nil_r.
    split; [done|]. split; intros i; rewrite elem_of_nil; tauto.
  - rewrite filter_cons.
    destruct (decide (JsArray.get g c = sol !! c)) as [Hsame|Hdiff].
    + rewrite (bool_decide_eq_true_2 _ Hsame).
      rewrite (decide_False (P := wrongAt g sol c)) by (by intros ?).
      apply IH.
    + rewrite (bool_decide_eq_false_2 _ Hdiff).
      rewrite (decide_True (P := wrongAt g sol c)) by done.
      destruct (JsSet.has known c) eqn:Hknown.
      * apply JsSet_has_spec in Hknown.
        destruct (IH (wrong ++ [c]) newly known) as (N & known' & -> & HN & Hk).
        exists N, known'. rewrite <- app_assoc. split; [done|]. split.
        -- intros i. rewrite HN, elem_of_cons. naive_solver.
        -- intros i. rewrite Hk, elem_of_cons. naive_solver.
      * assert (c ∉ known) as Hnot.
        { intros Hin%JsSet_has_spec. congruence. }
        destruct (IH (wrong ++ [c]) (newly ++ [c]) (JsSet.add known c))
          as (N & known' & -> & HN & Hk).
        exists (c :: N), known'. rewrite <- !app_assoc. split; [done|]. split.
        -- intros i. rewrite !elem_of_cons, HN, JsSet_elem_of_add.
           destruct (decide (i = c)); naive_solver.
        -- intros i. rewrite Hk, JsSet_elem_of_add, elem_of_cons. naive_solver.
Qed.

(** The loop reads the solution only to tell right cells from wrong. *)
Lemma checkLoop_solution_blind (cs : list nat) (g : JsArray.t)
      (sol1 sol2 : list string) (wrong newly : list nat) (known : JsSet.t) :
  (∀ i, i ∈ cs → (wrongAt g sol1 i ↔ wrongAt g sol2 i)) →
  checkLoop cs g sol1 wrong newly known = checkLoop cs g sol2 wrong newly known.
Proof.
  revert wrong newly known.
  induction cs as [|c cs IH]; intros wrong newly known Hsame; simpl; [done|].
  assert (wrongAt g sol1 c ↔ wrongAt g sol2 c) as Hc
    by (apply Hsame; by left).
  assert (∀ i, i ∈ cs → (wrongAt g sol1 i ↔ wrongAt g sol2 i)) as Hrest
    by (intros i Hi; apply Hsame; by right).
  unfold wrongAt in Hc.
  do 2 case_bool_decide; try tauto.
  - by apply IH.
  - destruct (JsSet.has known c); by apply IH.
Qed.

(** C6. [handleCheckEntry] answers [invalid_action] exactly when checks
    are disabled, the clue does not exist or a cell of the entry is
    still ["."], and then the handler leaves the state as it was.
    Otherwise it answers [checked]: the wrong cells are the cells of the
    clue whose fill differs from the solution, the newly wrong ones are
    those that were not known wrong, the known-wrong set grows by the
    wrong cells, the checks performed grow by one, and the grid is
    untouched; an entry without a wrong cell reports none.  The feedback
    is the same under any other solution with the same cells of the
    entry wrong: it lets no letter of the solution through.  On a state
    that is not done [step] returns that feedback, and all it adds to the
    handler's state is the history entry and the version bump. *)
Theorem C6_check_entry (m : gmap string CrosswordClue) (s : CrosswordEnvState)
        (d : Direction) (n : Z) :
  let s' := (handleCheckEntry m s d n).1 in
  let fb := (handleCheckEntry m s d n).2 in
  (∀ e, state e = Some s → clueMap e = m → st_done s = false →
        step e (check_entry d n)
        = ({| state := Some (recordHistory s' (check_entry d n) fb);
              clueMap := m |},
           Returned (getObservation (recordHistory s' (check_entry d n) fb)) fb))
  ∧ (result fb = Result.invalid_action ↔ checkRejected m s d n)
  ∧ (checkRejected m s d n → s' = s)
  ∧ (¬ checkRejected m s d n →
     ∃ c wrong newly,
       m !! clueKey d n = Some c
       ∧ result fb = Result.checked ∧ done fb = false
       ∧ wrongCells fb = Some wrong ∧ newlyWrongCells fb = Some newly
       ∧ wrong = filter (wrongAt (fillGrid s) (solution_grid (puzzle s))) (cells c)
       ∧ (∀ i, i ∈ newly ↔ i ∈ wrong ∧ i ∉ checkedWrongCells s)
       ∧ (∀ i, i ∈ checkedWrongCells s' ↔ i ∈ checkedWrongCells s ∨ i ∈ wrong)
       ∧ checksPerformed s' = S (checksPerformed s)
       ∧ fillGrid s' = fillGrid s
       ∧ ((∀ i, i ∈ cells c →
             JsArray.get (fillGrid s) i = solution_grid (puzzle s) !! i) →
          wrong = [] ∧ newly = []))
  ∧ (∀ sol c,
       m !! clueKey d n = Some c →
       (∀ i, i ∈ cells c →
             (wrongAt (fillGrid s) (solution_grid (puzzle s)) i
              ↔ wrongAt (fillGrid s) sol i)) →
       (handleCheckEntry m (withSolution s sol) d n).2 = fb).
Proof.
  intros s' fb.
  split; [intros e Hstate <-; by apply step_check_entry|].
  unfold s', fb, handleCheckEntry, checkRejected. clear s' fb.
  destruct (allowChecks (config s)) eqn:Hallow; simpl negb; cbv iota.
  2:{ split; [by split; [left|]|]. split; [done|].
      split; [intros Hn; exfalso; apply Hn; by left|].
      intros sol c Hc Hsame. simpl. by rewrite Hallow. }
  destruct (m !! clueKey d n) as [c|] eqn:Hclue.
  2:{ split; [split; [by right; left|done]|]. split; [done|].
      split; [intros Hn; exfalso; apply Hn; by right; left|].
      intros sol c Hc. done. }
  destruct (hasEmptyCell (cells c) (fillGrid s)) eqn:Hempty.
  { pose proof (proj1 (hasEmptyCell_true _ _) Hempty) as Hex.
    split; [split; [right; right; by exists c|done]|]. split; [done|].
    split; [intros Hn; exfalso; apply Hn; right; right; by exists c|].
    intros sol c' [= <-] Hsame. simpl. by rewrite Hallow, Hempty. }
  assert (¬ ∃ i, i ∈ cells c ∧ JsArray.get (fillGrid s) i = Some "."%string)
    as Hfull.
  { intros Hex%hasEmptyCell_true. congruence. }
  destruct (checkLoop_spec (cells c) (fillGrid s) (solution_grid (puzzle s))
                           [] [] (checkedWrongCells s))
    as (N & known' & Hloop & HN & Hknown).
  rewrite !app_nil_l in Hloop.
  split; [|split; [|split]].
  - rewrite Hloop. split.
    + by destruct (filter _ _).
    + intros [?|[?|(c' & [= <-] & Hex)]]; done.
  - intros [?|[?|(c' & [= <-] & Hex)]]; done.
  - intros _. rewrite Hloop.
    set (W := filter (wrongAt (fillGrid s) (solution_grid (puzzle s))) (cells c))
      in *.
    assert (W = [] → N = []) as HN0.
    { intros HW. destruct N as [|x N']; [done|]. exfalso.
      assert (x ∈ x :: N') as Hx by by left.
      apply HN in Hx as [Hx _]. rewrite HW in Hx. by apply elem_of_nil in Hx. }
    assert ((∀ i, i ∈ cells c →
               JsArray.get (fillGrid s) i = solution_grid (puzzle s) !! i) →
            W = []) as Hright.
    { intros Hall. destruct W as [|w ws] eqn:HW; [done|]. exfalso.
      assert (w ∈ W) as Hin by (rewrite HW; by left).
      apply list_elem_of_filter in Hin as [Hwrong Hcell].
      apply Hwrong. auto. }
    exists c, W, N.
    split_and!; try done.
    + by destruct W.
    + by destruct W.
    + by destruct W.
    + destruct W; [|done]. simpl. by rewrite HN0.
    + intros Hall. split; auto.
      - intros sol c' [= <-] Hsame. simpl.
    rewrite Hallow, Hempty. simpl.
    by rewrite <- (checkLoop_solution_blind _ _ _ _ _ _ _ Hsame), Hloop.
Qed.

(** *** fill_entry *)

Lemma allUpperLetters_keep (x : string) :
  allUpperLetters (keepUpperLetters x) = true.
Proof.
  induction x as [|c x IH]; simpl; [done|].
  destruct (isUpper c) eqn:Hc; simpl; [by rewrite Hc|done].
Qed.

(** After the stripping, the letters-only test can only fail on the empty
    string. *)
Lemma matchesLettersOnly_keep (x : string) :
  matchesLettersOnly (keepUpperLetters x) = false ↔ keepUpperLetters x = EmptyString.
Proof.
  pose proof (allUpperLetters_keep x) as Hall.
  unfold matchesLettersOnly. destruct (keepUpperLetters x); [done|].
  rewrite Hall. done.
Qed.

Lemma isUpper_toUpperChar (c : ascii) :
  isUpper c || isLower c = true → isUpper (toUpperChar c) = true.
Proof.
  destruct c as [[] [] [] [] [] [] [] []]; vm_compute; done.
Qed.

Lemma normalizeAnswer_letters (answer : string) :
  allLetters answer = true → normalizeAnswer answer = toUpperCase answer.
Proof.
  unfold normalizeAnswer. induction answer as [|c x IH]; simpl; [done|].
  intros [Hc Hx]%andb_true_iff.
  by rewrite (isUpper_toUpperChar c Hc), IH.
Qed.

(** What the filling loop leaves in the grid and in the known-wrong set:
    a cell of the entry holds the character at the position of its last
    occurrence in [cs], the other cells are untouched, and the cells of
    the entry are no longer known wrong. *)
Lemma fillLoop_spec (cs : list nat) (i : nat) (ans : string)
      (g : JsArray.t) (w : JsSet.t) :
  (∀ k cell, cs !! k = Some cell →
             (∀ k', k < k' → cs !! k' ≠ Some cell) →
             JsArray.get (fillLoop cs i ans g w).1 cell = charAt ans (i + k))
  ∧ (∀ j, j ∉ cs → JsArray.get (fillLoop cs i ans g w).1 j = JsArray.get g j)
  ∧ (∀ j, j ∈ (fillLoop cs i ans g w).2 ↔ j ∈ w ∧ j ∉ cs).
Proof.
  revert i g w. induction cs as [|c cs IH]; intros i g w; simpl.
  - split; [done|]. split; [done|]. intros j. rewrite elem_of_nil. tauto.
  - destruct (IH (S i) (JsArray.set g c (charAt ans i)) (JsSet.delete w c))
      as (Hlast & Hother & Hmarks).
    split; [|split].
    + intros [|k] cell Hk Hlater; simpl in Hk.
      * injection Hk as ->.
        assert (cell ∉ cs) as Hnot.
        { intros [k' Hk']%list_elem_of_lookup.
          apply (Hlater (S k')); [lia|done]. }
        rewrite (Hother _ Hnot), JsArray_get_set, decide_True by done.
        by rewrite Nat.add_0_r.
      * rewrite (Hlast k cell Hk).
        -- f_equal. lia.
        -- intros k' Hlt. apply (Hlater (S k')). lia.
    + intros j Hj. apply not_elem_of_cons in Hj as [Hne Hj].
      rewrite (Hother _ Hj), JsArray_get_set. by rewrite decide_False.
    + intros j. rewrite Hmarks, JsSet_elem_of_delete, not_elem_of_cons. tauto.
Qed.

(** C7, as the code has it: the answer is upper-cased and every character
    outside A-Z is dropped before any test.  [handleFillEntry] answers
    [invalid_action], the state left as it was, exactly when the clue is
    unknown, or the kept letters are not as many as the entry is long,
    or no letter is kept.  Otherwise it answers [filled], writes the kept
    letters, all of them in A-Z, into the cells of the clue in order,
    leaves the other cells alone and clears the known-wrong mark of each
    cell of the clue.  For an answer made of letters only the kept
    letters are the upper-cased answer.  On a state that is not done
    [step] returns that feedback, and all it adds to the handler's state
    is the history entry and the version bump. *)
Theorem C7_fill_entry_strips_non_letters
        (m : gmap string CrosswordClue) (s : CrosswordEnvState)
        (d : Direction) (n : Z) (answer : string) :
  let s' := (handleFillEntry m s d n answer).1 in
  let fb := (handleFillEntry m s d n answer).2 in
  let letters := normalizeAnswer answer in
  (∀ e, state e = Some s → clueMap e = m → st_done s = false →
        step e (fill_entry d n answer)
        = ({| state := Some (recordHistory s' (fill_entry d n answer) fb);
              clueMap := m |},
           Returned (getObservation
                       (recordHistory s' (fill_entry d n answer) fb)) fb))
  ∧ (result fb = Result.invalid_action ↔ fillRejected m d n answer)
  ∧ (fillRejected m d n answer → s' = s)
  ∧ (¬ fillRejected m d n answer →
     ∃ c, m !! clueKey d n = Some c
          ∧ result fb = Result.filled ∧ done fb = false
          ∧ allUpperLetters letters = true
          ∧ Z.of_nat (String.length letters) = clue_length c
          ∧ (∀ k cell, cells c !! k = Some cell →
                       (∀ k', k < k' → cells c !! k' ≠ Some cell) →
                       JsArray.get (fillGrid s') cell = charAt letters k)
          ∧ (∀ j, j ∉ cells c →
                  JsArray.get (fillGrid s') j = JsArray.get (fillGrid s) j)
          ∧ (∀ j, j ∈ checkedWrongCells s' ↔
                  j ∈ checkedWrongCells s ∧ j ∉ cells c)
          ∧ sameButGridAndMarks s s')
  ∧ (allLetters answer = true → letters = toUpperCase answer).
Proof.
  intros s' fb letters.
  split; [intros e Hstate <-; by apply step_fill_entry|].
  unfold s', fb, letters, handleFillEntry. clear s' fb letters.
  destruct (m !! clueKey d n) as [c|] eqn:Hclue.
  2:{ assert (fillRejected m d n answer) as Hrej by by left.
      split_and!; [by split|done|by intros Hn|apply normalizeAnswer_letters]. }
  destruct (Z.eqb_spec (Z.of_nat (String.length (normalizeAnswer answer)))
                       (clue_length c)) as [Hlen|Hlen];
    simpl negb; cbv iota.
  2:{ assert (fillRejected m d n answer) as Hrej
        by (right; exists c; split; [done|by left]).
      split_and!; [by split|done|by intros Hn|apply normalizeAnswer_letters]. }
  destruct (matchesLettersOnly (normalizeAnswer answer)) eqn:Hletters;
    simpl negb; cbv iota.
  2:{ apply matchesLettersOnly_keep in Hletters.
      assert (fillRejected m d n answer) as Hrej
        by (right; exists c; split; [done|by right]).
      split_and!; [by split|done|by intros Hn|apply normalizeAnswer_letters]. }
  assert (¬ fillRejected m d n answer) as Hacc.
  { intros [Hnone|(c' & Hc' & [Hne|Hempty])].
    - congruence.
    - congruence.
    - apply matchesLettersOnly_keep in Hempty.
      unfold normalizeAnswer in Hletters. congruence. }
  pose proof (fillLoop_spec (cells c) 0 (normalizeAnswer answer)
                            (fillGrid s) (checkedWrongCells s))
    as (Hlast & Hother & Hmarks).
  destruct (fillLoop _ _ _ _ _) as [g w]. simpl in *.
  split_and!; [by split|done| |apply normalizeAnswer_letters].
  intros _. exists c. split_and!; try done.
  apply allUpperLetters_keep.
Qed.

(** C7 as stated fails on an answer with a character that is not a
    letter: on the fresh 2x2 puzzle, ["c-a"] for 1-across (length 2) has
    three characters, one of them a hyphen, and is accepted: the entry
    is filled with CA. *)
Lemma C7_fill_entry_counterexample :
  let m := clueMap miniStart in
  let answer := "c-a"%string in
  state miniStart = Some miniState
  ∧ (∃ c, m !! clueKey across 1 = Some c ∧ clue_length c = 2%Z)
  ∧ String.length answer = 3
  ∧ allLetters answer = false
  ∧ result (handleFillEntry m miniState across 1 answer).2 = Result.filled
  ∧ fillGrid (handleFillEntry m miniState across 1 answer).1
    = [Some "C"; Some "A"; Some "#"; Some "."]%string.
Proof. vm_compute. split_and!; try done. eexists. split; done. Qed.

End CrosswordFacts.

(** ** Both environments: nothing is accepted once terminal *)

Module TerminalFacts.

Lemma connections_step_done (env : ConnectionsEnv.Env)
      (a : ConnectionsEnv.ConnectionsAction) :
  ConnectionsEnv.isDone env = true →
  ConnectionsEnv.step env a = (env, Threw "Game is already finished.").
Proof.
  destruct env as [s|]; simpl; [|done]. intros Hdone. by rewrite Hdone.
Qed.

Lemma crossword_step_done (env : CrosswordEnv.Env)
      (a : CrosswordEnv.CrosswordAction) :
  CrosswordEnv.isDone env = true →
  CrosswordEnv.step env a = (env, Threw "Game is already finished.").
Proof.
  unfold CrosswordEnv.isDone, CrosswordEnv.step.
  destruct (CrosswordEnv.state env) as [s|]; [|done].
  intros Hdone. by rewrite Hdone.
Qed.

(** A step of the grouping game on a state that is not done returns; the
    new state is done exactly when the feedback says so, and then its
    status is terminal and the answer was not [invalid_action]. *)
Lemma connections_step_facts (s : ConnectionsEnv.ConnectionsEnvState)
      (a : ConnectionsEnv.ConnectionsAction) :
  ConnectionsEnv.st_done s = false →
  ∃ s' obs fb,
    ConnectionsEnv.step (Some s) a = (Some s', Returned obs fb)
    ∧ ConnectionsEnv.st_done s' = ConnectionsEnv.done fb
    ∧ (ConnectionsEnv.st_done s' = true →
       ConnectionsEnv.st_status s' ≠ ConnectionsEnv.Status.in_progress
       ∧ ConnectionsEnv.result fb ≠ ConnectionsEnv.Result.invalid_action).
Proof.
  intros Hdone. unfold ConnectionsEnv.step. rewrite Hdone.
  destruct a as [submitted| |tag].
  - pose proof (ConnectionsFacts.handleSubmitGroup_cases s submitted) as Hcase.
    destruct (ConnectionsEnv.handleSubmitGroup s submitted) as [s1 fb].
    simpl in Hcase. do 3 eexists. split; [done|]. simpl.
    destruct Hcase as
      [msg Hinv
      |g s1 fb _ _ Hres _ _ _ _ _ _ _ _ _ _ Hd Hst
      |s1 fb _ _ Hres _ _ _ _ _ _ _ _ _ _ Hd Hst].
    + split; [done|]. congruence.
    + rewrite Hd, Hst, Hres, Hdone.
      destruct (ConnectionsEnv.done fb); (split; [done|]);
        intros ?; split; congruence.
    + rewrite Hd, Hst, Hres, Hdone.
      destruct (ConnectionsEnv.done fb); (split; [done|]);
        intros ?; split; congruence.
  - do 3 eexists. split; [done|]. done.
  - do 3 eexists. split; [done|]. simpl. split; congruence.
Qed.

(** The same for the grid game. *)
Lemma crossword_step_facts (e : CrosswordEnv.Env)
      (s : CrosswordEnv.CrosswordEnvState) (a : CrosswordEnv.CrosswordAction) :
  CrosswordEnv.state e = Some s →
  CrosswordEnv.st_done s = false →
  ∃ s' obs fb,
    CrosswordEnv.step e a
    = ({| CrosswordEnv.state := Some s';
          CrosswordEnv.clueMap := CrosswordEnv.clueMap e |}, Returned obs fb)
    ∧ CrosswordEnv.st_done s' = CrosswordEnv.done fb
    ∧ (CrosswordEnv.st_done s' = true →
       CrosswordEnv.st_status s' ≠ CrosswordEnv.Status.in_progress
       ∧ CrosswordEnv.result fb ≠ CrosswordEnv.Result.invalid_action).
Proof.
  intros Hstate Hdone. unfold CrosswordEnv.step. rewrite Hstate, Hdone.
  destruct a as [d n answer|d n|d n| | |tag].
  - unfold CrosswordEnv.handleFillEntry.
    destruct (CrosswordEnv.clueMap e !! CrosswordEnv.clueKey d n) as [c|];
      [|do 3 eexists; split; [done|simpl; split; congruence]].
    destruct (negb _); [do 3 eexists; split; [done|simpl; split; congruence]|].
    destruct (negb _); [do 3 eexists; split; [done|simpl; split; congruence]|].
    destruct (CrosswordEnv.fillLoop _ _ _ _ _).
    do 3 eexists. split; [done|]. simpl. split; congruence.
  - unfold CrosswordEnv.handleClearEntry.
    destruct (CrosswordEnv.clueMap e !! CrosswordEnv.clueKey d n) as [c|];
      [|do 3 eexists; split; [done|simpl; split; congruence]].
    destruct (CrosswordEnv.clearLoop _ _ _ _).
    do 3 eexists. split; [done|]. simpl. split; congruence.
  - unfold CrosswordEnv.handleCheckEntry.
    destruct (negb _); [do 3 eexists; split; [done|simpl; split; congruence]|].
    destruct (CrosswordEnv.clueMap e !! CrosswordEnv.clueKey d n) as [c|];
      [|do 3 eexists; split; [done|simpl; split; congruence]].
    destruct (CrosswordEnv.hasEmptyCell _ _);
      [do 3 eexists; split; [done|simpl; split; congruence]|].
    destruct (CrosswordEnv.checkLoop _ _ _ _ _ _) as [[wrong newly] known].
    do 3 eexists. split; [done|]. destruct wrong; simpl; split; congruence.
  - unfold CrosswordEnv.handleSubmitPuzzle.
    destruct (CrosswordEnv.submitLoop _ _ _ _ _).
    + do 3 eexists. split; [done|]. simpl. split; [done|]. intros _.
      by destruct (0 <? JsSet.size (CrosswordEnv.revealedCells s)).
    + do 3 eexists. split; [done|]. by simpl.
  - do 3 eexists. split; [done|]. by simpl.
  - do 3 eexists. split; [done|]. simpl. split; congruence.
Qed.

(** A [step] function that throws on [env] and leaves it alone does so
    for a whole list of actions. *)
Lemma runActions_stuck {E A R : Type} (step : E → A → E * R) (env : E) (r : R)
      (acts : list A) :
  (∀ a, step env a = (env, r)) →
  runActions step env acts = (env, (λ _, r) <$> acts).
Proof.
  intros Hstuck. induction acts as [|a acts IH]; [done|].
  rewrite runActions_cons, Hstuck. cbn [fst snd]. by rewrite IH.
Qed.

(** C9. In both environments a [step] on a terminal state throws
    "Game is already finished." for every action and returns the
    environment as it was, so that over any list of actions every call
    throws and the environment never changes; a state is terminal as soon
    as a feedback said [done]; and a [step] before [reset] throws as
    well. *)
Theorem C9_no_step_once_terminal :
  (∀ env a, ConnectionsEnv.isDone env = true →
            ConnectionsEnv.step env a = (env, Threw "Game is already finished."))
  ∧ (∀ env acts, ConnectionsEnv.isDone env = true →
       runActions ConnectionsEnv.step env acts
       = (env, (λ _, Threw "Game is already finished.") <$> acts))
  ∧ (∀ env a env' obs fb,
       ConnectionsEnv.step env a = (env', Returned obs fb) →
       ConnectionsEnv.done fb = true → ConnectionsEnv.isDone env' = true)
  ∧ (∀ a, ConnectionsEnv.step ConnectionsEnv.newEnv a
          = (ConnectionsEnv.newEnv,
             Threw "Environment not initialized. Call reset() first."))
  ∧ (∀ env a, CrosswordEnv.isDone env = true →
              CrosswordEnv.step env a = (env, Threw "Game is already finished."))
  ∧ (∀ env acts, CrosswordEnv.isDone env = true →
       runActions CrosswordEnv.step env acts
       = (env, (λ _, Threw "Game is already finished.") <$> acts))
  ∧ (∀ env a env' obs fb,
       CrosswordEnv.step env a = (env', Returned obs fb) →
       CrosswordEnv.done fb = true → CrosswordEnv.isDone env' = true)
  ∧ (∀ env a, CrosswordEnv.state env = None →
              CrosswordEnv.step env a
              = (env, Threw "Environment not initialized. Call reset() first.")).
Proof.
  split_and!.
  - apply connections_step_done.
  - intros env acts Hdone. apply runActions_stuck.
    intros a. by apply connections_step_done.
  - intros [s|] a env' obs fb Hstep Hfb; [|done].
    destruct (ConnectionsEnv.st_done s) eqn:Hdone.
    + rewrite connections_step_done in Hstep; done.
    + destruct (connections_step_facts s a Hdone)
        as (s' & obs' & fb' & Heq & Hd & _).
      rewrite Heq in Hstep. injection Hstep as <- <- <-. simpl. congruence.
  - done.
  - apply crossword_step_done.
  - intros env acts Hdone. apply runActions_stuck.
    intros a. by apply crossword_step_done.
  - intros env a env' obs fb Hstep Hfb.
    destruct (CrosswordEnv.state env) as [s|] eqn:Hstate.
    + destruct (CrosswordEnv.st_done s) eqn:Hdone.
      * rewrite crossword_step_done in Hstep; [done|].
        unfold CrosswordEnv.isDone. by rewrite Hstate.
      * destruct (crossword_step_facts env s a Hstate Hdone)
          as (s' & obs' & fb' & Heq & Hd & _).
        rewrite Heq in Hstep. injection Hstep as <- <- <-.
        unfold CrosswordEnv.isDone. simpl. congruence.
    + unfold CrosswordEnv.step in Hstep. by rewrite Hstate in Hstep.
  - intros env a Hnone. unfold CrosswordEnv.step. by rewrite Hnone.
Qed.

End TerminalFacts.

(** ** The step loop *)

Module RunnerFacts.
Import Runner RunnerSpec.

Section LoopFacts.
Context {E A O F : Type} `{!Environment E A O F}.
Variable Inv : E → Prop.
Hypothesis step_Inv : ∀ e a, Inv e → Inv (env_step e a).1.

Lemma recordAndCheckDone_post (cfg : SuiteConfig) (w : World A O) (i : nat)
      (st0 st : LoopState E A O F) (pa : option A) (fb : option F)
      (err : option string) :
  status st = error → Inv (env st) → steps st = steps st0 →
  LoopPost Inv cfg w i (S i) st0
           (recordAndCheckDone i st pa fb err).1
           (recordAndCheckDone i st pa fb err).2.
Proof.
  intros Hst Hinv Hsteps. unfold recordAndCheckDone. simpl.
  destruct (env_isDone (env st)) eqn:Hdone; simpl.
  - right. right. by rewrite Hst.
  - split; [done|]. rewrite length_app, Hsteps. simpl. lia.
Qed.

(** One iteration entered in a ready state. *)
Lemma stepBody_post (cfg : SuiteConfig) (w : World A O) (i : nat)
      (st : LoopState E A O F) :
  ready Inv st →
  LoopPost Inv cfg w i (S i) st (stepBody cfg w i st).1 (stepBody cfg w i st).2.
Proof.
  intros (Hst & Hdone & Hinv). unfold stepBody.
  destruct (Z.gtb_spec (elapsedAtStep w i) (runTimeoutMs cfg)) as [Hto|Hto].
  { simpl. left. split; [done|]. split; [done|]. exists i. split; [lia|done]. }
  destruct (escapes w i) eqn:Hesc.
  { assert (∀ st', env st' = env st →
                   LoopPost Inv cfg w i (S i) st st' Caught) as Hcaught.
    { intros st' Henv. simpl. rewrite Henv. split; [done|].
      exists i. split; [lia|done]. }
    cbn [andb]. destruct (thrownBeforeCall _); [by apply Hcaught|].
    destruct (agent w i (observation st)); by apply Hcaught. }
  cbn [andb].
  destruct (agent w i (observation st)) as [apiError|parseError|a].
  - by apply recordAndCheckDone_post.
  - by apply recordAndCheckDone_post.
  - pose proof (step_Inv (env st) a Hinv) as Hinv'.
    destruct (env_step (env st) a) as [env' [envError|obs fb]] eqn:Hstep;
      simpl in Hinv'.
    + by apply recordAndCheckDone_post.
    + destruct (String.eqb_spec (fb_result fb) "invalid_action") as [Hres|Hres].
      * destruct (Z.geb_spec (invalidActions st + 1) (maxInvalidActions cfg))
          as [Hcap|Hcap].
        -- simpl. right. left. split; [done|]. split; [lia|].
           by exists (env st), a, obs, fb.
        -- by apply recordAndCheckDone_post.
      * by apply recordAndCheckDone_post.
Qed.

Lemma LoopPost_extend (cfg : SuiteConfig) (w : World A O) (lo mid hi : nat)
      (st0 st1 st' : LoopState E A O F) (flow : Flow) :
  (lo ≤ mid ≤ hi)%nat →
  length (steps st1) = (length (steps st0) + (mid - lo))%nat →
  LoopPost Inv cfg w mid hi st1 st' flow →
  LoopPost Inv cfg w lo hi st0 st' flow.
Proof.
  intros Hle Hlen. destruct flow; simpl.
  - intros [? ->]. split; [done|lia].
  - intros [(? & ? & i & ? & ?)|[?|?]]; [left|by right; left|by right; right].
    split; [done|]. split; [done|]. exists i. split; [lia|done].
  - intros (? & i & ? & ?). split; [done|]. exists i. split; [lia|done].
Qed.

(** The whole loop entered in a ready state. *)
Lemma loop_post (cfg : SuiteConfig) (w : World A O) (todo lo : nat)
      (st : LoopState E A O F) :
  ready Inv st →
  LoopPost Inv cfg w lo (lo + todo) st
           (loop cfg w todo lo st).1 (loop cfg w todo lo st).2.
Proof.
  revert lo st. induction todo as [|todo IH]; intros lo st Hready; simpl.
  - split; [done|lia].
  - pose proof (stepBody_post cfg w lo st Hready) as Hbody.
    destruct (stepBody cfg w lo st) as [st1 [| |]]; simpl in Hbody.
    + destruct Hbody as [Hready1 Hlen1].
      eapply (LoopPost_extend _ _ lo (S lo)); [lia|rewrite Hlen1; lia|].
      replace (lo + S todo) with (S lo + todo) by lia. by apply IH.
    + simpl. destruct Hbody as [(? & ? & i & ? & ?)|[?|?]];
        [left|by right; left|by right; right].
      split; [done|]. split; [done|]. exists i. split; [lia|done].
    + simpl. destruct Hbody as (? & i & ? & ?).
      split; [done|]. exists i. split; [lia|done].
Qed.

End LoopFacts.

(** *** The two environments under the loop *)

Import TerminalFacts.

Lemma connections_step_Inv (e : ConnectionsEnv.Env)
      (a : ConnectionsEnv.ConnectionsAction) :
  connectionsInv e → connectionsInv (ConnectionsEnv.step e a).1.
Proof.
  destruct e as [s|]; [|done]. intros Hinv.
  destruct (ConnectionsEnv.st_done s) eqn:Hdone.
  - by rewrite connections_step_done.
  - destruct (connections_step_facts s a Hdone)
      as (s' & obs & fb & -> & _ & Hs').
    simpl. intros Hd. by apply Hs'.
Qed.

Lemma crossword_step_Inv (e : CrosswordEnv.Env)
      (a : CrosswordEnv.CrosswordAction) :
  crosswordInv e → crosswordInv (CrosswordEnv.step e a).1.
Proof.
  unfold crosswordInv. intros Hinv.
  destruct (CrosswordEnv.state e) as [s|] eqn:Hstate.
  - destruct (CrosswordEnv.st_done s) eqn:Hdone.
    + rewrite crossword_step_done.
      * simpl. rewrite Hstate. auto.
      * unfold CrosswordEnv.isDone. by rewrite Hstate.
    + destruct (crossword_step_facts e s a Hstate Hdone)
        as (s' & obs & fb & -> & _ & Hs').
      simpl. intros Hd. by apply Hs'.
  - unfold CrosswordEnv.step. rewrite Hstate. simpl. by rewrite Hstate.
Qed.

Lemma connections_invalid_not_done (e e' : ConnectionsEnv.Env)
      (a : ConnectionsEnv.ConnectionsAction)
      (obs : ConnectionsEnv.ConnectionsObservation)
      (fb : ConnectionsEnv.ConnectionsFeedback) :
  env_isDone e = false →
  env_step e a = (e', Returned obs fb) →
  fb_result fb = "invalid_action"%string →
  env_isDone e' = false.
Proof.
  simpl. intros Hdone Hstep Hres. destruct e as [s|]; [|done].
  simpl in Hdone.
  destruct (connections_step_facts s a Hdone)
    as (s' & obs' & fb' & Heq & _ & Hs').
  rewrite Heq in Hstep. injection Hstep as <- <- <-. simpl.
  destruct (ConnectionsEnv.st_done s') eqn:Hd; [|done].
  destruct (Hs' eq_refl) as [_ Hne].
  by destruct (ConnectionsEnv.result fb').
Qed.

Lemma crossword_invalid_not_done (e e' : CrosswordEnv.Env)
      (a : CrosswordEnv.CrosswordAction)
      (obs : CrosswordEnv.CrosswordObservation)
      (fb : CrosswordEnv.CrosswordFeedback) :
  env_isDone e = false →
  env_step e a = (e', Returned obs fb) →
  fb_result fb = "invalid_action"%string →
  env_isDone e' = false.
Proof.
  simpl. unfold CrosswordEnv.isDone. intros Hdone Hstep Hres.
  destruct (CrosswordEnv.state e) as [s|] eqn:Hstate.
  - destruct (crossword_step_facts e s a Hstate Hdone)
      as (s' & obs' & fb' & Heq & _ & Hs').
    rewrite Heq in Hstep. injection Hstep as <- <- <-. simpl.
    destruct (CrosswordEnv.st_done s') eqn:Hd; [|done].
    destruct (Hs' eq_refl) as [_ Hne].
    by destruct (CrosswordEnv.result fb').
  - unfold CrosswordEnv.step in Hstep. by rewrite Hstate in Hstep.
Qed.

(** *** The status of the summary *)

(** C2, as the code has it: when the environment is done at the end of a
    run, the status of the summary is [success] for [success], [fail]
    for [fail], [success_clean] and [success_with_reveals] for
    themselves, and [fail] for [gave_up] (the run statuses have no
    [gave_up]). *)
Theorem C2_terminal_status_mapping :
  (∀ cfg w p shuffled,
     let r := runConnections cfg w p shuffled in
     ConnectionsEnv.isDone (finalEnv r) = true →
     match ConnectionsEnv.getStatus (finalEnv r) with
     | ConnectionsEnv.Status.success => sum_status r = success
     | ConnectionsEnv.Status.fail => sum_status r = fail
     | ConnectionsEnv.Status.gave_up => sum_status r = fail
     | ConnectionsEnv.Status.in_progress => False
     end)
  ∧ (∀ cfg w p,
       let r := runCrossword cfg w p in
       CrosswordEnv.isDone (finalEnv r) = true →
       match CrosswordEnv.getStatus (finalEnv r) with
       | CrosswordEnv.Status.success_clean => sum_status r = success_clean
       | CrosswordEnv.Status.success_with_reveals =>
           sum_status r = success_with_reveals
       | CrosswordEnv.Status.fail => sum_status r = fail
       | CrosswordEnv.Status.gave_up => sum_status r = fail
       | CrosswordEnv.Status.in_progress => False
       end).
Proof.
  split.
  - intros cfg w p shuffled r. unfold r, runConnections, runSingleEvaluation.
    set (st0 := initialState _ _).
    assert (ready connectionsInv st0) as Hready by by split_and!.
    pose proof (loop_post connectionsInv connections_step_Inv cfg w
                          (maxSteps cfg) 0 st0 Hready) as Hpost.
    destruct (loop _ _ _ _ _) as [st flow]. simpl in Hpost. simpl.
    intros Hdone.
    destruct flow; simpl in Hpost.
    + destruct Hpost as [(_ & Hnot & _) _]. simpl in Hnot. congruence.
    + destruct Hpost as [(_ & Hnot & _)|[(_ & _ & e & a & obs & fb & He & Hs & Hr)
                                        |(_ & Hinv & Hst)]].
      * simpl in Hnot. congruence.
      * pose proof (connections_invalid_not_done _ _ _ _ _ He Hs Hr) as Hnot.
        simpl in Hnot. congruence.
      * rewrite Hst. simpl. unfold connectionsInv in Hinv.
        destruct (env st) as [s|]; [|done]. simpl in *.
        specialize (Hinv Hdone).
        by destruct (ConnectionsEnv.st_status s).
    + destruct Hpost as [Hnot _]. simpl in Hnot. congruence.
  - intros cfg w p r. unfold r, runCrossword. simpl.
    unfold runSingleEvaluation.
    set (st0 := initialState _ _).
    assert (ready crosswordInv st0) as Hready by by split_and!.
    pose proof (loop_post crosswordInv crossword_step_Inv cfg w
                          (maxSteps cfg) 0 st0 Hready) as Hpost.
    destruct (loop _ _ _ _ _) as [st flow]. simpl in Hpost. simpl.
    intros Hdone.
    destruct flow; simpl in Hpost.
    + destruct Hpost as [(_ & Hnot & _) _]. simpl in Hnot. congruence.
    + destruct Hpost as [(_ & Hnot & _)|[(_ & _ & e & a & obs & fb & He & Hs & Hr)
                                        |(_ & Hinv & Hst)]].
      * simpl in Hnot. congruence.
      * pose proof (crossword_invalid_not_done _ _ _ _ _ He Hs Hr) as Hnot.
        simpl in Hnot. congruence.
      * rewrite Hst. simpl. unfold crosswordInv in Hinv.
        unfold CrosswordEnv.isDone, CrosswordEnv.getStatus in *.
        destruct (CrosswordEnv.state (env st)) as [s|]; [|done].
        specialize (Hinv Hdone).
        by destruct (CrosswordEnv.st_status s).
    + destruct Hpost as [Hnot _]. simpl in Hnot. congruence.
Qed.

(** C2 as stated fails for [gave_up]: a model that gives up at the first
    step leaves the environment with status [gave_up], and the summary
    says [fail]. *)
Lemma C2_gave_up_counterexample :
  let r := runConnections (smallConfig 5) givingUpWorld
                          ConnectionsEnv.samplePuzzle
                          (ConnectionsEnv.puzzle_words ConnectionsEnv.samplePuzzle) in
  ConnectionsEnv.isDone (finalEnv r) = true
  ∧ env_getStatus (finalEnv r) = "gave_up"%string
  ∧ status_tag (sum_status r) = "fail"%string
  ∧ status_tag (sum_status r) ≠ env_getStatus (finalEnv r).
Proof. vm_compute. split_and!; done. Qed.

(** *** The step cap *)

(** C10. A run on an environment that is not done at the start: if the
    clock is within the budget at the head of each of the [maxSteps]
    iterations and after the loop, no exception escapes an iteration,
    the environment is not done at the end and the invalid-action count
    stays below the cap, then every iteration ran and the status of the
    summary is [error].  And a status other than [error] comes with one
    of: the clock over the budget at the head of an iteration or after
    the loop, the environment done, or the count at the cap. *)
Theorem C10_exhausted_run_is_error
        {E A O F : Type} `{!Environment E A O F}
        (cfg : SuiteConfig) (w : World A O) (env0 : E) (obs0 : O) :
  env_isDone env0 = false →
  let r := runSingleEvaluation cfg w env0 obs0 in
  ((∀ i, i < maxSteps cfg → (elapsedAtStep w i ≤ runTimeoutMs cfg)%Z) →
   (elapsedAfterLoop w ≤ runTimeoutMs cfg)%Z →
   (∀ i, i < maxSteps cfg → escapes w i = false) →
   env_isDone (finalEnv r) = false →
   (sum_invalidActions r < maxInvalidActions cfg)%Z →
   sum_status r = error ∧ stepsTaken r = maxSteps cfg)
  ∧ (sum_status r ≠ error →
     (∃ i, i < maxSteps cfg ∧ (runTimeoutMs cfg < elapsedAtStep w i)%Z)
     ∨ (runTimeoutMs cfg < elapsedAfterLoop w)%Z
     ∨ env_isDone (finalEnv r) = true
     ∨ (maxInvalidActions cfg ≤ sum_invalidActions r)%Z).
Proof.
  intros Hstart r. unfold r, runSingleEvaluation. clear r.
  set (st0 := initialState env0 obs0).
  assert (ready (λ _, True) st0) as Hready by by split_and!.
  pose proof (loop_post (λ _, True) (λ _ _ _, I) cfg w (maxSteps cfg) 0 st0 Hready)
    as Hpost.
  destruct (loop cfg w (maxSteps cfg) 0 st0) as [st flow].
  cbn [fst snd] in Hpost. cbn [sum_status stepsTaken sum_invalidActions finalEnv].
  destruct flow; simpl in Hpost.
  - destruct Hpost as [(Hst & Hnot & _) Hlen]. rewrite Hst. split.
    + intros _ Hafter _ _ _. split; [|simpl in Hlen; lia].
      destruct (Z.gtb_spec (elapsedAfterLoop w) (runTimeoutMs cfg)); [lia|done].
    + destruct (Z.gtb_spec (elapsedAfterLoop w) (runTimeoutMs cfg)); [|done].
      intros _. right. by left.
  - destruct Hpost as [(Hst & Hnot & i & Hi & Hlate)|[(Hst & Hcap & _)|(Hd & _ & Hst)]].
    + split.
      * intros Hclock. exfalso. specialize (Hclock i). lia.
      * intros _. left. exists i. split; [lia|done].
    + split.
      * intros _ _ _ _ Hbelow. lia.
      * intros _. do 3 right. done.
    + split.
      * intros _ _ _ Hnot. congruence.
      * intros _. right. right. by left.
  - destruct Hpost as (Hnot & i & Hi & Hesc). split.
    + intros _ _ Hnone. specialize (Hnone i). rewrite Hnone in Hesc; [done|lia].
    + done.
Qed.

Lemma C10_exhausted_run_is_error_witness :
  let r := runConnections (smallConfig 5) unreachableWorld
                          ConnectionsEnv.samplePuzzle
                          (ConnectionsEnv.puzzle_words ConnectionsEnv.samplePuzzle) in
  sum_status r = error ∧ stepsTaken r = 3.
Proof.
  apply (proj1 (@C10_exhausted_run_is_error
                  _ _ _ _ connections_environment
                  (smallConfig 5) unreachableWorld
                  (Some ConnectionsEnv.sampleStart)
                  (ConnectionsEnv.getObservation ConnectionsEnv.sampleStart)
                  eq_refl)).
  - intros i _. simpl. lia.
  - simpl. lia.
  - done.
  - by vm_compute.
  - by vm_compute.
Defined.

(** *** The invalid-action cap *)

(** The path the cap guards: a parsed action that the environment answers
    with [invalid_action] adds one to the count, and when the count is
    then at the cap the iteration breaks with status [fail], before the
    step is recorded. *)
Lemma env_invalid_at_cap_stops {E A O F : Type} `{!Environment E A O F}
      (cfg : SuiteConfig) (w : World A O) (i : nat) (st : LoopState E A O F)
      (a : A) (env' : E) (obs : O) (fb : F) :
  (elapsedAtStep w i ≤ runTimeoutMs cfg)%Z →
  escapes w i = false →
  agent w i (observation st) = Parsed a →
  env_step (env st) a = (env', Returned obs fb) →
  fb_result fb = "invalid_action"%string →
  (maxInvalidActions cfg ≤ invalidActions st + 1)%Z →
  stepBody cfg w i st
  = ({| status := fail; invalidActions := (invalidActions st + 1)%Z;
        steps := steps st; env := env'; observation := obs |}, Break).
Proof.
  intros Hclock Hesc Hreply Hstep Hres Hcap. unfold stepBody.
  destruct (Z.gtb_spec (elapsedAtStep w i) (runTimeoutMs cfg)); [lia|].
  rewrite Hesc, Hreply, Hstep, Hres. simpl.
  by destruct (Z.geb_spec (invalidActions st + 1) (maxInvalidActions cfg)); [|lia].
Qed.

(** The path the cap does not guard: a reply that does not parse adds one
    to the count and the iteration goes on to record the step, whatever
    the cap. *)
Lemma parse_failure_never_stops {E A O F : Type} `{!Environment E A O F}
      (cfg : SuiteConfig) (w : World A O) (i : nat) (st : LoopState E A O F)
      (parseError : string) :
  (elapsedAtStep w i ≤ runTimeoutMs cfg)%Z →
  escapes w i = false →
  agent w i (observation st) = Unparsable parseError →
  env_isDone (env st) = false →
  (stepBody cfg w i st).2 = Next
  ∧ invalidActions (stepBody cfg w i st).1 = (invalidActions st + 1)%Z
  ∧ status (stepBody cfg w i st).1 = status st
  ∧ env (stepBody cfg w i st).1 = env st
  ∧ length (steps (stepBody cfg w i st).1) = S (length (steps st)).
Proof.
  intros Hclock Hesc Hreply Hdone. unfold stepBody.
  destruct (Z.gtb_spec (elapsedAtStep w i) (runTimeoutMs cfg)); [lia|].
  rewrite Hesc, Hreply. unfold recordAndCheckDone. simpl. rewrite Hdone. simpl.
  split_and!; try done. rewrite length_app. simpl. lia.
Qed.

(** C8 fails on the code: with a cap of 1 and 3 steps, a model whose
    replies never parse is counted 3 invalid actions, the run is not
    stopped at the first one, all 3 steps are taken, and the status of
    the summary is [error], not [fail]. *)
Theorem C8_parse_failures_pass_the_cap :
  let r := runConnections (smallConfig 1) unparsableWorld
                          ConnectionsEnv.samplePuzzle
                          (ConnectionsEnv.puzzle_words ConnectionsEnv.samplePuzzle) in
  sum_invalidActions r = 3%Z
  ∧ (maxInvalidActions (smallConfig 1) ≤ sum_invalidActions r)%Z
  ∧ stepsTaken r = 3
  ∧ sum_status r = error
  ∧ ConnectionsEnv.isDone (finalEnv r) = false.
Proof. vm_compute. split_and!; done. Qed.

End RunnerFacts.

(* ===================================================================== *)
(** * Further properties of the code around the claims *)
(* ===================================================================== *)

(** ** ConnectionsEnv: the states reached from [reset] *)

Module ConnectionsRunFacts.
Import JsString ConnectionsEnv ConnectionsSpec ConnectionsRunSpec ConnectionsFacts.


Lemma takenBy_snoc (found : list ConnectionsGroup) (g : ConnectionsGroup)
      (w : string) :
  takenBy (found ++ [g]) w ↔ takenBy found w ∨ normalize w ∈ normalizedGroup g.
Proof.
  unfold takenBy. rewrite Exists_app, Exists_cons, Exists_nil. naive_solver.
Qed.

Lemma filter_takenBy_nil (l : list string) :
  filter (λ w, ¬ takenBy [] w) l = l.
Proof.
  induction l as [|w l IH]; [done|].
  rewrite filter_cons_True; [by f_equal|].
  unfold takenBy. rewrite Exists_nil. tauto.
Qed.

Lemma connections_reset_invariant (p : ConnectionsPuzzle) (shuffled : list string) :
  connectionsRunInvariant p shuffled (reset p shuffled) 0 0.
Proof.
  unfold connectionsRunInvariant, reset; simpl.
  split_and!; try done; try lia.
  - intros g Hg. by apply elem_of_nil in Hg.
  - constructor.
  - by rewrite filter_takenBy_nil.
Qed.

Lemma connections_step_invariant (p : ConnectionsPuzzle) (shuffled : list string)
      (s : ConnectionsEnvState) (k c : nat) (a : ConnectionsAction) :
  connectionsRunInvariant p shuffled s k c →
  ∃ s', (step (Some s) a).1 = Some s'
        ∧ connectionsRunInvariant p shuffled s'
            (k + if isIncorrect (step (Some s) a).2 then 1 else 0)
            (c + if isCorrect (step (Some s) a).2 then 1 else 0).
Proof.
  intros Hinv. destruct (st_done s) eqn:Hdone.
  { rewrite step_terminal by done. exists s. simpl.
    by rewrite !Nat.add_0_r. }
  destruct Hinv as (Hp & Hm & Hc & Hsub & Hnd & Hrem & Hsucc & Hfail & Hd & Hlt
                    & Hc4 & Hk4).
  destruct (Hlt Hdone) as [Hc3 Hk3].
  assert (st_status s = Status.in_progress) as Hst.
  { destruct (st_status s) eqn:E; try done;
      (assert (st_done s = true) as Ht by (by apply Hd)); congruence. }
  unfold step. rewrite Hdone. destruct a as [submitted| |tag].
  - pose proof (handleSubmitGroup_cases s submitted) as Hcase.
    destruct (handleSubmitGroup s submitted) as [s1 fb]. simpl in Hcase.
    eexists. split; [done|]. simpl.
    destruct Hcase as
      [msg Hinv
      |g s1 fb Hval Hfind Hres _ _ Hfb _ Hpz Hfound Hrem1 Hmis _ _ Hd1 Hst1
      |s1 fb _ _ Hres _ _ Hfb _ Hpz Hfound Hrem1 Hmis _ _ Hd1 Hst1].
    + simpl. rewrite !Nat.add_0_r. unfold connectionsRunInvariant. simpl.
      split_and!; done.
    + rewrite Hres, Nat.add_0_r. unfold connectionsRunInvariant. simpl.
      apply findMatchingGroup_Some in Hfind as [Hg Hfour].
      rewrite Hpz, Hmis, Hfound, Hrem1, Hd1, Hst1, Hfb, Hc, Hdone, Hst.
      assert (g ∉ foundGroups s) as Hfresh.
      { intros Hin. apply (taken_group_not_valid s g submitted); [| |done].
        - intros r Hr Hr'. rewrite Hrem in Hr.
          apply list_elem_of_filter in Hr as [Hr _]. apply Hr.
          apply Exists_exists. by exists g.
        - apply matches_four; [|done].
          destruct Hval as (Hlen & _). by rewrite length_fmap. }
      split_and!; try done.
      * rewrite length_app. simpl. lia.
      * intros g' [Hg'|Hg']%elem_of_app; [by apply Hsub|].
        apply list_elem_of_singleton in Hg'. subst g'. by rewrite <- Hp.
      * apply NoDup_app. split_and!; [done| |apply NoDup_singleton].
        intros g' Hg' ->%list_elem_of_singleton. done.
      * rewrite Hrem, list_filter_filter. apply list_filter_iff. intros w.
        rewrite takenBy_snoc. tauto.
      * destruct (Nat.eqb_spec (c + 1) 4); split; try done; lia.
      * destruct (Nat.eqb_spec (c + 1) 4); split; try done; lia.
      * destruct (Nat.eqb_spec (c + 1) 4); split; try done.
      * destruct (Nat.eqb_spec (c + 1) 4); try done. intros _. lia.
      * lia.
    + rewrite Hres, Nat.add_0_r. unfold connectionsRunInvariant; simpl.
      rewrite Hpz, Hmis, Hfound, Hrem1, Hd1, Hst1, Hfb, Hdone, Hst, Hm.
      destruct (Z.leb_spec (4 - Z.of_nat k - 1) 0);
        split_and!; try done; try lia; try (split; try done; lia).
  - eexists. split; [done|]. simpl. rewrite !Nat.add_0_r.
    unfold connectionsRunInvariant; simpl. split_and!; try done; try (split; try done; lia).
  - eexists. split; [done|]. simpl. rewrite !Nat.add_0_r.
    unfold connectionsRunInvariant; simpl. split_and!; done.
Qed.


Lemma connections_run_invariant (acts : list ConnectionsAction)
      (p : ConnectionsPuzzle) (shuffled : list string)
      (s : ConnectionsEnvState) (k c : nat) :
  connectionsRunInvariant p shuffled s k c →
  ∃ s', (runActions step (Some s) acts).1 = Some s'
        ∧ connectionsRunInvariant p shuffled s'
            (k + incorrectCount (runActions step (Some s) acts).2)
            (c + correctCount (runActions step (Some s) acts).2).
Proof.
  revert s k c. induction acts as [|a acts IH]; intros s k c Hinv.
  - exists s. simpl. by rewrite !Nat.add_0_r.
  - destruct (connections_step_invariant p shuffled s k c a Hinv) as (s1 & Hs1 & Hinv1).
    destruct (IH s1 _ _ Hinv1) as (s2 & Hs2 & Hinv2).
    rewrite runActions_cons. cbv zeta. rewrite Hs1. cbn [fst snd].
    exists s2. split; [done|].
    unfold incorrectCount, correctCount in *. cbn [List.filter].
    destruct (isIncorrect (step (Some s) a).2),
             (isCorrect (step (Some s) a).2); cbn [length];
      rewrite ?Nat.add_0_r, <- ?Nat.add_assoc in Hinv2; simpl in Hinv2;
      by rewrite ?Nat.add_succ_r in *.
Qed.

Lemma connections_run_from_reset (p : ConnectionsPuzzle) (shuffled : list string)
      (acts : list ConnectionsAction) :
  ∃ s', (runActions step (Some (reset p shuffled)) acts).1 = Some s'
        ∧ connectionsRunInvariant p shuffled s'
            (incorrectCount (runActions step (Some (reset p shuffled)) acts).2)
            (correctCount (runActions step (Some (reset p shuffled)) acts).2).
Proof.
  apply (connections_run_invariant acts p shuffled (reset p shuffled) 0 0).
  apply connections_reset_invariant.
Qed.

(** X1. Whatever the actions since [reset]: the groups found are groups of
    the puzzle, no group is found twice, and the words still remaining are
    the words presented at [reset], in that order, less those that belong
    (once normalized) to a group found. *)
Theorem found_groups_and_remaining_words
        (p : ConnectionsPuzzle) (shuffled : list string)
        (acts : list ConnectionsAction) :
  ∃ s', (runActions step (Some (reset p shuffled)) acts).1 = Some s'
        ∧ puzzle s' = p
        ∧ NoDup (foundGroups s')
        ∧ (∀ g, g ∈ foundGroups s' → g ∈ groups p)
        ∧ remainingWords s'
          = filter (λ w, ¬ takenBy (foundGroups s') w) shuffled
        ∧ (∀ w, w ∈ remainingWords s' ↔
                w ∈ shuffled
                ∧ ∀ g, g ∈ foundGroups s' → normalize w ∉ normalizedGroup g).
Proof.
  destruct (connections_run_from_reset p shuffled acts)
    as (s' & Hs' & Hp & _ & _ & Hsub & Hnd & Hrem & _).
  exists s'. split_and!; try done.
  intros w. rewrite Hrem, list_elem_of_filter. unfold takenBy.
  rewrite Exists_exists. naive_solver.
Qed.

(** X2. Whatever the actions since [reset]: the status is [success] exactly
    when four groups are found, [fail] exactly when no mistake is left, the
    state is terminal exactly when the status is not [in_progress]; at most
    four groups are ever found, the mistakes left stay between 0 and 4, and
    a game that was won has a mistake left. *)
Theorem connections_status_after_any_run
        (p : ConnectionsPuzzle) (shuffled : list string)
        (acts : list ConnectionsAction) :
  ∃ s', (runActions step (Some (reset p shuffled)) acts).1 = Some s'
        ∧ (st_status s' = Status.success ↔ length (foundGroups s') = 4)
        ∧ (st_status s' = Status.fail ↔ mistakesLeft s' = 0%Z)
        ∧ (st_done s' = true ↔ st_status s' ≠ Status.in_progress)
        ∧ length (foundGroups s') ≤ 4
        ∧ (0 ≤ mistakesLeft s' ≤ 4)%Z
        ∧ (st_status s' = Status.success → (0 < mistakesLeft s')%Z).
Proof.
  destruct (connections_run_from_reset p shuffled acts)
    as (s' & Hs' & _ & Hm & Hc & _ & _ & _ & Hsucc & Hfail & Hd & _ & Hc4 & Hk4).
  exists s'. rewrite Hc, Hm. split_and!; try done; try lia.
  - rewrite Hfail. lia.
  - intros Hs. assert (incorrectCount
                         (runActions step (Some (reset p shuffled)) acts).2 ≠ 4).
    { intros Hk. apply Hfail in Hk. congruence. }
    lia.
Qed.

(** X3. [getMetrics] after any actions since [reset]: [mistakesMade] is the
    number of submissions that were answered [incorrect] and [groupsFound]
    the number that were answered [correct]. *)
Theorem getMetrics_counts_the_answers
        (p : ConnectionsPuzzle) (shuffled : list string)
        (acts : list ConnectionsAction) :
  let r := runActions step (Some (reset p shuffled)) acts in
  getMetrics r.1 = (Z.of_nat (incorrectCount r.2), correctCount r.2).
Proof.
  intros r. subst r.
  destruct (connections_run_from_reset p shuffled acts) as (s' & Hs' & _ & Hm & Hc & _).
  rewrite Hs'. unfold getMetrics. rewrite Hm, Hc. f_equal. lia.
Qed.

(** X4. On a puzzle whose category labels are pairwise distinct, in any
    state reached from [reset]: a submission answered [incorrect] is
    flagged one-away exactly when three of its four words belong to one
    group that was not found yet. *)
Theorem one_away_after_any_run
        (p : ConnectionsPuzzle) (shuffled : list string)
        (acts : list ConnectionsAction) (s' : ConnectionsEnvState)
        (submitted : list string) :
  NoDup (category <$> groups p) →
  (runActions step (Some (reset p shuffled)) acts).1 = Some s' →
  result (handleSubmitGroup s' submitted).2 = Result.incorrect →
  ∃ flag, oneAway (handleSubmitGroup s' submitted).2 = Some flag
    ∧ (flag = true ↔
         ∃ g, g ∈ groups p ∧ (g ∉ foundGroups s')
              ∧ exactlyThreeOf submitted g).
Proof.
  intros Hlabels Hrun Hres.
  destruct (connections_run_from_reset p shuffled acts) as (s1 & Hs1 & Hp & _ & _ & Hsub & _).
  rewrite Hrun in Hs1. injection Hs1 as <-.
  rewrite <- Hp. apply one_away_distinct_labels; [by rewrite Hp| |done].
  intros g Hg. rewrite Hp. by apply Hsub.
Qed.

Lemma one_away_after_any_run_witness :
  ∃ flag,
    oneAway (handleSubmitGroup sampleStart ["HAIL"; "RAIN"; "SLEET"; "BUCKS"]).2
    = Some flag
    ∧ (flag = true ↔
         ∃ g, g ∈ groups samplePuzzle ∧ (g ∉ foundGroups sampleStart)
              ∧ exactlyThreeOf ["HAIL"; "RAIN"; "SLEET"; "BUCKS"] g).
Proof.
  apply (one_away_after_any_run samplePuzzle (puzzle_words samplePuzzle) []).
  - apply (bool_decide_unpack (NoDup (category <$> groups samplePuzzle))).
    vm_compute. exact I.
  - reflexivity.
  - vm_compute. reflexivity.
Defined.

(** *** The history *)

Lemma handlers_keep_history (s : ConnectionsEnvState) (a : ConnectionsAction) :
  let r := match a with
           | giveUp => handleGiveUp s
           | submit_group submittedWords => handleSubmitGroup s submittedWords
           | other_action _ => (s, invalid "Unknown action type.")
           end in
  history r.1 = history s ∧ stateVersion r.1 = stateVersion s.
Proof.
  destruct a as [submitted| |tag]; simpl; try done.
  pose proof (handleSubmitGroup_cases s submitted) as Hcase.
  destruct (handleSubmitGroup s submitted) as [s1 fb]. simpl in *.
  by destruct Hcase.
Qed.

Lemma connections_step_live (s : ConnectionsEnvState) (a : ConnectionsAction) :
  st_done s = false →
  ∃ s1 fb,
    history s1 = history s ∧ stateVersion s1 = stateVersion s
    ∧ step (Some s) a
      = (Some (recordHistory s1 a fb),
         Returned (getObservation (recordHistory s1 a fb)) fb).
Proof.
  intros Hdone. unfold step. rewrite Hdone.
  pose proof (handlers_keep_history s a) as [Hh Hv]. cbv zeta in Hh, Hv.
  destruct (match a with
            | giveUp => handleGiveUp s
            | submit_group submittedWords => handleSubmitGroup s submittedWords
            | other_action _ => (s, invalid "Unknown action type.")
            end) as [s1 fb]. by exists s1, fb.
Qed.

Lemma connections_run_history (acts : list ConnectionsAction) (s : ConnectionsEnvState) :
  let r := runActions step (Some s) acts in
  ∃ s', r.1 = Some s'
        ∧ history s'
          = history s ++ imap (λ i, logEntry (length (history s) + i))
                              (returnedLog acts r.2)
        ∧ stateVersion s' = stateVersion s + length (returnedLog acts r.2).
Proof.
  revert s. induction acts as [|a acts IH]; intros s; cbv zeta.
  - exists s. simpl. by rewrite app_nil_r, Nat.add_0_r.
  - rewrite runActions_cons. cbv zeta. cbn [fst snd].
    destruct (st_done s) eqn:Hdone.
    + rewrite step_terminal by done. cbn [fst snd returnedLog].
      apply IH.
    + destruct (connections_step_live s a Hdone) as (s1 & fb & Hh & Hv & ->).
      cbn [fst snd returnedLog].
      destruct (IH (recordHistory s1 a fb)) as (s' & Hs' & Hhist & Hver).
      exists s'. split; [done|].
      rewrite Hhist, Hver. simpl. rewrite Hh, Hv, <- app_assoc. simpl.
      split; [|lia]. do 2 f_equal.
      * unfold logEntry. simpl. by rewrite Nat.add_0_r.
      * apply imap_ext. intros i e _. simpl. f_equal.
        rewrite length_app. simpl. lia.
Qed.

(** X5. The history kept by the environment is the log of the calls of
    [step] that returned since [reset]: one entry per such call, in order,
    holding the call's position, its action and the feedback it was given;
    a call that threw leaves no entry.  [stateVersion] is the number of
    entries. *)
Theorem history_is_the_log_of_returned_calls
        (p : ConnectionsPuzzle) (shuffled : list string)
        (acts : list ConnectionsAction) :
  let r := runActions step (Some (reset p shuffled)) acts in
  ∃ s', r.1 = Some s'
        ∧ history s' = imap logEntry (returnedLog acts r.2)
        ∧ stateVersion s' = length (history s')
        ∧ (∀ i e, history s' !! i = Some e → stepIndex e = i).
Proof.
  intros r. subst r.
  destruct (connections_run_history acts (reset p shuffled)) as (s' & Hs' & Hh & Hv).
  simpl in Hh, Hv. exists s'. split; [done|].
  assert (history s'
          = imap logEntry
              (returnedLog acts (runActions step (Some (reset p shuffled)) acts).2))
    as Hhist.
  { rewrite Hh. by apply imap_ext. }
  split_and!; [done| |].
  - by rewrite Hv, Hhist, length_imap.
  - intros i e. rewrite Hhist, list_lookup_imap.
    destruct (_ !! i); simpl; [|done]. by intros [= <-].
Qed.

(** *** Winning *)

Lemma mjoin_NoDup_each {X Y : Type} (f : X → list Y) (gs : list X) (g : X) :
  NoDup (mjoin (f <$> gs)) → g ∈ gs → NoDup (f g).
Proof.
  induction gs as [|a gs IH]; intros Hnd Hg; [by apply elem_of_nil in Hg|].
  rewrite fmap_cons in Hnd. simpl in Hnd.
  apply NoDup_app in Hnd as (Ha & _ & Hrest).
  apply elem_of_cons in Hg as [->|Hg]; [done|by apply IH].
Qed.

Lemma mjoin_NoDup_disjoint {X Y : Type} (f : X → list Y) (gs : list X)
      (g g' : X) (x : Y) :
  NoDup (mjoin (f <$> gs)) → g ∈ gs → g' ∈ gs → g ≠ g' →
  x ∈ f g → x ∉ f g'.
Proof.
  induction gs as [|a gs IH]; intros Hnd Hg Hg' Hne Hx Hx';
    [by apply elem_of_nil in Hg|].
  rewrite fmap_cons in Hnd. simpl in Hnd.
  apply NoDup_app in Hnd as (Ha & Hdisj & Hrest).
  assert (∀ h y, h ∈ gs → y ∈ f h → y ∈ mjoin (f <$> gs)) as Hin.
  { intros h y Hh Hy. apply list_elem_of_join. exists (f h).
    split; [done|]. apply list_elem_of_fmap. by exists h. }
  apply elem_of_cons in Hg as [->|Hg], Hg' as [->|Hg']; try done.
  - by apply (Hdisj x), (Hin g').
  - by apply (Hdisj x), (Hin g).
  - by apply IH.
Qed.

(** Submitting the words of a group of the puzzle while they all remain. *)
Lemma submit_own_words (s : ConnectionsEnvState) (g : ConnectionsGroup) :
  Forall (λ g, length (words g) = 4) (groups (puzzle s)) →
  NoDup (mjoin (normalizedGroup <$> groups (puzzle s))) →
  g ∈ groups (puzzle s) →
  (∀ w, w ∈ words g → w ∈ remainingWords s) →
  let r := handleSubmitGroup s (words g) in
  let won := (length (foundGroups s) + 1 =? 4) in
  result r.2 = Result.correct
  ∧ foundGroup r.2 = Some g
  ∧ foundGroups r.1 = foundGroups s ++ [g]
  ∧ remainingWords r.1
    = filter (λ w, normalize w ∉ normalizedGroup g) (remainingWords s)
  ∧ puzzle r.1 = puzzle s
  ∧ mistakesLeft r.1 = mistakesLeft s
  ∧ st_done r.1 = (if won then true else st_done s)
  ∧ st_status r.1 = (if won then Status.success else st_status s).
Proof.
  intros Hfour Hnd Hg Hrem. cbv zeta.
  rewrite Forall_forall in Hfour.
  assert (length (words g) = 4) as Hlen by by apply Hfour.
  assert (validSubmission s (words g)) as Hvalid.
  { split_and!; [done|by apply (mjoin_NoDup_each normalizedGroup (groups (puzzle s)) g)|].
    intros w (w0 & -> & Hw0)%list_elem_of_fmap.
    apply list_elem_of_fmap. exists w0. split; [done|by apply Hrem]. }
  assert (length (matches (normalize <$> words g) g) = 4) as Hmatch.
  { apply matches_four; [by rewrite length_fmap|done]. }
  pose proof (handleSubmitGroup_cases s (words g)) as Hcase.
  destruct (handleSubmitGroup s (words g)) as [s1 fb]. simpl in *.
  destruct Hcase as
    [msg Hinv
    |g' s1 fb _ Hfind Hres Hfg _ Hfb _ Hpz Hfound Hrem1 Hmis _ _ Hd1 Hst1
    |s1 fb _ Hfind _ _ _ _ _ _ _ _ _ _ _ _ _].
  - done.
  - assert (g' = g) as ->.
    { apply findMatchingGroup_Some in Hfind as [Hg' Hfour'].
      destruct (decide (g' = g)) as [|Hne]; [done|]. exfalso.
      assert (length (normalize <$> words g) = 4) as Hl4
          by by rewrite length_fmap.
      pose proof (proj1 (matches_four _ g' Hl4) Hfour') as Hall'.
      destruct (words g) as [|w0 ws] eqn:Hw; [done|].
      assert (normalize w0 ∈ normalizedGroup g) as Hin.
      { unfold normalizedGroup. rewrite Hw. by left. }
      apply (mjoin_NoDup_disjoint normalizedGroup _ g g' (normalize w0) Hnd);
        try done.
      apply Hall'. by left. }
    rewrite Hfb in Hd1, Hst1. by split_and!.
  - exfalso. by apply (proj1 (findMatchingGroup_None _ _) Hfind g Hg).
Qed.

Lemma run_submitting_groups (p : ConnectionsPuzzle) (shuffled : list string)
      (todo : list ConnectionsGroup) (s : ConnectionsEnvState) :
  playable p shuffled →
  solving p shuffled s →
  NoDup (foundGroups s ++ todo) →
  Forall (λ g, g ∈ groups p) (foundGroups s ++ todo) →
  length (foundGroups s ++ todo) ≤ 4 →
  let r := runActions step (Some s) (submit_group ∘ words <$> todo) in
  ∃ s', r.1 = Some s'
        ∧ foundGroups s' = foundGroups s ++ todo
        ∧ Forall (λ o, isCorrect o = true) r.2
        ∧ solving p shuffled s'.
Proof.
  intros Hplay. revert s. induction todo as [|g todo IH];
    intros s Hsol Hnd Hin Hlen; cbv zeta.
  - exists s. simpl. rewrite app_nil_r. by split_and!.
  - rewrite fmap_cons, runActions_cons. cbv zeta. cbn [fst snd].
    destruct Hplay as (Hfour & Hdistinct & Hshown).
    destruct Hsol as (Hp & Hrem & Hmis & Hlive & _).
    rewrite length_app in Hlen. simpl in Hlen.
    assert (st_done s = false) as Hdone by (apply Hlive; lia).
    rewrite Forall_forall in Hin.
    assert (g ∈ groups p) as Hg.
    { apply Hin. apply elem_of_app. right. by left. }
    assert (∀ w, w ∈ words g → w ∈ remainingWords s) as Hremain.
    { intros w Hw. rewrite Hrem. apply list_elem_of_filter. split.
      - unfold takenBy. rewrite Exists_exists. intros (g' & Hg' & Hw').
        apply (mjoin_NoDup_disjoint normalizedGroup (groups p) g g'
                 (normalize w) Hdistinct); try done.
        + apply Hin. apply elem_of_app. by left.
        + intros ->. apply NoDup_app in Hnd as (_ & Hdisj & _).
          apply (Hdisj g' Hg'). by left.
        + apply list_elem_of_fmap. by exists w.
      - rewrite Forall_forall in Hshown.
        specialize (Hshown g Hg). rewrite Forall_forall in Hshown.
        by apply Hshown. }
    rewrite <- Hp in Hfour, Hdistinct, Hg.
    pose proof (submit_own_words s g Hfour Hdistinct Hg Hremain)
      as (Hres & _ & Hfound & Hrem1 & Hpz & Hmis1 & Hd1 & Hst1).
    change ((submit_group ∘ words) g) with (submit_group (words g)).
    rewrite step_submit_group by done. cbn [fst snd].
    set (s1 := recordHistory _ _ _).
    assert (foundGroups s1 = foundGroups s ++ [g]) as Hf1 by done.
    destruct (IH s1) as (s' & Hs' & Hfs' & Hall & Hsol').
    + unfold solving, s1. simpl.
      rewrite Hfound, Hrem1, Hpz, Hmis1, Hd1, Hst1, Hrem, length_app. simpl.
      split_and!; [done| |done| |].
      * rewrite list_filter_filter. apply list_filter_iff. intros w.
        rewrite takenBy_snoc. tauto.
      * intros Hlt. destruct (Nat.eqb_spec (length (foundGroups s) + 1) 4);
          [lia|done].
      * intros Heq. by destruct (Nat.eqb_spec (length (foundGroups s) + 1) 4).
    + by rewrite Hf1, <- app_assoc.
    + apply Forall_forall. intros g' Hg'. apply Hin.
      by rewrite Hf1, <- app_assoc in Hg'.
    + rewrite Hf1, <- app_assoc, length_app. simpl. lia.
    + exists s'. split; [done|]. split; [by rewrite Hfs', Hf1, <- app_assoc|].
      split; [|done]. constructor; [|done]. simpl. by rewrite Hres.
Qed.

(** X6. The game can be won.  On a playable puzzle (four words per group,
    the normalized words of the groups pairwise distinct and all
    presented), submitting the words of distinct groups of the puzzle, one
    group after the other in any order, is answered [correct] every time
    and costs no mistake; the groups found are the groups submitted, in
    that order, and with the fourth the game ends with status
    [success]. *)
Theorem submitting_the_groups_wins
        (p : ConnectionsPuzzle) (shuffled : list string)
        (order : list ConnectionsGroup) :
  playable p shuffled →
  NoDup order →
  Forall (λ g, g ∈ groups p) order →
  length order ≤ 4 →
  let r := runActions step (Some (reset p shuffled))
                      (submit_group ∘ words <$> order) in
  ∃ s', r.1 = Some s'
        ∧ foundGroups s' = order
        ∧ Forall (λ o, isCorrect o = true) r.2
        ∧ mistakesLeft s' = 4%Z
        ∧ (length order = 4 →
           st_done s' = true ∧ st_status s' = Status.success).
Proof.
  intros Hplay Hnd Hin Hlen.
  destruct (run_submitting_groups p shuffled order (reset p shuffled) Hplay)
    as (s' & Hs' & Hfound & Hall & Hsol); try done.
  - unfold solving. simpl. rewrite filter_takenBy_nil.
    by split_and!.
  - exists s'. simpl in Hfound. destruct Hsol as (_ & _ & Hmis & _ & Hwon).
    split_and!; try done. intros H4. apply Hwon. by rewrite Hfound.
Qed.

Lemma submitting_the_groups_wins_witness :
  let order := reverse (groups samplePuzzle) in
  let r := runActions step (Some sampleStart)
                      (submit_group ∘ words <$> order) in
  ∃ s', r.1 = Some s'
        ∧ foundGroups s' = order
        ∧ Forall (λ o, isCorrect o = true) r.2
        ∧ mistakesLeft s' = 4%Z
        ∧ (length order = 4 →
           st_done s' = true ∧ st_status s' = Status.success).
Proof.
  apply (submitting_the_groups_wins samplePuzzle (puzzle_words samplePuzzle)
           (reverse (groups samplePuzzle))).
  - apply (bool_decide_unpack
             (playable samplePuzzle (puzzle_words samplePuzzle))).
    vm_compute. exact I.
  - apply (bool_decide_unpack (NoDup (reverse (groups samplePuzzle)))).
    vm_compute. exact I.
  - apply (bool_decide_unpack
             (Forall (λ g, g ∈ groups samplePuzzle)
                     (reverse (groups samplePuzzle)))).
    vm_compute. exact I.
  - simpl. lia.
Defined.

End ConnectionsRunFacts.

(** ** CrosswordEnv: the states reached from [reset], clearing, metrics *)

Module CrosswordRunFacts.
Import JsString CrosswordEnv CrosswordSpec CrosswordRunSpec CrosswordFacts.

(** What the handlers of the three entry actions leave alone. *)
Lemma handleFillEntry_frame (m : gmap string CrosswordClue)
      (s : CrosswordEnvState) (d : Direction) (n : Z) (answer : string) :
  let r := handleFillEntry m s d n answer in
  sameButGridAndMarks s r.1 ∧ done r.2 = false
  ∧ result r.2 ≠ Result.checked.
Proof.
  unfold handleFillEntry, sameButGridAndMarks.
  destruct (m !! clueKey d n) as [c|]; [|done].
  destruct (negb _); [done|]. destruct (negb _); [done|].
  by destruct (fillLoop _ _ _ _ _).
Qed.

Lemma handleClearEntry_frame (m : gmap string CrosswordClue)
      (s : CrosswordEnvState) (d : Direction) (n : Z) :
  let r := handleClearEntry m s d n in
  sameButGridAndMarks s r.1 ∧ done r.2 = false
  ∧ result r.2 ≠ Result.checked.
Proof.
  unfold handleClearEntry, sameButGridAndMarks.
  destruct (m !! clueKey d n) as [c|]; [|done].
  by destruct (clearLoop _ _ _ _).
Qed.

Lemma handleCheckEntry_frame (m : gmap string CrosswordClue)
      (s : CrosswordEnvState) (d : Direction) (n : Z) :
  let r := handleCheckEntry m s d n in
  puzzle r.1 = puzzle s ∧ config r.1 = config s
  ∧ fillGrid r.1 = fillGrid s ∧ revealedCells r.1 = revealedCells s
  ∧ st_done r.1 = st_done s ∧ st_status r.1 = st_status s
  ∧ done r.2 = false
  ∧ checksPerformed r.1
    = checksPerformed s
      + (match result r.2 with Result.checked => 1 | _ => 0 end)
  ∧ (allowChecks (config s) = false → result r.2 = Result.invalid_action).
Proof.
  unfold handleCheckEntry.
  destruct (allowChecks (config s)); simpl; [|by rewrite Nat.add_0_r].
  destruct (m !! clueKey d n) as [c|]; [|by rewrite Nat.add_0_r].
  destruct (hasEmptyCell _ _); [by rewrite Nat.add_0_r|].
  destruct (checkLoop _ _ _ _ _ _) as [[wrong newly] known]. simpl.
  destruct wrong; simpl; split_and!; try done; lia.
Qed.

Lemma handleSubmitPuzzle_status (s : CrosswordEnvState) :
  let r := handleSubmitPuzzle s in
  puzzle r.1 = puzzle s ∧ config r.1 = config s
  ∧ fillGrid r.1 = fillGrid s ∧ revealedCells r.1 = revealedCells s
  ∧ checksPerformed r.1 = checksPerformed s
  ∧ st_done r.1 = true ∧ done r.2 = true
  ∧ result r.2 = Result.submitted
  ∧ status r.2 = Some (st_status r.1)
  ∧ st_status r.1
    = match mismatchedCells (fillGrid s) (solution_grid (puzzle s)) with
      | [] => if decide (revealedCells s = [])
              then Status.success_clean else Status.success_with_reveals
      | _ => Status.fail
      end.
Proof.
  unfold handleSubmitPuzzle.
  rewrite submitLoop_filter, app_nil_l.
  fold (mismatchedCells (fillGrid s) (solution_grid (puzzle s))).
  destruct (mismatchedCells _ _); simpl; [|done].
  unfold JsSet.size. by destruct (revealedCells s).
Qed.

Lemma crossword_reset_invariant (p : CrosswordPuzzle) (cfg : CrosswordEnvConfig) :
  crosswordRunInvariant p cfg (freshState p cfg) 0.
Proof.
  unfold crosswordRunInvariant, freshState; simpl.
  split_and!; try done. split; [done|]. by intros [? _].
Qed.

Lemma crossword_live_invariant (p : CrosswordPuzzle) (cfg : CrosswordEnvConfig)
      (s : CrosswordEnvState) (n : nat) :
  puzzle s = p → config s = cfg → revealedCells s = [] →
  checksPerformed s = n → st_done s = false →
  st_status s = Status.in_progress →
  (allowChecks cfg = false → n = 0) →
  crosswordRunInvariant p cfg s n.
Proof.
  intros Hp Hc Hr Hn Hd Hs Hz. unfold crosswordRunInvariant. rewrite Hd, Hs.
  split_and!; try done. split; [done|]. by intros [? _].
Qed.

Lemma crossword_step_invariant (p : CrosswordPuzzle) (cfg : CrosswordEnvConfig)
      (e : Env) (s : CrosswordEnvState) (n : nat) (a : CrosswordAction) :
  state e = Some s →
  crosswordRunInvariant p cfg s n →
  ∃ s', state (step e a).1 = Some s'
        ∧ crosswordRunInvariant p cfg s' (n + if isChecked (step e a).2 then 1 else 0).
Proof.
  intros He Hinv. destruct (st_done s) eqn:Hdone.
  { rewrite TerminalFacts.crossword_step_done
      by (unfold isDone; by rewrite He).
    exists s. simpl. by rewrite Nat.add_0_r. }
  destruct Hinv as (Hp & Hc & Hr & Hn & Hd & Hnr & Hok & Hfail & Hz).
  assert (st_status s = Status.in_progress) as Hst.
  { destruct (st_status s) eqn:E; try done;
      (assert (st_done s = true) as Ht by (by apply Hd)); congruence. }
  unfold step. rewrite He, Hdone. destruct a as [d k answer|d k|d k| | |tag].
  - pose proof (handleFillEntry_frame (clueMap e) s d k answer)
      as ((Hp1 & Hc1 & Hr1 & _ & _ & Hd1 & Hs1 & Hn1) & _ & Hres).
    destruct (handleFillEntry (clueMap e) s d k answer) as [s1 fb].
    simpl in *. eexists. split; [done|].
    replace (match result fb with Result.checked => true | _ => false end)
      with false by by destruct (result fb).
    rewrite Nat.add_0_r. apply crossword_live_invariant; simpl; first [congruence|done].
  - pose proof (handleClearEntry_frame (clueMap e) s d k)
      as ((Hp1 & Hc1 & Hr1 & _ & _ & Hd1 & Hs1 & Hn1) & _ & Hres).
    destruct (handleClearEntry (clueMap e) s d k) as [s1 fb].
    simpl in *. eexists. split; [done|].
    replace (match result fb with Result.checked => true | _ => false end)
      with false by by destruct (result fb).
    rewrite Nat.add_0_r. apply crossword_live_invariant; simpl; first [congruence|done].
  - pose proof (handleCheckEntry_frame (clueMap e) s d k)
      as (Hp1 & Hc1 & _ & Hr1 & Hd1 & Hs1 & _ & Hn1 & Hoff).
    destruct (handleCheckEntry (clueMap e) s d k) as [s1 fb].
    simpl in *. eexists. split; [done|].
    apply crossword_live_invariant; simpl; try congruence.
    + rewrite Hn1, Hn. by destruct (result fb).
    + intros Hno. rewrite Hc, Hno in Hoff. rewrite Hoff by done.
      rewrite Hz by done. done.
  - pose proof (handleSubmitPuzzle_status s)
      as (Hp1 & Hc1 & Hg1 & Hr1 & Hn1 & Hd1 & _ & Hres & _ & Hs1).
    destruct (handleSubmitPuzzle s) as [s1 fb].
    simpl in *. eexists. split; [done|]. rewrite Hres, Nat.add_0_r.
    unfold crosswordRunInvariant. simpl.
    rewrite Hp1, Hc1, Hg1, Hr1, Hn1, Hd1, Hs1, Hp, Hr.
    rewrite decide_True by done.
    destruct (mismatchedCells (fillGrid s) (solution_grid p));
      split_and!; try done; split; try done; by intros (_ & _ & ?).
  - eexists. split; [done|]. simpl. rewrite Nat.add_0_r.
    unfold crosswordRunInvariant. simpl. split_and!; try done.
    split; [done|]. by intros (_ & ? & _).
  - eexists. split; [done|]. simpl. rewrite Nat.add_0_r.
    by apply crossword_live_invariant.
Qed.

(** [step] keeps the clue map and some state in place. *)
Lemma crossword_run_invariant (acts : list CrosswordAction)
      (p : CrosswordPuzzle) (cfg : CrosswordEnvConfig)
      (e : Env) (s : CrosswordEnvState) (n : nat) :
  state e = Some s →
  crosswordRunInvariant p cfg s n →
  ∃ s', state (runActions step e acts).1 = Some s'
        ∧ clueMap (runActions step e acts).1 = clueMap e
        ∧ crosswordRunInvariant p cfg s' (n + checkedAnswers (runActions step e acts).2).
Proof.
  revert e s n. induction acts as [|a acts IH]; intros e s n He Hinv.
  - exists s. simpl. by rewrite Nat.add_0_r.
  - destruct (crossword_step_invariant p cfg e s n a He Hinv) as (s1 & Hs1 & Hinv1).
    destruct (IH _ s1 _ Hs1 Hinv1) as (s2 & Hs2 & Hm2 & Hinv2).
    rewrite runActions_cons. cbv zeta. cbn [fst snd].
    exists s2. split; [done|]. split; [by rewrite Hm2, step_clueMap|].
    unfold checkedAnswers in *. cbn [List.filter].
    destruct (isChecked (step e a).2); cbn [length].
    + by rewrite Nat.add_succ_r, <- Nat.add_succ_l, <- Nat.add_1_r.
    + by rewrite Nat.add_0_r in Hinv2.
Qed.

Lemma crossword_run_from_reset (p : CrosswordPuzzle) (cfg : CrosswordEnvConfig)
      (acts : list CrosswordAction) :
  ∃ s', state (runActions step (reset p cfg) acts).1 = Some s'
        ∧ clueMap (runActions step (reset p cfg) acts).1 = clueMap (reset p cfg)
        ∧ crosswordRunInvariant p cfg s'
            (checkedAnswers (runActions step (reset p cfg) acts).2).
Proof.
  apply (crossword_run_invariant acts p cfg (reset p cfg) (freshState p cfg) 0);
    [done|apply crossword_reset_invariant].
Qed.

(** X7. Whatever the actions since [reset]: no cell is ever revealed and
    the status is never [success_with_reveals]; the state is terminal
    exactly when the status is not [in_progress]; the status is
    [success_clean] exactly when the game ended otherwise than by giving
    up with every non-block cell of the grid equal to the solution, and
    [fail] only with a cell that differs. *)
Theorem crossword_status_after_any_run
        (p : CrosswordPuzzle) (cfg : CrosswordEnvConfig)
        (acts : list CrosswordAction) :
  ∃ s', state (runActions step (reset p cfg) acts).1 = Some s'
        ∧ puzzle s' = p ∧ config s' = cfg
        ∧ revealedCells s' = []
        ∧ st_status s' ≠ Status.success_with_reveals
        ∧ (st_done s' = true ↔ st_status s' ≠ Status.in_progress)
        ∧ (st_status s' = Status.success_clean ↔
             st_done s' = true ∧ st_status s' ≠ Status.gave_up
             ∧ mismatchedCells (fillGrid s') (solution_grid p) = [])
        ∧ (st_status s' = Status.fail →
             mismatchedCells (fillGrid s') (solution_grid p) ≠ []).
Proof.
  destruct (crossword_run_from_reset p cfg acts)
    as (s' & Hs' & _ & Hp & Hc & Hr & _ & Hd & Hnr & Hok & Hfail & _).
  exists s'. by split_and!.
Qed.

(** X8. The clue map built by [reset] resolves a direction and a number to
    the last clue the puzzle lists in that direction under that number
    (and to nothing when it lists none), and no [step] changes it. *)
Theorem clue_lookup_after_any_run
        (p : CrosswordPuzzle) (cfg : CrosswordEnvConfig)
        (acts : list CrosswordAction) (d : Direction) (n : Z) :
  clueMap (runActions step (reset p cfg) acts).1 !! clueKey d n
  = findClue d n p.
Proof.
  destruct (crossword_run_from_reset p cfg acts) as (s' & _ & -> & _).
  apply reset_clueMap_lookup.
Qed.

(** *** Metrics *)

Import CrosswordMetrics.

Lemma countLoop_filter (todo i : nat) (g : JsArray.t) (sol : list string)
      (c : Counts) :
  countLoop todo i g sol c
  = {| correctCount :=
         correctCount c + length (filter (correctAt g sol) (seq i todo));
       filledCount :=
         filledCount c + length (filter (filledAt g sol) (seq i todo));
       fillableCount :=
         fillableCount c + length (filter (fillableAt sol) (seq i todo)) |}.
Proof.
  revert i c. induction todo as [|todo IH]; intros i c; simpl.
  - rewrite ?filter_nil. simpl. rewrite !Nat.add_0_r. by destruct c.
  - rewrite !filter_cons.
    destruct (decide (correctAt g sol i)) as [Hc|Hc],
             (decide (filledAt g sol i)) as [Hf|Hf],
             (decide (fillableAt sol i)) as [Hb|Hb];
      unfold correctAt, filledAt, fillableAt in Hc, Hf, Hb;
      repeat case_bool_decide; try (exfalso; tauto);
      rewrite IH; simpl; f_equal; lia.
Qed.

Lemma filter_iff_in {A : Type} (P Q : A → Prop)
      `{!∀ x, Decision (P x)} `{!∀ x, Decision (Q x)} (l : list A) :
  (∀ x, x ∈ l → (P x ↔ Q x)) → filter P l = filter Q l.
Proof.
  induction l as [|x l IH]; intros Hiff; [done|].
  rewrite !filter_cons.
  assert (P x ↔ Q x) as Hx by (apply Hiff; by left).
  rewrite IH by (intros y Hy; apply Hiff; by right).
  destruct (decide (P x)), (decide (Q x)); tauto.
Qed.

Lemma filter_sub_length {A : Type} `{Countable A} (P Q : A → Prop)
      `{!∀ x, Decision (P x)} `{!∀ x, Decision (Q x)} (l : list A) :
  (∀ x, P x → Q x) →
  length (filter P l) ≤ length (filter Q l)
  ∧ (length (filter P l) = length (filter Q l) →
     ∀ x, x ∈ l → Q x → P x).
Proof.
  intros Hsub. rewrite <- (list_filter_filter_l P Q l) by done.
  split; [apply length_filter|].
  intros Hlen x Hx HQ.
  apply length_filter_all in Hlen. rewrite Forall_forall in Hlen.
  apply Hlen. by apply list_elem_of_filter.
Qed.

(** X9. The counters behind [percentCorrectFilled]: the correct cells are
    among the filled ones, these among the fillable ones; when every
    fillable cell is counted correct, [submit_puzzle] succeeds; and on a
    solution grid without a ["."] cell the converse holds. *)
Theorem metrics_counters_agree_with_submit
        (m : gmap string CrosswordClue) (s : CrosswordEnvState) :
  let c := percentCounts (getMetrics {| state := Some s; clueMap := m |}) in
  correctCount c ≤ filledCount c
  ∧ filledCount c ≤ fillableCount c
  ∧ fillableCount c ≤ length (fillGrid s)
  ∧ (correctCount c = fillableCount c →
     success (handleSubmitPuzzle s).2 = Some true)
  ∧ (Forall (λ x, x ≠ "."%string) (solution_grid (puzzle s)) →
     success (handleSubmitPuzzle s).2 = Some true →
     correctCount c = fillableCount c ∧ filledCount c = fillableCount c).
Proof.
  intros c. subst c. unfold getMetrics. simpl.
  rewrite countLoop_filter. simpl.
  set (g := fillGrid s). set (sol := solution_grid (puzzle s)).
  set (l := seq 0 (length g)).
  destruct (filter_sub_length (correctAt g sol) (filledAt g sol) l)
    as [Hcf _]; [by intros x [? _]|].
  destruct (filter_sub_length (filledAt g sol) (fillableAt sol) l)
    as [Hff _]; [by intros x [? _]|].
  destruct (filter_sub_length (correctAt g sol) (fillableAt sol) l)
    as [_ Hall]; [by intros x [[? _] _]|].
  assert (success (handleSubmitPuzzle s).2 = Some true
          ↔ mismatchedCells g sol = []) as Hsubmit.
  { unfold handleSubmitPuzzle. rewrite submitLoop_filter, app_nil_l.
    fold (mismatchedCells (fillGrid s) (solution_grid (puzzle s))).
    fold g sol. by destruct (mismatchedCells g sol). }
  split_and!; [done|done| |  |].
  - pose proof (length_filter (fillableAt sol) l) as Hle.
    unfold l in Hle at 2. by rewrite length_seq in Hle.
  - intros Heq. apply Hsubmit. specialize (Hall Heq).
    unfold mismatchedCells. fold l.
    destruct (filter (mismatchAt g sol) l) as [|i rest] eqn:Hw; [done|].
    assert (i ∈ filter (mismatchAt g sol) l) as Hi by (rewrite Hw; by left).
    apply list_elem_of_filter in Hi as [[Hb Hne] Hi].
    destruct (Hall i Hi Hb) as [_ Hsame]. done.
  - intros Hdots Hok. apply Hsubmit in Hok.
    assert (∀ i, i ∈ l → fillableAt sol i → correctAt g sol i) as Hcorrect.
    { intros i Hi Hb.
      assert (JsArray.get g i = sol !! i) as Hsame.
      { destruct (decide (JsArray.get g i = sol !! i)) as [|Hne]; [done|].
        assert (i ∈ mismatchedCells g sol) as Hin
            by (apply list_elem_of_filter; by split).
        rewrite Hok in Hin. by apply elem_of_nil in Hin. }
      split; [split; [done|]|done].
      rewrite Hsame. intros Hdot.
      rewrite Forall_forall in Hdots. eapply Hdots; [|done].
      by eapply list_elem_of_lookup_2. }
    split; f_equal; apply filter_iff_in; intros i Hi.
    + split; [by intros [[? _] _]|by apply Hcorrect].
    + split; [by intros [? _]|]. intros Hb. by apply Hcorrect.
Qed.

(** X10. [getMetrics] after any actions since [reset]: [checkedCount] is the
    number of [check_entry] actions that were answered [checked] (none
    when the configuration does not allow checks) and [revealedCount]
    is 0. *)
Theorem crossword_metrics_after_any_run
        (p : CrosswordPuzzle) (cfg : CrosswordEnvConfig)
        (acts : list CrosswordAction) :
  let r := runActions step (reset p cfg) acts in
  checkedCount (getMetrics r.1) = checkedAnswers r.2
  ∧ revealedCount (getMetrics r.1) = 0
  ∧ (allowChecks cfg = false → checkedAnswers r.2 = 0).
Proof.
  intros r. subst r.
  destruct (crossword_run_from_reset p cfg acts)
    as (s' & Hs' & _ & _ & _ & Hr & Hn & _ & _ & _ & _ & Hz).
  unfold getMetrics. rewrite Hs'. simpl. by rewrite Hr, Hn.
Qed.

(** *** clear_entry *)

Lemma clearLoop_spec (cs : list nat) (revealed : JsSet.t)
      (g : JsArray.t) (w : JsSet.t) :
  (∀ j, JsArray.get (clearLoop cs revealed g w).1 j
        = if decide (j ∈ cs ∧ j ∉ revealed)
          then Some "."%string else JsArray.get g j)
  ∧ (∀ j, j ∈ (clearLoop cs revealed g w).2 ↔
          j ∈ w ∧ ¬ (j ∈ cs ∧ j ∉ revealed)).
Proof.
  revert g w. induction cs as [|i cs IH]; intros g w; cbn [clearLoop].
  - split; intros j; cbn [fst snd].
    + destruct (decide (j ∈ [] ∧ j ∉ revealed)) as [[?%elem_of_nil _]|]; done.
    + split; [|tauto]. intros Hj. split; [done|]. by intros [?%elem_of_nil _].
  - destruct (JsSet.has revealed i) eqn:Hrev.
    + apply JsSet_has_spec in Hrev. destruct (IH g w) as [Hg Hw].
      split; intros j.
      * rewrite Hg.
        repeat case_decide; try done; exfalso;
          rewrite ?elem_of_cons in *; naive_solver.
      * rewrite Hw, elem_of_cons. naive_solver.
    + assert (i ∉ revealed) as Hnr.
      { intros Hin%JsSet_has_spec. congruence. }
      destruct (IH (JsArray.set g i (Some "."%string)) (JsSet.delete w i))
        as [Hg Hw].
      split; intros j.
      * rewrite Hg, JsArray_get_set.
        repeat case_decide; subst; try done; exfalso;
          rewrite ?elem_of_cons in *; naive_solver.
      * rewrite Hw, JsSet_elem_of_delete, elem_of_cons.
        destruct (decide (j = i)); naive_solver.
Qed.

(** X11. [clear_entry].  An unknown clue is refused and nothing changes.
    Otherwise every cell of the entry that is not revealed is set to
    ["."] and loses its known-wrong mark; revealed cells, the cells
    outside the entry and everything else in the state stay as they
    were. *)
Theorem clear_entry_empties_the_entry
        (m : gmap string CrosswordClue) (s : CrosswordEnvState)
        (d : Direction) (n : Z) :
  let s' := (handleClearEntry m s d n).1 in
  let fb := (handleClearEntry m s d n).2 in
  (result fb = Result.invalid_action ↔ m !! clueKey d n = None)
  ∧ (m !! clueKey d n = None → s' = s)
  ∧ (∀ c, m !! clueKey d n = Some c →
       result fb = Result.cleared ∧ done fb = false
       ∧ (∀ j, j ∈ cells c → j ∉ revealedCells s →
               JsArray.get (fillGrid s') j = Some "."%string)
       ∧ (∀ j, j ∉ cells c ∨ j ∈ revealedCells s →
               JsArray.get (fillGrid s') j = JsArray.get (fillGrid s) j)
       ∧ (∀ j, j ∈ checkedWrongCells s' ↔
               j ∈ checkedWrongCells s
               ∧ ¬ (j ∈ cells c ∧ j ∉ revealedCells s))
       ∧ sameButGridAndMarks s s').
Proof.
  intros s' fb. subst s' fb. unfold handleClearEntry.
  destruct (m !! clueKey d n) as [c|] eqn:Hm.
  - pose proof (clearLoop_spec (cells c) (revealedCells s) (fillGrid s)
                               (checkedWrongCells s)) as [Hg Hw].
    destruct (clearLoop _ _ _ _) as [g w]. simpl in *.
    split; [by split|]. split; [done|].
    intros c' [= <-]. split_and!; try done.
    + intros j Hj Hr. rewrite Hg, decide_True; done.
    + intros j Hj. rewrite Hg, decide_False; [done|]. tauto.
  - simpl. split; [by split|]. split; [done|]. by intros c.
Qed.

(** *** The shape of the grid *)

Lemma JsArray_set_in_range (a : JsArray.t) (i : nat) (v : option string) :
  i < length a → JsArray.set a i v = <[i:=v]> a.
Proof. intros Hi. unfold JsArray.set. by rewrite decide_True. Qed.

Lemma JsArray_length_set (a : JsArray.t) (i : nat) (v : option string) :
  i < length a → length (JsArray.set a i v) = length a.
Proof. intros Hi. by rewrite JsArray_set_in_range, length_insert. Qed.

Lemma JsArray_ext (a b : JsArray.t) :
  length a = length b → (∀ i, JsArray.get a i = JsArray.get b i) → a = b.
Proof.
  intros Hlen Hget. apply list_eq. intros i. specialize (Hget i).
  unfold JsArray.get in Hget.
  destruct (a !! i) as [x|] eqn:Ha, (b !! i) as [y|] eqn:Hb; simpl in Hget.
  - destruct x, y; simpl in Hget; congruence.
  - apply lookup_lt_Some in Ha. apply lookup_ge_None in Hb. lia.
  - apply lookup_lt_Some in Hb. apply lookup_ge_None in Ha. lia.
  - done.
Qed.

Lemma shape_set (gp : list string) (g : JsArray.t) (i : nat)
      (v : option string) :
  Forall2 cellOK gp g →
  is_Some (gp !! i) → gp !! i ≠ Some "#"%string →
  (v = Some "."%string
   ∨ ∃ ch, isUpper ch = true ∧ v = Some (String ch EmptyString)) →
  Forall2 cellOK gp (JsArray.set g i v).
Proof.
  intros Hshape [cell Hcell] Hblock Hv.
  assert (i < length g) as Hi.
  { rewrite <- (Forall2_length _ _ _ Hshape). by eapply lookup_lt_Some. }
  rewrite JsArray_set_in_range by done.
  rewrite <- (list_insert_id gp i cell) by done.
  apply Forall2_insert; [done|]. unfold cellOK.
  destruct (String.eqb_spec cell "#") as [->|_]; [|done].
  by rewrite Hcell in Hblock.
Qed.

Lemma charAt_upper (ans : string) (k : nat) :
  allUpperLetters ans = true → k < String.length ans →
  ∃ ch, isUpper ch = true ∧ charAt ans k = Some (String ch EmptyString).
Proof.
  revert k. induction ans as [|c ans IH]; intros k Hup Hk; simpl in *; [lia|].
  apply andb_true_iff in Hup as [Hc Hrest].
  destruct k as [|k].
  - exists c. by split.
  - unfold charAt in *. simpl. apply IH; [done|lia].
Qed.

Lemma fillLoop_shape (gp : list string) (cs : list nat) (i : nat)
      (ans : string) (g : JsArray.t) (w : JsSet.t) :
  Forall2 cellOK gp g →
  allUpperLetters ans = true →
  i + length cs ≤ String.length ans →
  Forall (λ j, is_Some (gp !! j) ∧ gp !! j ≠ Some "#"%string) cs →
  Forall2 cellOK gp (fillLoop cs i ans g w).1.
Proof.
  revert i g w. induction cs as [|j cs IH]; intros i g w Hshape Hup Hlen Hcs;
    simpl in *; [done|].
  inversion Hcs as [|? ? [Hj Hb] Hrest]; subst.
  apply IH; [|done|lia|done].
  apply shape_set; [done|done|done|]. right.
  apply charAt_upper; [done|lia].
Qed.

Lemma clearLoop_shape (gp : list string) (cs : list nat) (revealed : JsSet.t)
      (g : JsArray.t) (w : JsSet.t) :
  Forall2 cellOK gp g →
  Forall (λ j, is_Some (gp !! j) ∧ gp !! j ≠ Some "#"%string) cs →
  Forall2 cellOK gp (clearLoop cs revealed g w).1.
Proof.
  revert g w. induction cs as [|j cs IH]; intros g w Hshape Hcs;
    simpl in *; [done|].
  inversion Hcs as [|? ? [Hj Hb] Hrest]; subst.
  destruct (JsSet.has revealed j); [by apply IH|].
  apply IH; [|done]. apply shape_set; [done|done|done|by left].
Qed.

Lemma freshState_shape (p : CrosswordPuzzle) (cfg : CrosswordEnvConfig) :
  Forall2 cellOK (grid p) (fillGrid (freshState p cfg)).
Proof.
  simpl. induction (grid p) as [|cell l IH]; simpl; [constructor|].
  constructor; [|done]. unfold cellOK.
  destruct (String.eqb cell "#"); [done|by left].
Qed.

Lemma step_shape (p : CrosswordPuzzle) (e : Env) (s : CrosswordEnvState)
      (a : CrosswordAction) :
  state e = Some s → puzzle s = p →
  (∀ d n c, clueMap e !! clueKey d n = Some c → wellFormedClue p c) →
  Forall2 cellOK (grid p) (fillGrid s) →
  ∃ s', state (step e a).1 = Some s' ∧ puzzle s' = p
        ∧ Forall2 cellOK (grid p) (fillGrid s').
Proof.
  intros He Hp Hclues Hshape. unfold step. rewrite He.
  destruct (st_done s); [by exists s|].
  destruct a as [d k answer|d k|d k| | |tag].
  - unfold handleFillEntry.
    destruct (clueMap e !! clueKey d k) as [c|] eqn:Hc;
      [|by eexists; split_and!].
    destruct (Z.eqb_spec (Z.of_nat (String.length (normalizeAnswer answer)))
                         (clue_length c)) as [Hlen|_]; simpl;
      [|by eexists; split_and!].
    destruct (matchesLettersOnly _); simpl; [|by eexists; split_and!].
    destruct (Hclues _ _ _ Hc) as [Hcells Hin].
    pose proof (fillLoop_shape (grid p) (cells c) 0 (normalizeAnswer answer)
                  (fillGrid s) (checkedWrongCells s) Hshape
                  (allUpperLetters_keep _)) as Hfill.
    destruct (fillLoop _ _ _ _ _) as [g w]. simpl in *.
    eexists. split_and!; [done|done|]. simpl. apply Hfill; [lia|done].
  - unfold handleClearEntry.
    destruct (clueMap e !! clueKey d k) as [c|] eqn:Hc;
      [|by eexists; split_and!].
    destruct (Hclues _ _ _ Hc) as [_ Hin].
    pose proof (clearLoop_shape (grid p) (cells c) (revealedCells s)
                  (fillGrid s) (checkedWrongCells s) Hshape Hin) as Hclear.
    destruct (clearLoop _ _ _ _) as [g w]. simpl in *.
    by eexists; split_and!.
  - pose proof (handleCheckEntry_frame (clueMap e) s d k)
      as (Hp1 & _ & Hg1 & _).
    destruct (handleCheckEntry (clueMap e) s d k) as [s1 fb]. simpl in *.
    eexists. split_and!; [done|simpl; congruence|]. simpl. by rewrite Hg1.
  - pose proof (handleSubmitPuzzle_status s) as (Hp1 & _ & Hg1 & _).
    destruct (handleSubmitPuzzle s) as [s1 fb]. simpl in *.
    eexists. split_and!; [done|simpl; congruence|]. simpl. by rewrite Hg1.
  - by eexists; split_and!.
  - by eexists; split_and!.
Qed.

Lemma run_shape (acts : list CrosswordAction) (p : CrosswordPuzzle)
      (e : Env) (s : CrosswordEnvState) :
  state e = Some s → puzzle s = p →
  (∀ d n c, clueMap e !! clueKey d n = Some c → wellFormedClue p c) →
  Forall2 cellOK (grid p) (fillGrid s) →
  ∃ s', state (runActions step e acts).1 = Some s' ∧ puzzle s' = p
        ∧ Forall2 cellOK (grid p) (fillGrid s').
Proof.
  revert e s. induction acts as [|a acts IH]; intros e s He Hp Hclues Hshape.
  - by exists s.
  - destruct (step_shape p e s a He Hp Hclues Hshape) as (s1 & Hs1 & Hp1 & Hsh1).
    rewrite runActions_cons. cbv zeta. cbn [fst snd].
    apply (IH _ s1); try done.
    intros d n c. rewrite step_clueMap. apply Hclues.
Qed.

(** X12. On a puzzle whose clues are well formed (as many cells as the
    length says, each a non-block cell of the grid), whatever the actions
    since [reset]: the fill grid keeps the length of the puzzle grid, a
    block stays ["#"], and every other cell holds ["."] or one capital
    letter. *)
Theorem fill_grid_keeps_its_shape
        (p : CrosswordPuzzle) (cfg : CrosswordEnvConfig)
        (acts : list CrosswordAction) :
  wellFormedClues p →
  ∃ s', state (runActions step (reset p cfg) acts).1 = Some s'
        ∧ length (fillGrid s') = length (grid p)
        ∧ Forall2 cellOK (grid p) (fillGrid s').
Proof.
  intros Hwf.
  destruct (run_shape acts p (reset p cfg) (freshState p cfg))
    as (s' & Hs' & _ & Hshape); try done.
  - intros d n c. rewrite reset_clueMap_lookup. unfold findClue.
    intros Hlast%last_Some_elem_of.
    apply list_elem_of_filter in Hlast as [_ Hin].
    unfold wellFormedClues in Hwf. rewrite Forall_forall in Hwf.
    apply Hwf. rewrite elem_of_app. destruct d; [by left|by right].
  - apply freshState_shape.
  - exists s'. split_and!; [done| |done].
    symmetry. by eapply Forall2_length.
Qed.

Lemma fill_grid_keeps_its_shape_witness :
  ∃ s', state (runActions step miniStart
                 [fill_entry across 1 "ca"; fill_entry down 2 "at";
                  clear_entry across 1]).1 = Some s'
        ∧ length (fillGrid s') = length (grid miniPuzzle)
        ∧ Forall2 cellOK (grid miniPuzzle) (fillGrid s').
Proof.
  apply (fill_grid_keeps_its_shape miniPuzzle defaultConfig).
  apply (bool_decide_unpack (wellFormedClues miniPuzzle)).
  vm_compute. exact I.
Defined.

(** *** Filling, then clearing *)

Lemma fillLoop_length (cs : list nat) (i : nat) (ans : string)
      (g : JsArray.t) (w : JsSet.t) :
  (∀ j, j ∈ cs → j < length g) →
  length (fillLoop cs i ans g w).1 = length g.
Proof.
  revert i g w. induction cs as [|j cs IH]; intros i g w Hin; simpl; [done|].
  assert (j < length g) as Hj by (apply Hin; by left).
  rewrite IH; [by apply JsArray_length_set|].
  intros j' Hj'. rewrite JsArray_length_set by done. apply Hin. by right.
Qed.

Lemma clearLoop_length (cs : list nat) (revealed : JsSet.t)
      (g : JsArray.t) (w : JsSet.t) :
  (∀ j, j ∈ cs → j < length g) →
  length (clearLoop cs revealed g w).1 = length g.
Proof.
  revert g w. induction cs as [|j cs IH]; intros g w Hin; simpl; [done|].
  assert (j < length g) as Hj by (apply Hin; by left).
  destruct (JsSet.has revealed j).
  - apply IH. intros j' Hj'. apply Hin. by right.
  - rewrite IH; [by apply JsArray_length_set|].
    intros j' Hj'. rewrite JsArray_length_set by done. apply Hin. by right.
Qed.

(** X13. Clearing undoes filling: when an answer is filled into an entry
    whose cells were all empty and none of them is revealed, a
    [clear_entry] of the same entry gives back the fill grid as it was
    before. *)
Theorem clear_entry_undoes_fill_entry
        (m : gmap string CrosswordClue) (s : CrosswordEnvState)
        (d : Direction) (n : Z) (answer : string) (c : CrosswordClue) :
  m !! clueKey d n = Some c →
  (∀ j, j ∈ cells c → fillGrid s !! j = Some (Some "."%string)) →
  (∀ j, j ∈ cells c → j ∉ revealedCells s) →
  result (handleFillEntry m s d n answer).2 = Result.filled →
  let s1 := (handleFillEntry m s d n answer).1 in
  let r := handleClearEntry m s1 d n in
  result r.2 = Result.cleared ∧ fillGrid r.1 = fillGrid s.
Proof.
  intros Hm Hempty Hrev Hres s1 r. subst s1 r.
  assert (∀ j, j ∈ cells c → j < length (fillGrid s)) as Hrange.
  { intros j Hj. eapply lookup_lt_Some. by apply Hempty. }
  unfold handleFillEntry in *. rewrite Hm in *.
  destruct (negb _); [done|]. destruct (negb _); [done|].
  pose proof (fillLoop_spec (cells c) 0 (normalizeAnswer answer) (fillGrid s)
                (checkedWrongCells s)) as (_ & Hout & _).
  pose proof (fillLoop_length (cells c) 0 (normalizeAnswer answer) (fillGrid s)
                (checkedWrongCells s) Hrange) as Hlen.
  destruct (fillLoop _ _ _ _ _) as [g w]. simpl in *.
  unfold handleClearEntry. simpl. rewrite Hm.
  pose proof (clearLoop_spec (cells c) (revealedCells s) g w) as [Hg _].
  pose proof (clearLoop_length (cells c) (revealedCells s) g w) as Hlen'.
  destruct (clearLoop _ _ _ _) as [g' w']. simpl in *.
  split; [done|]. apply JsArray_ext.
  - rewrite Hlen'; [done|]. intros j Hj. rewrite Hlen. by apply Hrange.
  - intros j. rewrite Hg.
    destruct (decide (j ∈ cells c)) as [Hj|Hj].
    + rewrite decide_True by (split; [done|by apply Hrev]).
      unfold JsArray.get. by rewrite Hempty.
    + rewrite decide_False by tauto. by apply Hout.
Qed.

Lemma clear_entry_undoes_fill_entry_witness :
  let m := clueMap miniStart in
  let s1 := (handleFillEntry m miniState across 1 "ca").1 in
  result (handleClearEntry m s1 across 1).2 = Result.cleared
  ∧ fillGrid (handleClearEntry m s1 across 1).1 = fillGrid miniState.
Proof.
  apply (clear_entry_undoes_fill_entry (clueMap miniStart) miniState across 1
           "ca" {| number := 1; clue := "Taxi, for short";
                   clue_length := 2; cells := [0; 1] |}).
  - vm_compute. reflexivity.
  - intros j Hj. vm_compute in Hj.
    apply elem_of_cons in Hj as [->|Hj]; [reflexivity|].
    apply elem_of_cons in Hj as [->|Hj]; [reflexivity|].
    by apply elem_of_nil in Hj.
  - intros j _ Hin. vm_compute in Hin. by apply elem_of_nil in Hin.
  - vm_compute. reflexivity.
Defined.

(** *** What is filled is what is observed *)

Lemma substring_all (s : string) (n : nat) :
  String.length s ≤ n → String.substring 0 n s = s.
Proof.
  revert n. induction s as [|ch s IH]; intros [|n] Hn; simpl in *;
    try done; try lia.
  f_equal. apply IH. lia.
Qed.

(** Joining what the grid holds at the cells of an entry, when the grid
    holds the letters of [ans] there: the letters, as many as there are
    cells; a cell past the last letter holds [undefined] and adds
    nothing. *)
Lemma currentFill_prefix (g : JsArray.t) (ans : string) (cs : list nat) :
  (∀ k cell, cs !! k = Some cell → JsArray.get g cell = charAt ans k) →
  foldr (λ i acc, default EmptyString (JsArray.get g i) +:+ acc)
        EmptyString cs
  = String.substring 0 (length cs) ans.
Proof.
  revert cs. induction ans as [|ch ans IH]; intros cs Hget.
  - induction cs as [|cell cs IHcs]; [done|]. simpl.
    rewrite (Hget 0 cell eq_refl). simpl.
    rewrite IHcs; [by destruct (length cs)|].
    intros k cell' Hk. by rewrite (Hget (S k) cell' Hk).
  - destruct cs as [|cell cs]; [done|]. simpl.
    rewrite (Hget 0 cell eq_refl). simpl. f_equal.
    apply IH. intros k cell' Hk. by rewrite (Hget (S k) cell' Hk).
Qed.

(** X14. What is filled is what is observed.  When a [fill_entry] stepped
    in a state reached from [reset] is answered [filled], the puzzle has
    a clue of that direction and number whose length is the number of
    letters kept from the answer; and if the cells of that clue are
    pairwise distinct, the observation returned lists the clue with a
    [currentFill] made of the first letters kept, as many as the clue has
    cells -- all of them when the clue has at least as many cells as its
    length. *)
Theorem filled_answer_is_observed
        (p : CrosswordPuzzle) (cfg : CrosswordEnvConfig)
        (acts : list CrosswordAction)
        (d : Direction) (n : Z) (answer : string)
        (e' : Env) (obs : CrosswordObservation) (fb : CrosswordFeedback) :
  step (runActions step (reset p cfg) acts).1 (fill_entry d n answer)
  = (e', Returned obs fb) →
  result fb = Result.filled →
  ∃ c, findClue d n p = Some c
       ∧ Z.of_nat (String.length (normalizeAnswer answer)) = clue_length c
       ∧ (NoDup (cells c) →
          ∃ co, co ∈ match d with
                     | across => obs_across obs
                     | down => obs_down obs
                     end
                ∧ co_number co = n ∧ co_clue co = clue c
                ∧ co_length co = clue_length c
                ∧ co_currentFill co
                  = String.substring 0 (length (cells c)) (normalizeAnswer answer)
                ∧ ((clue_length c ≤ Z.of_nat (length (cells c)))%Z →
                   co_currentFill co = normalizeAnswer answer)).
Proof.
  intros Hstep Hres.
  destruct (crossword_run_from_reset p cfg acts)
    as (s & Hs & Hmap & Hp & _).
  set (e := (runActions step (reset p cfg) acts).1) in *.
  destruct (st_done s) eqn:Hdone.
  { rewrite TerminalFacts.crossword_step_done in Hstep
      by (unfold isDone; by rewrite Hs).
    done. }
  rewrite (step_fill_entry e s d n answer Hs Hdone) in Hstep.
  injection Hstep as _ <- <-.
  pose proof (reset_clueMap_lookup p cfg d n) as Hlookup.
  rewrite <- Hmap in Hlookup.
  unfold handleFillEntry in *. rewrite Hlookup in *.
  destruct (findClue d n p) as [c|] eqn:Hc; [|done].
  destruct (Z.eqb_spec (Z.of_nat (String.length (normalizeAnswer answer)))
                       (clue_length c)) as [Hlen|_]; [|done].
  simpl in Hres |- *. destruct (negb _); [done|].
  pose proof (fillLoop_spec (cells c) 0 (normalizeAnswer answer) (fillGrid s)
                (checkedWrongCells s)) as (Hfill & _ & _).
  destruct (fillLoop _ _ _ _ _) as [g w]. simpl in *.
  exists c. split; [done|]. split; [done|]. intros Hnd.
  unfold findClue in Hc. apply last_Some_elem_of in Hc.
  apply list_elem_of_filter in Hc as [Hnum Hin].
  assert (currentFill g c
          = String.substring 0 (length (cells c)) (normalizeAnswer answer)) as Hcur.
  { unfold currentFill. apply currentFill_prefix.
    intros k cell Hk. apply Hfill; [done|].
    intros k' Hlt Hk'. pose proof (NoDup_lookup _ _ _ _ Hnd Hk Hk'). lia. }
  exists (observeClue g c). simpl. rewrite Hcur.
  split_and!; try done.
  - rewrite Hp. destruct d; simpl in *; apply list_elem_of_fmap; by exists c.
  - intros Hle. apply substring_all. lia.
Qed.

Lemma filled_answer_is_observed_witness :
  ∃ e' obs fb,
    step miniStart (fill_entry down 2 "a-t") = (e', Returned obs fb)
    ∧ result fb = Result.filled
    ∧ ∃ co, co ∈ obs_down obs ∧ co_number co = 2%Z
            ∧ co_currentFill co = "AT"%string.
Proof.
  destruct (step miniStart (fill_entry down 2 "a-t"))
    as [e' [err|obs fb]] eqn:Hstep.
  { vm_compute in Hstep. discriminate Hstep. }
  assert (result fb = Result.filled) as Hres.
  { vm_compute in Hstep. injection Hstep as _ _ <-. reflexivity. }
  exists e', obs, fb. split; [reflexivity|]. split; [exact Hres|].
  destruct (filled_answer_is_observed miniPuzzle defaultConfig [] down 2 "a-t"
              e' obs fb Hstep Hres) as (c & Hc & _ & Hobs).
  vm_compute in Hc. injection Hc as <-.
  destruct Hobs as (co & Hin & Hnum & _ & _ & Hfill & _).
  { apply (bool_decide_unpack (NoDup [1; 3])). vm_compute. exact I. }
  exists co. split; [exact Hin|]. split; [exact Hnum|exact Hfill].
Defined.

(** A clue with fewer cells than its length: the answer is accepted on
    its length and the observation shows the letters that found a
    cell. *)
Example short_clue_shows_a_prefix :
  let r := step (reset shortCluePuzzle defaultConfig)
                (fill_entry across 1 "ab") in
  ∃ obs fb, r.2 = Returned obs fb ∧ result fb = Result.filled
            ∧ co_currentFill <$> obs_across obs = ["A"%string].
Proof. vm_compute. eexists. eexists. split_and!; reflexivity. Qed.

End CrosswordRunFacts.

(** ** The step loop: bounds, and what a reported success means *)

Module RunnerRunFacts.
Import Runner RunnerSpec RunnerRunSpec RunnerFacts TerminalFacts.

Section LoopInvariant.
Context {E A O F : Type} `{!Environment E A O F}.
Variable Inv : E → Prop.
Hypothesis step_Inv : ∀ e a, Inv e → Inv (env_step e a).1.

Lemma recordAndCheckDone_env (i : nat) (st : LoopState E A O F)
      (pa : option A) (fb : option F) (err : option string) :
  env (recordAndCheckDone i st pa fb err).1 = env st.
Proof. unfold recordAndCheckDone. simpl. by destruct (env_isDone (env st)). Qed.

Lemma stepBody_env_Inv (cfg : SuiteConfig) (w : World A O) (i : nat)
      (st : LoopState E A O F) :
  Inv (env st) → Inv (env (stepBody cfg w i st).1).
Proof.
  intros Hinv. unfold stepBody.
  destruct (_ >? _)%Z; [done|].
  destruct (escapes w i); cbn [andb].
  { destruct (thrownBeforeCall _); [done|].
    by destruct (agent w i (observation st)). }
  destruct (agent w i (observation st)) as [apiError|parseError|a];
    rewrite ?recordAndCheckDone_env; try done.
  pose proof (step_Inv (env st) a Hinv) as Hinv'.
  destruct (env_step (env st) a) as [env' [envError|obs fb]]; simpl in Hinv'.
  - by rewrite recordAndCheckDone_env.
  - destruct (String.eqb _ _); [destruct (_ >=? _)%Z|];
      rewrite ?recordAndCheckDone_env; done.
Qed.

Lemma loop_env_Inv (cfg : SuiteConfig) (w : World A O) (todo i : nat)
      (st : LoopState E A O F) :
  Inv (env st) → Inv (env (loop cfg w todo i st).1).
Proof.
  revert i st. induction todo as [|todo IH]; intros i st Hinv; simpl; [done|].
  pose proof (stepBody_env_Inv cfg w i st Hinv) as Hbody.
  destruct (stepBody cfg w i st) as [st1 [| |]]; simpl in *; [by apply IH|done..].
Qed.

End LoopInvariant.

(** *** Steps and invalid actions *)

Section Bounds.
Context {E A O F : Type} `{!Environment E A O F}.





(** The run the bound is tight on in its second case: every reply fails
    to parse and the listener throws at the first [step_complete]. *)
Example listener_throws_after_a_parse_failure :
  let r := runConnections (smallConfig 5) throwingListenerWorld
                          ConnectionsEnv.samplePuzzle
                          (ConnectionsEnv.puzzle_words ConnectionsEnv.samplePuzzle) in
  sum_status r = error ∧ stepsTaken r = 0 ∧ sum_invalidActions r = 1%Z.
Proof. by vm_compute. Qed.

End Bounds.

(** *** What a reported success means *)

Lemma connectionsReached_step p shuffled (e : ConnectionsEnv.Env)
      (a : ConnectionsEnv.ConnectionsAction) :
  connectionsReached p shuffled e →
  connectionsReached p shuffled (env_step e a).1.
Proof.
  intros (s & k & c & -> & Hinv).
  destruct (ConnectionsRunFacts.connections_step_invariant p shuffled s k c a Hinv)
    as (s' & Hs' & Hinv').
  exists s'. eexists. eexists. split; [exact Hs'|exact Hinv'].
Qed.

Lemma crosswordReached_step p cfg (e : CrosswordEnv.Env)
      (a : CrosswordEnv.CrosswordAction) :
  crosswordReached p cfg e → crosswordReached p cfg (env_step e a).1.
Proof.
  intros (s & n & He & Hinv).
  destruct (CrosswordRunFacts.crossword_step_invariant p cfg e s n a He Hinv)
    as (s' & Hs' & Hinv').
  exists s'. eexists. split; [exact Hs'|exact Hinv'].
Qed.

(** X16. A Connections run is reported [success] exactly when its
    environment ends with four groups found; it is never reported
    [success_clean] or [success_with_reveals]. *)
Theorem reported_success_is_four_groups_found
        (cfg : SuiteConfig)
        (w : World ConnectionsEnv.ConnectionsAction
                   ConnectionsEnv.ConnectionsObservation)
        (p : ConnectionsEnv.ConnectionsPuzzle) (shuffled : list string) :
  let r := runConnections cfg w p shuffled in
  ∃ s, finalEnv r = Some s
       ∧ (sum_status r = success ↔ length (ConnectionsEnv.foundGroups s) = 4)
       ∧ sum_status r ≠ success_clean
       ∧ sum_status r ≠ success_with_reveals.
Proof.
  intros r. subst r. unfold runConnections, runSingleEvaluation.
  set (st0 := initialState _ _).
  assert (connectionsReached p shuffled (env st0)) as Hreach0.
  { exists (ConnectionsEnv.reset p shuffled), 0, 0. split; [done|].
    apply ConnectionsRunFacts.connections_reset_invariant. }
  assert (ready (connectionsReached p shuffled) st0) as Hready by by split_and!.
  pose proof (loop_post _ (connectionsReached_step p shuffled) cfg w
                        (maxSteps cfg) 0 st0 Hready) as Hpost.
  pose proof (loop_env_Inv _ (connectionsReached_step p shuffled) cfg w
                           (maxSteps cfg) 0 st0 Hreach0)
    as (s & k & c & Hs & Hinv).
  destruct (loop _ _ _ _ _) as [st flow]. simpl in Hpost, Hs. simpl.
  exists s. split; [done|].
  destruct Hinv as (_ & _ & Hc & _ & _ & _ & Hsucc & _ & Hd & Hlt & _).
  rewrite Hc.
  assert (env_isDone (env st) = false →
          (status st = error ∨ status st = timeout ∨ status st = fail) →
          ∀ final, (final = status st ∨ final = timeout ∨ final = error) →
          (final = success ↔ c = 4)
          ∧ final ≠ success_clean ∧ final ≠ success_with_reveals) as Hlive.
  { rewrite Hs. simpl. intros Hnot Hst final Hfinal.
    destruct (Hlt Hnot) as [Hc3 _].
    destruct Hst as [Hst|[Hst|Hst]], Hfinal as [-> | [-> | ->]];
      rewrite ?Hst; split_and!; try done; split; try done; lia. }
  destruct flow; simpl in Hpost.
  - destruct Hpost as [(Hst & Hnot & _) _].
    apply Hlive; [done|by left|]. rewrite Hst. destruct (_ >? _)%Z; tauto.
  - destruct Hpost as [(Hst & Hnot & _)|[(Hst & _ & e & a & obs & fb & He & Hstep & Hr)
                                        |(Hdone & _ & Hst)]].
    + apply Hlive; [done|by right; left|]. rewrite Hst. tauto.
    + apply Hlive; [|by right; right|rewrite Hst; tauto].
      by apply (connections_invalid_not_done _ _ _ _ _ He Hstep Hr).
    + rewrite Hst, Hs. rewrite Hs in Hdone. simpl in *.
      assert (ConnectionsEnv.st_status s ≠ ConnectionsEnv.Status.in_progress)
        as Hne by by apply Hd.
      destruct (ConnectionsEnv.st_status s) eqn:Est; try done; simpl;
        split_and!; try done; split; try done.
      * intros _. by apply Hsucc.
      * intros H4. by apply Hsucc in H4.
      * intros H4. by apply Hsucc in H4.
  - destruct Hpost as [Hnot _].
    destruct (Hlt ltac:(by rewrite Hs in Hnot)) as [Hc3 _].
    split_and!; try done. split; [done|lia].
Qed.

(** X17. A crossword run is reported [success_clean] only when its
    environment ends with every non-block cell of the fill grid equal to
    the solution, and exactly when the environment says [success_clean];
    it is never reported [success] or [success_with_reveals]. *)
Theorem reported_clean_success_is_a_solved_grid
        (cfg : SuiteConfig)
        (w : World CrosswordEnv.CrosswordAction
                   CrosswordEnv.CrosswordObservation)
        (p : CrosswordEnv.CrosswordPuzzle) :
  let r := runCrossword cfg w p in
  ∃ s, CrosswordEnv.state (finalEnv r) = Some s
       ∧ (sum_status r = success_clean ↔
            CrosswordEnv.st_status s = CrosswordEnv.Status.success_clean)
       ∧ (sum_status r = success_clean →
            CrosswordSpec.mismatchedCells (CrosswordEnv.fillGrid s)
                                          (CrosswordEnv.solution_grid p) = [])
       ∧ sum_status r ≠ success
       ∧ sum_status r ≠ success_with_reveals.
Proof.
  intros r. subst r. unfold runCrossword, runSingleEvaluation.
  set (rules := {| CrosswordEnv.allowChecks := allowChecks cfg;
                   CrosswordEnv.allowReveals := allowReveals cfg |}).
  set (st0 := initialState _ _).
  assert (crosswordReached p rules (env st0)) as Hreach0.
  { exists (CrosswordEnv.freshState p rules), 0. split; [done|].
    apply CrosswordRunFacts.crossword_reset_invariant. }
  assert (ready (crosswordReached p rules) st0) as Hready by by split_and!.
  pose proof (loop_post _ (crosswordReached_step p rules) cfg w
                        (maxSteps cfg) 0 st0 Hready) as Hpost.
  pose proof (loop_env_Inv _ (crosswordReached_step p rules) cfg w
                           (maxSteps cfg) 0 st0 Hreach0)
    as (s & n & Hs & Hinv).
  destruct (loop _ _ _ _ _) as [st flow]. simpl in Hpost, Hs. simpl.
  exists s. split; [done|].
  destruct Hinv as (_ & _ & _ & _ & Hd & Hnr & Hok & _).
  assert (env_isDone (env st) = false →
          ∀ final, (final = fail ∨ final = timeout ∨ final = error) →
          (final = success_clean ↔
             CrosswordEnv.st_status s = CrosswordEnv.Status.success_clean)
          ∧ (final = success_clean →
             CrosswordSpec.mismatchedCells (CrosswordEnv.fillGrid s)
                                           (CrosswordEnv.solution_grid p) = [])
          ∧ final ≠ success ∧ final ≠ success_with_reveals) as Hlive.
  { simpl. unfold CrosswordEnv.isDone. rewrite Hs. intros Hnot final Hfinal.
    assert (CrosswordEnv.st_status s ≠ CrosswordEnv.Status.success_clean).
    { intros Hc. apply Hok in Hc as [? _]. congruence. }
    destruct Hfinal as [-> | [-> | ->]]; split_and!; try done. }
  destruct flow; simpl in Hpost.
  - destruct Hpost as [(Hst & Hnot & _) _].
    apply Hlive; [done|]. rewrite Hst. destruct (_ >? _)%Z; tauto.
  - destruct Hpost as [(Hst & Hnot & _)|[(Hst & _ & e & a & obs & fb & He & Hstep & Hr)
                                        |(Hdone & _ & Hst)]].
    + apply Hlive; [done|]. rewrite Hst. tauto.
    + apply Hlive; [|rewrite Hst; tauto].
      by apply (crossword_invalid_not_done _ _ _ _ _ He Hstep Hr).
    + rewrite Hst. simpl in *.
      unfold CrosswordEnv.isDone, CrosswordEnv.getStatus in *.
      rewrite Hs in *.
      assert (CrosswordEnv.st_status s ≠ CrosswordEnv.Status.in_progress)
        as Hne by by apply Hd.
      destruct (CrosswordEnv.st_status s) eqn:Est; try done; simpl;
        split_and!; try done.
      intros _. by apply Hok.
  - destruct Hpost as [Hnot _]. apply Hlive; [done|tauto].
Qed.

End RunnerRunFacts.

(** ** Usage totals and the retry loop of the client *)

Module UsageFacts.
Import Usage UsageSpec.

Section TotalsFacts.
Context {num : Type} (zero : num) (add : num → num → num).

Lemma foldl_track (usages : list (option (OpenRouterUsage num)))
      (t : Totals num) :
  let t' := foldl (track add) t usages in
  totalPromptTokens t'
  = (totalPromptTokens t
     + foldr Z.add 0%Z (promptTokens <$> present usages))%Z
  ∧ totalCompletionTokens t'
    = (totalCompletionTokens t
       + foldr Z.add 0%Z (completionTokens <$> present usages))%Z
  ∧ (totalCost t' = None ↔
       totalCost t = None ∨ ∃ u, u ∈ present usages ∧ cost u = None)
  ∧ (∀ total, totalCost t = Some total →
       Forall (λ u, is_Some (cost u)) (present usages) →
       totalCost t' = Some (foldl add total (omap cost (present usages)))).
Proof.
  revert t. induction usages as [|[u|] usages IH]; intros t; cbv zeta.
  - simpl. split_and!; try lia.
    + split; [by left|]. intros [?|(u & ?%elem_of_nil & _)]; done.
    + by intros total Ht _.
  - destruct (IH (track add t (Some u))) as (Hp & Hc & Hnull & Hsum).
    change (foldl (track add) t (Some u :: usages))
      with (foldl (track add) (track add t (Some u)) usages).
    change (present (Some u :: usages)) with (u :: present usages).
    rewrite Hp, Hc, !fmap_cons.
    split_and!;
      [cbn [foldr track totalPromptTokens totalCompletionTokens]; lia..| |].
    + rewrite Hnull. simpl. setoid_rewrite elem_of_cons.
      destruct (cost u) as [c|] eqn:Hcu, (totalCost t) as [tc|]; naive_solver.
    + intros total Ht Hall. inversion Hall as [|? ? [c Hcu] Hrest]; subst.
      rewrite (Hsum (add total c)); [|simpl; by rewrite Hcu, Ht|done].
      simpl. by rewrite Hcu.
  - apply IH.
Qed.

(** X18. The usage totals of a run.  The prompt and completion totals are
    the sums over the responses that carried usage; a response without
    usage changes nothing.  The cost total is [null] exactly when some
    response with usage had no cost, and otherwise it is the costs added
    in order, starting from 0. *)
Theorem cost_total_is_null_iff_a_cost_is_missing
        (usages : list (option (OpenRouterUsage num))) :
  let t := trackAll zero add usages in
  totalPromptTokens t = foldr Z.add 0%Z (promptTokens <$> present usages)
  ∧ totalCompletionTokens t
    = foldr Z.add 0%Z (completionTokens <$> present usages)
  ∧ (totalCost t = None ↔ ∃ u, u ∈ present usages ∧ cost u = None)
  ∧ (Forall (λ u, is_Some (cost u)) (present usages) →
     totalCost t = Some (foldl add zero (omap cost (present usages)))).
Proof.
  intros t. subst t. unfold trackAll.
  destruct (foldl_track usages (initialTotals zero)) as (Hp & Hc & Hnull & Hsum).
  simpl in *. split_and!; [done|done| |by apply Hsum].
  rewrite Hnull. naive_solver.
Qed.

End TotalsFacts.
End UsageFacts.

Module ClientFacts.
Import OpenRouterClient ClientSpec.

Section RetryFacts.
Context {R : Type} (chatCompletion : nat → Ended R).

Lemma retryLoop_spec (maxRetries : Z) (todo attempt : nat)
      (lastError : option Thrown) :
  Z.of_nat (attempt + todo) = (maxRetries + 1)%Z → 0 < todo →
  ∃ k, attempt ≤ k < attempt + todo
       ∧ retryLoop chatCompletion maxRetries todo attempt lastError
         = (chatCompletion k, S k)
       ∧ (∀ j, attempt ≤ j < k → ¬ decisive (chatCompletion j))
       ∧ (decisive (chatCompletion k) ∨ Z.of_nat k = maxRetries).
Proof.
  revert attempt lastError. induction todo as [|todo IH];
    intros attempt lastError Hsum Hpos; [lia|].
  cbn [retryLoop].
  destruct (chatCompletion attempt) as [result|error] eqn:Hcall.
  - exists attempt. rewrite Hcall. split_and!; [lia|lia|done|intros; lia|by left].
  - destruct (isRetryableError error) eqn:Hretry; simpl.
    + destruct (Z.eqb_spec (Z.of_nat attempt) maxRetries) as [Hlast|Hmore].
      * exists attempt. rewrite Hcall.
        split_and!; [lia|lia|done|intros; lia|by right].
      * destruct (IH (S attempt) (Some error)) as (k & Hk & Hrun & Hbefore & Hend);
          [lia|lia|].
        exists k. split_and!; [lia|lia|done| |done].
        intros j Hj. destruct (decide (j = attempt)) as [->|Hne].
        -- rewrite Hcall. simpl. congruence.
        -- apply Hbefore. lia.
    + exists attempt. rewrite Hcall.
      split_and!; [lia|lia|done|intros; lia|by left].
Qed.

(** X19. [chatCompletionWithRetry] with [maxRetries >= 0] ends as the first
    call that resolves or throws an error that is not retryable (429,
    408 and 5xx are) -- or as call number [maxRetries] when no earlier
    call does; it makes no call after that one, so at most
    [maxRetries + 1].  With [maxRetries < 0] it makes no call and rejects
    with "Max retries exceeded". *)
Theorem retry_ends_at_the_first_decisive_call (maxRetries : Z) :
  ((0 ≤ maxRetries)%Z →
     ∃ k, (Z.of_nat k ≤ maxRetries)%Z
          ∧ chatCompletionWithRetry chatCompletion maxRetries
            = (chatCompletion k, S k)
          ∧ (∀ j, j < k → ∃ error, chatCompletion j = Rejected error
                                   ∧ isRetryableError error = true)
          ∧ (decisive (chatCompletion k) ∨ Z.of_nat k = maxRetries))
  ∧ ((maxRetries < 0)%Z →
       chatCompletionWithRetry chatCompletion maxRetries
       = (Rejected (OtherError "Max retries exceeded"), 0)).
Proof.
  unfold chatCompletionWithRetry. split.
  - intros Hpos.
    destruct (retryLoop_spec maxRetries (Z.to_nat (maxRetries + 1)) 0 None)
      as (k & Hk & Hrun & Hbefore & Hend); [lia|lia|].
    exists k. split_and!; [lia|done| |done].
    intros j Hj. specialize (Hbefore j ltac:(lia)).
    destruct (chatCompletion j) as [result|error]; simpl in Hbefore; [done|].
    exists error. split; [done|]. by destruct (isRetryableError error).
  - intros Hneg. replace (Z.to_nat (maxRetries + 1)) with 0 by lia. done.
Qed.

End RetryFacts.

(** The runner's setting, [maxRetries: 3], on a service that always
    answers 503: four calls, and the fourth error is thrown. *)
Example retry_gives_up_after_four_calls :
  chatCompletionWithRetry alwaysUnavailable 3
  = (Rejected (OpenRouterError "Service Unavailable" 503), 4).
Proof. reflexivity. Qed.

End ClientFacts.

(** ** The normalization script *)

Module NormalizeFacts.
Import JsString ConnectionsEnv ConnectionsSpec ConnectionsRunSpec.
Import NormalizeConnections.

Lemma normalizeAnswers_spec (wordsSoFar : list string) (rest : list RawAnswer) :
  (normalizeAnswers wordsSoFar rest).1
  = wordsSoFar ++ mjoin (words <$> (normalizeAnswers wordsSoFar rest).2)
  ∧ words <$> (normalizeAnswers wordsSoFar rest).2 = members <$> rest
  ∧ category <$> (normalizeAnswers wordsSoFar rest).2 = raw_group <$> rest.
Proof.
  revert wordsSoFar. induction rest as [|answer rest IH]; intros wordsSoFar.
  - simpl. by rewrite app_nil_r.
  - cbn [normalizeAnswers]. unfold answerToGroup.
    destruct (IH (wordsSoFar ++ members answer)) as (Hw & Hm & Hc).
    destruct (normalizeAnswers (wordsSoFar ++ members answer) rest)
      as [words2 groups2]. cbn [fst snd] in *.
    rewrite !fmap_cons. cbn [words category mjoin list_join].
    split_and!; [by rewrite Hw, <- app_assoc|by rewrite Hm|by rewrite Hc].
Qed.

Lemma normalized_words_of_groups (gs : list ConnectionsGroup) :
  normalize <$> mjoin (words <$> gs) = mjoin (normalizedGroup <$> gs).
Proof.
  induction gs as [|g gs IH]; [done|].
  change (normalize <$> (words g ++ mjoin (words <$> gs))
          = normalizedGroup g ++ mjoin (normalizedGroup <$> gs)).
  by rewrite fmap_app, IH.
Qed.

(** X20. The normalization script and the game.  The words of a normalized
    puzzle are the members of the raw answers, group after group, and its
    groups carry those members and the raw category names.  When the
    puzzle is within the array bounds of the schema and its sixteen words
    are pairwise distinct once normalized, it is playable under whatever
    order [reset] presents the words in. *)
Theorem normalized_puzzle_is_playable
        (raw : RawConnectionsPuzzle) (shuffled : list string) :
  let p := normalizeConnectionsPuzzle raw in
  puzzle_words p = mjoin (members <$> answers raw)
  ∧ words <$> groups p = members <$> answers raw
  ∧ category <$> groups p = raw_group <$> answers raw
  ∧ (schemaBounds p = true →
     NoDup (normalize <$> puzzle_words p) →
     shuffled ≡ₚ puzzle_words p →
     playable p shuffled).
Proof.
  intros p. subst p. unfold normalizeConnectionsPuzzle.
  destruct (normalizeAnswers_spec [] (answers raw)) as (Hw & Hm & Hc).
  destruct (normalizeAnswers [] (answers raw)) as [ws gs]. simpl in *.
  subst ws. rewrite <- Hm. split_and!; try done.
  intros Hbounds Hnd Hperm. unfold schemaBounds in Hbounds. simpl in Hbounds.
  apply andb_true_iff in Hbounds as [_ Hfour].
  unfold playable. simpl. split_and!.
  - apply Forall_forall. intros g Hg.
    rewrite forallb_forall in Hfour. apply Nat.eqb_eq, Hfour.
    by apply list_elem_of_In.
  - by rewrite <- normalized_words_of_groups.
  - apply Forall_forall. intros g Hg. apply Forall_forall. intros w Hw.
    rewrite Hperm. apply list_elem_of_join. exists (words g).
    split; [done|]. apply list_elem_of_fmap. by exists g.
Qed.

Lemma normalized_puzzle_is_playable_witness :
  playable (normalizeConnectionsPuzzle sampleRaw)
           (reverse (puzzle_words (normalizeConnectionsPuzzle sampleRaw))).
Proof.
  refine (proj2 (proj2 (proj2 (normalized_puzzle_is_playable sampleRaw _)))
                _ _ _).
  - vm_compute. reflexivity.
  - apply (bool_decide_unpack
             (NoDup (normalize
                       <$> puzzle_words (normalizeConnectionsPuzzle sampleRaw)))).
    vm_compute. exact I.
  - apply reverse_Permutation.
Defined.

End NormalizeFacts.
